(** * streamdown-tty: the streaming Markdown parser and the table re-parser

    A shallow embedding of [src/parser/streaming-parser.ts]
    (class [StreamingMarkdownParser]) and of
    [EnhancedTableRenderer.parseMarkdownTable] from
    [src/utils/enhanced-table-renderer.ts].

    JavaScript strings are sequences of UTF-16 code units; they are modelled
    as lists of [N].  The regular expressions of the source are transcribed
    one by one into a small regular-expression syntax with a backtracking
    matcher.  The [marked] lexer is a library outside the repository and is
    a parameter of the parser. *)

From Stdlib Require Import String Ascii.
From Stdlib Require Import List NArith ZArith Bool Lia Arith.
Import ListNotations.

Local Open Scope string_scope.
Local Open Scope N_scope.
Local Open Scope list_scope.

(** ** JavaScript strings *)

Definition jsstring := list N.

(** The code units of an ASCII literal. *)
Definition js (s : string) : jsstring :=
  map N_of_ascii (list_ascii_of_string s).

Fixpoint jseqb (a b : jsstring) : bool :=
  match a, b with
  | [], [] => true
  | x :: a', y :: b' => (x =? y) && jseqb a' b'
  | _, _ => false
  end.

Fixpoint startsWith (p s : jsstring) : bool :=
  match p, s with
  | [], _ => true
  | x :: p', y :: s' => (x =? y) && startsWith p' s'
  | _ :: _, [] => false
  end.

(** [s.includes(c)] for a one-character needle. *)
Definition includes (c : N) (s : jsstring) : bool :=
  existsb (N.eqb c) s.

(** [s.slice(a, b)] for [0 <= a <= b]. *)
Definition slice (a b : nat) (s : jsstring) : jsstring :=
  firstn (b - a) (skipn a s).

(** ** Character classes *)

Definition LF : N := 10.

(** ECMAScript LineTerminator: what [.] refuses. *)
Definition isLineTerminator (c : N) : bool :=
  (c =? 10) || (c =? 13) || (c =? 8232) || (c =? 8233).

(** ECMAScript [\s], which is also what [trim] strips: WhiteSpace and
    LineTerminator. *)
Definition isSpace (c : N) : bool :=
  (c =? 9) || (c =? 10) || (c =? 11) || (c =? 12) || (c =? 13) || (c =? 32)
  || (c =? 160) || (c =? 5760) || ((8192 <=? c) && (c <=? 8202))
  || (c =? 8232) || (c =? 8233) || (c =? 8239) || (c =? 8287)
  || (c =? 12288) || (c =? 65279).

(** [\d] *)
Definition isDigit (c : N) : bool := (48 <=? c) && (c <=? 57).

(** [[a-fA-F0-9]] *)
Definition isHexDigit (c : N) : bool :=
  isDigit c || ((97 <=? c) && (c <=? 102)) || ((65 <=? c) && (c <=? 70)).

(** [.] *)
Definition dot (c : N) : bool := negb (isLineTerminator c).

(** [[^...]] over a list of excluded code units. *)
Definition noneOf (l : list N) (c : N) : bool := negb (existsb (N.eqb c) l).

(** [[...]] over a list of code units. *)
Definition oneOf (l : list N) (c : N) : bool := existsb (N.eqb c) l.

(** ** trim, toLowerCase, split, join *)

Fixpoint trimStart (s : jsstring) : jsstring :=
  match s with
  | c :: r => if isSpace c then trimStart r else s
  | [] => []
  end.

Definition trimEnd (s : jsstring) : jsstring := rev (trimStart (rev s)).

Definition trim (s : jsstring) : jsstring := trimEnd (trimStart s).

(** [toLowerCase] on the letters A-Z; the other code units are kept.  The
    only use in the source asks whether the result starts with one of nine
    lower-case ASCII keywords, and no character outside A-Z has a lower case
    that such a keyword can start or go on with. *)
Definition lowerChar (c : N) : N :=
  if (65 <=? c) && (c <=? 90) then c + 32 else c.

Definition toLowerCase (s : jsstring) : jsstring := map lowerChar s.

(** [s.split(sep)] for a one-character separator: never the empty array. *)
Fixpoint split (sep : N) (s : jsstring) : list jsstring :=
  match s with
  | [] => [[]]
  | c :: r =>
      if c =? sep then [] :: split sep r
      else match split sep r with
           | h :: t => (c :: h) :: t
           | [] => [[c]]
           end
  end.

(** [a.join(sep)] *)
Fixpoint join (sep : jsstring) (l : list jsstring) : jsstring :=
  match l with
  | [] => []
  | [x] => x
  | x :: r => x ++ sep ++ join sep r
  end.

(** Truthiness of a string: non-empty. *)
Definition nonEmpty (s : jsstring) : bool :=
  match s with [] => false | _ => true end.

(** Truthiness of a possibly undefined string. *)
Definition truthy (o : option jsstring) : bool :=
  match o with Some s => nonEmpty s | None => false end.

(** [a || b] on possibly undefined strings. *)
Definition jsor (a b : option jsstring) : option jsstring :=
  if truthy a then a else b.

(** [a || d] with a string default. *)
Definition jsorD (a : option jsstring) (d : jsstring) : jsstring :=
  match a with
  | Some s => if nonEmpty s then s else d
  | None => d
  end.

(** ** Regular expressions

    The fragment the source uses: literal characters and strings, character
    classes, a bounded or unbounded repetition of one class (greedy or
    lazy), concatenation, the end anchor [$] (no [m] flag anywhere in the
    source) and capture groups.  A leading [^] is expressed by matching at
    the start only ([testStart], [replaceStart]). *)

Inductive re : Type :=
| Chr (c : N)
| Str (s : jsstring)
| Cls (f : N -> bool)
| Rep (f : N -> bool) (lo : nat) (hi : option nat) (lazy : bool)
| Cat (a b : re)
| Eos
| Grp (a : re).

Declare Scope re_scope.
Delimit Scope re_scope with re.
Infix "+>" := Cat (at level 60, right associativity) : re_scope.

(** Captures so far and the rest of the input. *)
Definition mstate : Type := (list jsstring * jsstring)%type.

(** [f{lo,hi}] then [k], longest first. *)
Fixpoint repGreedy (f : N -> bool) (lo : nat) (hi : option nat)
    (s : jsstring) (k : jsstring -> option mstate) {struct s} : option mstate :=
  let stop := match lo with O => k s | S _ => None end in
  let more := match hi with Some O => false | _ => true end in
  match s with
  | c :: r =>
      if more && f c then
        match repGreedy f (pred lo) (option_map pred hi) r k with
        | Some x => Some x
        | None => stop
        end
      else stop
  | [] => stop
  end.

(** [f{lo,hi}?] then [k], shortest first. *)
Fixpoint repLazy (f : N -> bool) (lo : nat) (hi : option nat)
    (s : jsstring) (k : jsstring -> option mstate) {struct s} : option mstate :=
  let stop := match lo with O => k s | S _ => None end in
  let more := match hi with Some O => false | _ => true end in
  match stop with
  | Some x => Some x
  | None =>
      match s with
      | c :: r =>
          if more && f c
          then repLazy f (pred lo) (option_map pred hi) r k
          else None
      | [] => None
      end
  end.

(** The backtracking matcher, in continuation-passing style: [k] is the rest
    of the pattern. *)
Fixpoint matchK (r : re) (caps : list jsstring) (s : jsstring)
    (k : list jsstring -> jsstring -> option mstate) : option mstate :=
  match r with
  | Chr c =>
      match s with
      | x :: t => if x =? c then k caps t else None
      | [] => None
      end
  | Str p => if startsWith p s then k caps (skipn (length p) s) else None
  | Cls f =>
      match s with
      | x :: t => if f x then k caps t else None
      | [] => None
      end
  | Rep f lo hi lazy =>
      if lazy then repLazy f lo hi s (k caps) else repGreedy f lo hi s (k caps)
  | Cat a b => matchK a caps s (fun caps' s' => matchK b caps' s' k)
  | Eos => match s with [] => k caps s | _ :: _ => None end
  | Grp a =>
      matchK a caps s
        (fun caps' s' =>
           k (caps' ++ [firstn (length s - length s') s]) s')
  end.

(** A match of [r] that starts at the head of [s]: the captures and what is
    left of [s] after the match. *)
Definition matchAt (r : re) (s : jsstring) : option mstate :=
  matchK r [] s (fun caps s' => Some (caps, s')).

(** [/^r/.test(s)] *)
Definition testStart (r : re) (s : jsstring) : bool :=
  match matchAt r s with Some _ => true | None => false end.

(** [/r/.test(s)]: a match starting anywhere. *)
Fixpoint test (r : re) (s : jsstring) : bool :=
  testStart r s ||
  match s with
  | [] => false
  | _ :: t => test r t
  end.

(** [$n] in a replacement, [match[n]] on a result. *)
Definition cap (n : nat) (caps : list jsstring) : jsstring :=
  nth (n - 1) caps [].

(** [s.replace(/^r/, f)] *)
Definition replaceStart (r : re) (f : list jsstring -> jsstring)
    (s : jsstring) : jsstring :=
  match matchAt r s with
  | Some (caps, rest) => f caps ++ rest
  | None => s
  end.

(** [s.replace(/r/g, f)]: left to right, the matches do not overlap.  [skip]
    counts the characters of the last match still to pass.  No pattern of
    the source matches the empty string. *)
Fixpoint replaceAllFrom (r : re) (f : list jsstring -> jsstring)
    (s : jsstring) (skip : nat) {struct s} : jsstring :=
  match skip with
  | S n =>
      match s with
      | [] => []
      | _ :: t => replaceAllFrom r f t n
      end
  | O =>
      match matchAt r s with
      | Some (caps, rest) =>
          f caps ++
          match s with
          | [] => []
          | _ :: t => replaceAllFrom r f t (length s - length rest - 1)
          end
      | None =>
          match s with
          | [] => []
          | c :: t => c :: replaceAllFrom r f t 0
          end
      end
  end.

Definition replaceAll (r : re) (f : list jsstring -> jsstring)
    (s : jsstring) : jsstring :=
  replaceAllFrom r f s 0.

(** One result of [regex.exec]: [index], [index + match[0].length], groups. *)
Record rmatch : Type := mkMatch {
  m_start : nat;
  m_end : nat;
  m_caps : list jsstring
}.

(** The loop [while ((match = regex.exec(text)) !== null)] of a [g] regex. *)
Fixpoint execAllFrom (r : re) (s : jsstring) (pos skip : nat) {struct s}
    : list rmatch :=
  match skip with
  | S n =>
      match s with
      | [] => []
      | _ :: t => execAllFrom r t (S pos) n
      end
  | O =>
      match matchAt r s with
      | Some (caps, rest) =>
          let n := (length s - length rest)%nat in
          mkMatch pos (pos + n) caps ::
          match s with
          | [] => []
          | _ :: t => execAllFrom r t (S pos) (n - 1)
          end
      | None =>
          match s with
          | [] => []
          | _ :: t => execAllFrom r t (S pos) 0
          end
      end
  end.

Definition execAll (r : re) (s : jsstring) : list rmatch :=
  execAllFrom r s 0 0.

(** ** Tokens *)

(** A table cell of the [marked] table token: an object with [text] (and
    possibly [content]), or a plain string. *)
Inductive Cell : Type :=
| CellObj (text content : option jsstring)
| CellStr (s : jsstring).

(** A token of the [marked] lexer ([type Token = any] in the source): the
    fields the parser reads, each possibly undefined. *)
#[local] Unset Elimination Schemes.
Inductive MToken : Type := mkMToken {
  m_type : jsstring;
  m_raw : option jsstring;
  m_text : option jsstring;
  m_lang : option jsstring;
  m_depth : option N;
  m_ordered : option bool;
  m_tokens : option (list MToken);
  m_items : option (list MToken);
  m_header : option (list Cell);
  m_rows : option (list (list Cell))
}.
#[local] Set Elimination Schemes.

(** [ParsedToken] of [src/types]: [type], [content] and the optional fields
    the parser sets. *)
Record ParsedToken : Type := mkParsed {
  p_type : jsstring;
  p_content : option jsstring;
  p_depth : option N;
  p_ordered : option bool;
  p_lang : option jsstring;
  p_incomplete : option bool;
  p_raw : option jsstring
}.

(** The object literal [{ type, raw, text }]. *)
Definition inlineTok (ty raw text : jsstring) : MToken :=
  mkMToken ty (Some raw) (Some text) None None None None None None None.

(** [{ ...token, type: ty, text: tx }] *)
Definition withTypeText (t : MToken) (ty : jsstring) (tx : option jsstring)
    : MToken :=
  mkMToken ty (m_raw t) tx (m_lang t) (m_depth t) (m_ordered t)
    (m_tokens t) (m_items t) (m_header t) (m_rows t).

(** [lastToken.incomplete = true] *)
Definition setIncomplete (t : ParsedToken) : ParsedToken :=
  mkParsed (p_type t) (p_content t) (p_depth t) (p_ordered t) (p_lang t)
    (Some true) (p_raw t).

(** The [provisional] flag of the specification. *)
Definition provisional (t : ParsedToken) : bool :=
  match p_incomplete t with Some true => true | _ => false end.

(** ** Results of code that may throw *)

Inductive outcome (A : Type) : Type :=
| Ok (a : A)
| Throw.
Arguments Ok {A} a.
Arguments Throw {A}.

Definition bind {A B : Type} (x : outcome A) (f : A -> outcome B)
    : outcome B :=
  match x with
  | Ok a => f a
  | Throw => Throw
  end.

(** [try { body } catch (error) { handler }] *)
Definition tryCatch {A : Type} (body handler : outcome A) : outcome A :=
  match body with
  | Ok a => Ok a
  | Throw => handler
  end.

Notation "x <- c1 ;; c2" := (bind c1 (fun x => c2))
  (at level 62, c1 at next level, right associativity).

(** ** The parser *)

(** The state of a [StreamingMarkdownParser] object. *)
Record Parser : Type := mkParser {
  buffer : jsstring;
  tokens : list ParsedToken;
  parseIncomplete : bool
}.

(** [new StreamingMarkdownParser(parseIncomplete)] *)
Definition newParser (parseIncomplete : bool) : Parser :=
  mkParser [] [] parseIncomplete.

Section StreamingMarkdownParser.

(** [marked.lexer]: the token list, or an exception. *)
Variable lexer : jsstring -> outcome (list MToken).

(** [String.fromCharCode(parseInt(digits, radix))] goes through a Number.
    Below 2^53 the Number is the integer itself; from there on it is the
    double the engine rounds to, and [double_charcode] is that double taken
    modulo 2^16. *)
Variable double_charcode : N -> N.

Definition digitVal (c : N) : N :=
  if isDigit c then c - 48
  else if (97 <=? c) && (c <=? 102) then c - 87
  else if (65 <=? c) && (c <=? 70) then c - 55
  else 0.

(** [parseInt(s, radix)] on a string of digits of that radix. *)
Definition parseInt (radix : N) (s : jsstring) : N :=
  fold_left (fun acc c => acc * radix + digitVal c) s 0.

(** [String.fromCharCode(v)] for the integer [v] that [parseInt] read. *)
Definition fromCharCode (v : N) : jsstring :=
  [if v <? 2 ^ 53 then v mod 65536 else double_charcode v mod 65536].

(** [processed.replace(/lit/g, rep)] *)
Definition replaceLit (lit rep : string) (s : jsstring) : jsstring :=
  replaceAll (Str (js lit)) (fun _ => js rep) s.

(** [/&#(\d+);/g] *)
Definition reDecimalRef : re :=
  (Str (js "&#") +> Grp (Rep isDigit 1 None false) +> Chr 59)%re.

(** [/&#x([a-fA-F0-9]+);/g] *)
Definition reHexRef : re :=
  (Str (js "&#x") +> Grp (Rep isHexDigit 1 None false) +> Chr 59)%re.

(** [/\{italic\}(.*?)\{\/italic\}/g] *)
Definition reItalicTag : re :=
  (Str (js "{italic}") +> Grp (Rep dot 0 None true) +> Str (js "{/italic}"))%re.

Definition preprocessText (text : jsstring) : jsstring :=
  let processed := text in
  let processed := replaceLit "&#39;" "'" processed in
  let processed := replaceAll (Str (js "&quot;")) (fun _ => [34]) processed in
  let processed := replaceLit "&amp;" "&" processed in
  let processed := replaceLit "&lt;" "<" processed in
  let processed := replaceLit "&gt;" ">" processed in
  let processed := replaceLit "&nbsp;" " " processed in
  let processed := replaceLit "&#x27;" "'" processed in
  let processed := replaceLit "&#x2F;" "/" processed in
  let processed := replaceLit "&#x60;" "`" processed in
  let processed :=
    replaceAll reDecimalRef
      (fun caps => fromCharCode (parseInt 10 (cap 1 caps))) processed in
  let processed :=
    replaceAll reHexRef
      (fun caps => fromCharCode (parseInt 16 (cap 1 caps))) processed in
  let processed :=
    replaceAll reItalicTag
      (fun caps => js "_" ++ cap 1 caps ++ js "_") processed in
  processed.

(** *** Diagram detection *)

Definition mermaidKeywords : list jsstring :=
  [js "graph"; js "flowchart"; js "sequenceDiagram"; js "classDiagram";
   js "stateDiagram"; js "journey"; js "gantt"; js "pie"; js "gitgraph"].

Definition looksLikeMermaidCode (code : option jsstring) : bool :=
  if negb (truthy code) then false
  else
    let trimmed := toLowerCase (trim (jsorD code [])) in
    existsb (fun keyword => startsWith (toLowerCase keyword) trimmed)
      mermaidKeywords.

Definition isType (ty : string) (t : MToken) : bool :=
  jseqb (m_type t) (js ty).

Definition langIs (l : string) (t : MToken) : bool :=
  match m_lang t with
  | Some x => jseqb x (js l)
  | None => false
  end.

(** The loop body of [processTokensWithDiagramDetection]. *)
Definition detectDiagram (token : MToken) : MToken :=
  if isType "code" token && langIs "mermaid" token then
    withTypeText token (js "mermaid") (jsor (m_text token) (m_raw token))
  else if isType "code" token
          && looksLikeMermaidCode (jsor (m_text token) (m_raw token)) then
    withTypeText token (js "mermaid") (jsor (m_text token) (m_raw token))
  else token.

(** *** The table in canonical pipe form *)

(** [cell.text || cell.content || String(cell)] *)
Definition cellString (cell : Cell) : jsstring :=
  match cell with
  | CellObj text content =>
      jsorD (jsor text content) (js "[object Object]")
  | CellStr s => s
  end.

(** ['| ' + cells.join(' | ') + ' |'] *)
Definition pipeLine (cells : list jsstring) : jsstring :=
  js "| " ++ join (js " | ") cells ++ js " |".

(** No operation of the [try] block throws on the tokens modelled here
    (cells are objects or strings, rows are arrays), so its [catch] is not
    reached. *)
Definition convertTableTokenToMarkdown (token : MToken) : jsstring :=
  match m_header token, m_rows token with
  | Some header, Some rows =>
      let headerCells := map cellString header in
      let separatorCells := map (fun _ => js "---") headerCells in
      let lines :=
        [pipeLine headerCells; pipeLine separatorCells]
        ++ map (fun row => pipeLine (map cellString row)) rows in
      join [LF] lines
  | _, _ => jsorD (m_raw token) (js "[Invalid Table]")
  end.

(** *** Inline formatting from raw text *)

(** [/OPEN([^c]+)CLOSE/g] *)
Definition reDelimited (open : string) (c : N) (close : string) : re :=
  (Str (js open) +> Grp (Rep (noneOf [c]) 1 None false) +> Str (js close))%re.

(** [/\[([^\]]+)\]\(([^)]+)\)/g] *)
Definition reLink : re :=
  (Chr 91 +> Grp (Rep (noneOf [93]) 1 None false) +> Str (js "](") +>
   Grp (Rep (noneOf [41]) 1 None false) +> Chr 41)%re.

Definition inlinePatterns : list (re * jsstring) :=
  [ (reDelimited "**" 42 "**", js "strong");
    (reDelimited "__" 95 "__", js "strong");
    (reDelimited "*" 42 "*", js "em");
    (reDelimited "_" 95 "_", js "em");
    (reDelimited "`" 96 "`", js "codespan");
    (reLink, js "link");
    (reDelimited "~~" 126 "~~", js "del") ].

(** An entry of [matches]. *)
Record imatch : Type := mkIMatch {
  i_type : jsstring;
  i_content : jsstring;
  i_start : nat;
  i_end : nat
}.

Definition matchesOf (text : jsstring) (pattern : re * jsstring)
    : list imatch :=
  map (fun m =>
         mkIMatch (snd pattern)
           (jsorD (Some (cap 1 (m_caps m)))
              (slice (m_start m) (m_end m) text))
           (m_start m) (m_end m))
      (execAll (fst pattern) text).

Fixpoint insertByStart (m : imatch) (l : list imatch) : list imatch :=
  match l with
  | [] => [m]
  | x :: r =>
      if (i_start m <? i_start x)%nat then m :: l
      else x :: insertByStart m r
  end.

(** [matches.sort((a, b) => a.start - b.start)]; the sort is stable. *)
Definition sortByStart (l : list imatch) : list imatch :=
  fold_left (fun acc m => insertByStart m acc) l [].

Definition textTok (textContent : jsstring) : list MToken :=
  if nonEmpty (trim textContent)
  then [inlineTok (js "text") textContent textContent]
  else [].

Definition parseInlineFromText (text : jsstring) : list MToken :=
  let matches := sortByStart (flat_map (matchesOf text) inlinePatterns) in
  let '(toks, lastEnd) :=
    fold_left
      (fun (st : list MToken * nat) (m : imatch) =>
         let '(toks, lastEnd) := st in
         let before :=
           if (lastEnd <? i_start m)%nat
           then textTok (slice lastEnd (i_start m) text)
           else [] in
         (toks ++ before
            ++ [inlineTok (i_type m) (slice (i_start m) (i_end m) text)
                  (i_content m)],
          i_end m))
      matches ([], O) in
  if (lastEnd <? length text)%nat
  then toks ++ textTok (skipn lastEnd text)
  else toks.

(** *** Flattening *)

Definition isInlineLeaf (ty : jsstring) : bool :=
  jseqb ty (js "em") || jseqb ty (js "strong") || jseqb ty (js "codespan")
  || jseqb ty (js "link") || jseqb ty (js "del") || jseqb ty (js "text").

(** The loop body of [flattenInlineTokens]. *)
Fixpoint flattenInlineToken (token : MToken) : list MToken :=
  match token with
  | mkMToken ty _ _ _ _ _ toks _ _ _ =>
      if isInlineLeaf ty then [token]
      else match toks with
           | Some ((_ :: _) as children) =>
               flat_map flattenInlineToken children
           | _ => [token]
           end
  end.

Definition flattenInlineTokens (l : list MToken) : list MToken :=
  flat_map flattenInlineToken l.

(** The loop body of [processInlineTokens]. *)
Fixpoint processInlineToken (token : MToken) : list MToken :=
  match token with
  | mkMToken ty raw text _ _ _ toks _ _ _ =>
      if jseqb ty (js "paragraph") then
        match toks with
        | Some ((_ :: _) as children) => flattenInlineTokens children
        | _ =>
            match parseInlineFromText (jsorD (jsor text raw) []) with
            | [] => [token]
            | inlineTokens => inlineTokens
            end
        end
      else if jseqb ty (js "blockquote") then
        match toks with
        | Some ((_ :: _) as children) => flat_map processInlineToken children
        | _ => [token]
        end
      else [token]
  end.

Definition processInlineTokens (l : list MToken) : list MToken :=
  flat_map processInlineToken l.

Definition processTokensWithDiagramDetection (l : list MToken)
    : list MToken :=
  processInlineTokens (map detectDiagram l).

(** *** Conversion to [ParsedToken] *)

(** [{ type, content, raw }] *)
Definition plain (ty : string) (content raw : option jsstring)
    : ParsedToken :=
  mkParsed (js ty) content None None None None raw.

(** [convertToken] returns a token, an array of tokens or [null];
    [convertTokens] pushes the first, spreads the second and skips the
    third, so the three are modelled by the list that ends up pushed.  The
    [blockquote] case throws a TypeError when [tokens] is undefined, the
    [list] case when [items] is. *)
Fixpoint convertToken (token : MToken) : outcome (list ParsedToken) :=
  match token with
  | mkMToken ty raw text lang depth ordered toks items header rows =>
      let case (s : string) := jseqb ty (js s) in
      if case "heading" then
        Ok [mkParsed (js "heading") text depth None None None raw]
      else if case "paragraph" then Ok [plain "paragraph" text raw]
      else if case "strong" then Ok [plain "strong" text raw]
      else if case "em" then Ok [plain "em" text raw]
      else if case "codespan" then Ok [plain "code" text raw]
      else if case "link" then Ok [plain "link" text raw]
      else if case "del" then Ok [plain "del" text raw]
      else if case "text" then Ok [plain "text" text raw]
      else if case "code" then
        Ok [mkParsed (js "codeblock") text None None
              (Some (jsorD lang (js "text"))) None raw]
      else if case "mermaid" then Ok [plain "mermaid" (jsor text raw) raw]
      else if case "blockquote" then
        match toks with
        | None => Throw
        | Some children =>
            (fix each (l : list MToken) : outcome (list ParsedToken) :=
               match l with
               | [] => Ok []
               | t :: r =>
                   a <- convertToken t ;;
                   b <- each r ;;
                   Ok (a ++ b)
               end) children
        end
      else if case "list" then
        match items with
        | None => Throw
        | Some its =>
            Ok (map (fun item =>
                       mkParsed (js "listitem") (m_text item) (Some 0)
                         ordered None None (m_raw item))
                    its)
        end
      else if case "hr" then Ok [plain "hr" (Some []) raw]
      else if case "table" then
        Ok [plain "table" (Some (convertTableTokenToMarkdown token)) raw]
      else if case "space" then Ok []
      else Ok [plain "text" (Some (jsorD (jsor text raw) [])) raw]
  end.

Fixpoint convertTokens (markedTokens : list MToken)
    : outcome (list ParsedToken) :=
  match markedTokens with
  | [] => Ok []
  | token :: r =>
      converted <- convertToken token ;;
      rest <- convertTokens r ;;
      Ok (converted ++ rest)
  end.

(** *** The fallback line parser *)

(** The class of one code unit. *)
Definition only (c : N) : N -> bool := fun x => x =? c.

(** [/^#{1,6}\s/] *)
Definition reHeadingPrefix : re :=
  (Rep (only 35) 1 (Some 6%nat) false +> Cls isSpace)%re.

(** [/^(#{1,6})/] *)
Definition reHashes : re := Grp (Rep (only 35) 1 (Some 6%nat) false).

(** [/^>\s*/] *)
Definition reQuotePrefix : re := (Chr 62 +> Rep isSpace 0 None false)%re.

(** [/^[-*+]\s/] *)
Definition reBullet : re := (Cls (oneOf [45; 42; 43]) +> Cls isSpace)%re.

(** [/^\d+\.\s/] *)
Definition reNumbered : re :=
  (Rep isDigit 1 None false +> Chr 46 +> Cls isSpace)%re.

(** [/^\d+\./] *)
Definition reNumber : re := (Rep isDigit 1 None false +> Chr 46)%re.

(** [/^[-*+\d.]\s*/] *)
Definition reItemPrefix : re :=
  (Cls (fun c => oneOf [45; 42; 43; 46] c || isDigit c)
   +> Rep isSpace 0 None false)%re.

(** [/\*\*[^*\n]{1,100}$/] *)
Definition reOpenStrong : re :=
  (Str (js "**") +> Rep (noneOf [42; 10]) 1 (Some 100%nat) false +> Eos)%re.

(** [/\*[^*\n]{1,100}$/] *)
Definition reOpenEm : re :=
  (Chr 42 +> Rep (noneOf [42; 10]) 1 (Some 100%nat) false +> Eos)%re.

(** [/`[^`\n]{1,500}$/] *)
Definition reOpenCode : re :=
  (Chr 96 +> Rep (noneOf [96; 10]) 1 (Some 500%nat) false +> Eos)%re.

(** [/\[[^\]\n]{1,200}$/] *)
Definition reOpenLink : re :=
  (Chr 91 +> Rep (noneOf [93; 10]) 1 (Some 200%nat) false +> Eos)%re.

(** [/^#{1,6}\s[^\n]{1,200}$/] *)
Definition reOpenHeading : re :=
  (Rep (only 35) 1 (Some 6%nat) false +> Cls isSpace
   +> Rep (noneOf [10]) 1 (Some 200%nat) false +> Eos)%re.

(** [s.replace(p, rep)] with a string pattern: the first occurrence. *)
Fixpoint replaceFirst (p rep s : jsstring) : jsstring :=
  if startsWith p s then rep ++ skipn (length p) s
  else match s with
       | [] => []
       | c :: r => c :: replaceFirst p rep r
       end.

Definition parseInlineFormatting (text : jsstring) : ParsedToken :=
  let content := text in
  let incomplete :=
    test reOpenStrong text || test reOpenEm text || test reOpenCode text in
  mkParsed (js "text") (Some content) None None None (Some incomplete) None.

Definition parseIncompleteLine (line : jsstring) : ParsedToken :=
  if testStart reHeadingPrefix line then
    let depth :=
      match matchAt reHashes line with
      | Some (caps, _) =>
          match length (cap 1 caps) with
          | O => 1
          | n => N.of_nat n
          end
      | None => 1
      end in
    mkParsed (js "heading")
      (Some (replaceStart reHeadingPrefix (fun _ => []) line))
      (Some depth) None None (Some (negb (includes LF line))) None
  else if startsWith (js "```") line then
    let lang := trim (replaceFirst (js "```") [] line) in
    mkParsed (js "codeblock") (Some []) None None
      (Some (jsorD (Some lang) (js "text"))) (Some true) None
  else if startsWith (js ">") line then
    mkParsed (js "blockquote")
      (Some (replaceStart reQuotePrefix (fun _ => []) line))
      None None None (Some (negb (includes LF line))) None
  else if testStart reBullet line || testStart reNumbered line then
    let ordered := testStart reNumber line in
    mkParsed (js "listitem")
      (Some (replaceStart reItemPrefix (fun _ => []) line))
      None (Some ordered) None (Some (negb (includes LF line))) None
  else parseInlineFormatting line.

Definition parsePartial (buf : jsstring) : list ParsedToken :=
  map parseIncompleteLine
    (filter (fun line => nonEmpty (trim line)) (split LF buf)).

(** *** Incomplete markdown at the end of the buffer *)

(** The patterns of [handleIncompleteMarkdown]; the flag says whether the
    pattern starts with [^]. *)
Definition incompletePatterns : list (bool * re) :=
  [ (false, reOpenStrong); (false, reOpenEm); (false, reOpenCode);
    (false, reOpenLink); (true, reOpenHeading) ].

Definition patternTest (pattern : bool * re) (s : jsstring) : bool :=
  if fst pattern then testStart (snd pattern) s else test (snd pattern) s.

(** The loop over the patterns, on the last token. *)
Definition markLast (buf : jsstring) (lastToken : ParsedToken)
    : ParsedToken :=
  fold_left
    (fun lastToken pattern =>
       if patternTest pattern buf then
         if truthy (p_content lastToken) then setIncomplete lastToken
         else lastToken
       else lastToken)
    incompletePatterns lastToken.

(** [handleIncompleteMarkdown] works on [this.tokens] in place: the last
    element is the only one it touches. *)
Definition handleIncompleteMarkdown (toks : list ParsedToken)
    (buf : jsstring) : list ParsedToken :=
  match rev toks with
  | [] => toks
  | lastToken :: before => rev before ++ [markLast buf lastToken]
  end.

(** *** The public methods *)

(** The [try] block of [parse]: the tokens it stores in [this.tokens] and
    returns. *)
Definition parsePrimary (p : Parser) : outcome (list ParsedToken) :=
  markedTokens <- lexer (buffer p) ;;
  let processedTokens := processTokensWithDiagramDetection markedTokens in
  toks <- convertTokens processedTokens ;;
  Ok (if parseIncomplete p
      then handleIncompleteMarkdown toks (buffer p)
      else toks).

Definition parse (p : Parser) : outcome (Parser * list ParsedToken) :=
  tryCatch
    (toks <- parsePrimary p ;;
     Ok (mkParser (buffer p) toks (parseIncomplete p), toks))
    (Ok (p, parsePartial (buffer p))).

Definition addChunk (p : Parser) (chunk : jsstring)
    : outcome (Parser * list ParsedToken) :=
  let processedChunk := preprocessText chunk in
  parse (mkParser (buffer p ++ processedChunk) (tokens p) (parseIncomplete p)).

Definition clear (p : Parser) : Parser :=
  mkParser [] [] (parseIncomplete p).

Definition getBuffer (p : Parser) : jsstring := buffer p.

Definition getTokens (p : Parser) : list ParsedToken := tokens p.

(** *** Sessions and the phases of [preprocessText] *)

(** The parser object just before [this.parse()] in [addChunk]. *)
Definition withChunk (p : Parser) (chunk : jsstring) : Parser :=
  mkParser (buffer p ++ preprocessText chunk) (tokens p)
    (parseIncomplete p).

(** A session: the chunks fed one after the other, and what each call
    returned. *)
Fixpoint addChunks (p : Parser) (chunks : list jsstring)
    : outcome (Parser * list (list ParsedToken)) :=
  match chunks with
  | [] => Ok (p, [])
  | chunk :: r =>
      step <- addChunk p chunk ;;
      rest <- addChunks (fst step) r ;;
      Ok (fst rest, snd step :: snd rest)
  end.

(** The last three replacements of [preprocessText]. *)
Definition decodeDecimal (s : jsstring) : jsstring :=
  replaceAll reDecimalRef
    (fun caps => fromCharCode (parseInt 10 (cap 1 caps))) s.

Definition decodeHex (s : jsstring) : jsstring :=
  replaceAll reHexRef
    (fun caps => fromCharCode (parseInt 16 (cap 1 caps))) s.

Definition italicTags (s : jsstring) : jsstring :=
  replaceAll reItalicTag (fun caps => js "_" ++ cap 1 caps ++ js "_") s.

End StreamingMarkdownParser.

(** ** [EnhancedTableRenderer.parseMarkdownTable] *)

Record TableData : Type := mkTableData {
  headers : list jsstring;
  rows : list (list jsstring)
}.

(** [/D(.*?)D/g] *)
Definition reLazyDelimited (d : string) : re :=
  (Str (js d) +> Grp (Rep dot 0 None true) +> Str (js d))%re.

(** [.replace(/D(.*?)D/g, '$1')] *)
Definition unwrap (d : string) (s : jsstring) : jsstring :=
  replaceAll (reLazyDelimited d) (cap 1) s.

(** [line.split('|').map(cell => cell.trim())] and the removal of an empty
    first and an empty last cell. *)
Definition splitCells (line : jsstring) : list jsstring :=
  let cells := map trim (split 124 line) in
  let cells :=
    match cells with
    | c :: r => if jseqb c [] then r else cells
    | [] => cells
    end in
  match rev cells with
  | c :: r => if jseqb c [] then rev r else cells
  | [] => cells
  end.

Definition cleanHeader (header : jsstring) : jsstring :=
  trim (unwrap "`" (unwrap "*" (unwrap "**" header))).

Definition cleanCell (cell : jsstring) : jsstring :=
  trim (unwrap "~~" (unwrap "`" (unwrap "*" (unwrap "**" cell)))).

(** [markdown.trim().split('\n').filter(line => line.trim())] *)
Definition tableLines (markdown : jsstring) : list jsstring :=
  filter (fun line => nonEmpty (trim line)) (split LF (trim markdown)).

Definition parseMarkdownTable (markdown : jsstring) : option TableData :=
  let lines := tableLines markdown in
  if (length lines <? 3)%nat then None
  else
    let headerLine := nth 0 lines [] in
    let headers := map cleanHeader (splitCells headerLine) in
    if (length headers =? 0)%nat then None
    else
      let dataLines := skipn 2 lines in
      let rows :=
        fold_left
          (fun rows line =>
             let cells := map cleanCell (splitCells line) in
             if (length cells =? length headers)%nat
             then rows ++ [cells]
             else rows)
          dataLines [] in
      if (length rows =? 0)%nat then None
      else Some (mkTableData headers rows).

(** ** [EnhancedTableRenderer]: table detection and the fallback table *)

(** [lines[i]?.split(sep).length || 0] *)
Definition columnsOf (sep : N) (lines : list jsstring) (i : nat) : nat :=
  match nth_error lines i with
  | Some line => length (split sep line)
  | None => O
  end.

Definition isTableData (content : jsstring) : bool :=
  let lines := split LF (trim content) in
  if existsb (fun line => includes 124 line) lines then true
  else if (1 <? length lines)%nat then
    let separators := [44; 9; 59] in
    existsb
      (fun sep =>
         let firstLineCols := columnsOf sep lines 0 in
         let secondLineCols := columnsOf sep lines 1 in
         (1 <? firstLineCols)%nat && (firstLineCols =? secondLineCols)%nat)
      separators
  else false.

(** [table.replace(/c/g, 'd')] for characters [c] and [d]. *)
Definition replaceChar (c d : N) (s : jsstring) : jsstring :=
  replaceAll (Str [c]) (fun _ => [d]) s.

Definition convertToRoundedCorners (table : jsstring) : jsstring :=
  replaceChar 9532 9532
    (replaceChar 9524 9524
       (replaceChar 9516 9516
          (replaceChar 9508 9508
             (replaceChar 9500 9500
                (replaceChar 9496 9583
                   (replaceChar 9492 9584
                      (replaceChar 9488 9582
                         (replaceChar 9484 9581 table)))))))).

(** [array.map((x, index) => f(index, x))] *)
Fixpoint mapiFrom {A B : Type} (f : nat -> A -> B) (i : nat) (l : list A)
    : list B :=
  match l with
  | [] => []
  | x :: r => f i x :: mapiFrom f (S i) r
  end.

Definition mapi {A B : Type} (f : nat -> A -> B) (l : list A) : list B :=
  mapiFrom f 0 l.

(** [Math.max(...l)]: the maximum of no number is [-Infinity], here
    [None]. *)
Definition maxOf (l : list nat) : option nat :=
  match l with
  | [] => None
  | x :: r => Some (fold_left Nat.max r x)
  end.

(** [Math.max(a, m, c)] where [m] may be [-Infinity]. *)
Definition max3 (a : nat) (m : option nat) (c : nat) : nat :=
  match m with
  | Some m => Nat.max a (Nat.max m c)
  | None => Nat.max a c
  end.

(** [row[index] || ''] *)
Definition cellAt (row : list jsstring) (index : nat) : jsstring :=
  nth index row [].

(** [s.padEnd(n)]; an undefined [n] pads nothing. *)
Definition padEnd (s : jsstring) (n : option nat) : jsstring :=
  match n with
  | Some n => s ++ repeat 32 (n - length s)
  | None => s
  end.

(** [s.repeat(n)]: a RangeError when [n] is negative. *)
Definition repeatStr (s : jsstring) (n : Z) : outcome jsstring :=
  if (n <? 0)%Z then Throw else Ok (concat (repeat s (Z.to_nat n))).

(** The column widths of [renderFallbackTable]. *)
Definition fallbackWidths (data : TableData) : list nat :=
  mapi
    (fun index header =>
       let maxDataWidth :=
         maxOf (map (fun row => length (cellAt row index)) (rows data)) in
       max3 (length header) maxDataWidth 5)
    (headers data).

(** ['│ ' + cells.join(' │ ') + ' │'] *)
Definition boxLine (cells : list jsstring) : jsstring :=
  [9474; 32] ++ join [32; 9474; 32] cells ++ [32; 9474].

Definition renderFallbackTable (data : TableData) : outcome jsstring :=
  let colWidths := fallbackWidths data in
  let totalWidth :=
    (Z.of_nat (fold_left Nat.add colWidths O)
     + (Z.of_nat (length colWidths) - 1) * 3 + 4)%Z in
  topFill <- repeatStr [9472] (totalWidth - 2) ;;
  let topBorder := [9581] ++ topFill ++ [9582] in
  let headerCells :=
    mapi (fun index header => padEnd header (nth_error colWidths index))
      (headers data) in
  let headerLine := boxLine headerCells in
  let separatorCells := map (fun width => repeat 9472 width) colWidths in
  let separatorLine :=
    [9500; 9472] ++ join [9472; 9532; 9472] separatorCells
    ++ [9472; 9508] in
  let rowLines :=
    map (fun row =>
           boxLine
             (mapi (fun index cell =>
                      padEnd cell (nth_error colWidths index))
                row))
        (rows data) in
  bottomFill <- repeatStr [9472] (totalWidth - 2) ;;
  let bottomBorder := [9584] ++ bottomFill ++ [9583] in
  Ok (join [LF]
        ([topBorder; headerLine; separatorLine] ++ rowLines
         ++ [bottomBorder])).

(** ** The formatting utilities *)

Module Formatting.

(** The keys of [colors]. *)
Inductive Color : Type :=
| black | red | green | yellow | blue | magenta | cyan | white | gray
| brightRed | brightGreen | brightYellow | brightBlue | brightMagenta
| brightCyan | brightWhite
| bgBlack | bgRed | bgGreen | bgYellow | bgBlue | bgMagenta | bgCyan
| bgWhite
| reset | bold | dim | italic | underline | inverse | hidden
| strikethrough.

(** ['\x1b[' + n + 'm'] *)
Definition sgr (n : string) : jsstring := [27; 91] ++ js n ++ [109].

Definition colors (c : Color) : jsstring :=
  match c with
  | black => sgr "30" | red => sgr "31" | green => sgr "32"
  | yellow => sgr "33" | blue => sgr "34" | magenta => sgr "35"
  | cyan => sgr "36" | white => sgr "37" | gray => sgr "90"
  | brightRed => sgr "91" | brightGreen => sgr "92"
  | brightYellow => sgr "93" | brightBlue => sgr "94"
  | brightMagenta => sgr "95" | brightCyan => sgr "96"
  | brightWhite => sgr "97"
  | bgBlack => sgr "40" | bgRed => sgr "41" | bgGreen => sgr "42"
  | bgYellow => sgr "43" | bgBlue => sgr "44" | bgMagenta => sgr "45"
  | bgCyan => sgr "46" | bgWhite => sgr "47"
  | reset => sgr "0" | bold => sgr "1" | dim => sgr "2"
  | italic => sgr "3" | underline => sgr "4" | inverse => sgr "7"
  | hidden => sgr "8" | strikethrough => sgr "9"
  end.

Definition colorize (text : jsstring) (color : Color) : jsstring :=
  colors color ++ text ++ colors reset.

Definition style (text : jsstring) (styles : list Color) : jsstring :=
  let prefix := join [] (map colors styles) in
  prefix ++ text ++ colors reset.

(** [[0-9;]] *)
Definition isParam (c : N) : bool := isDigit c || (c =? 59).

(** [/\x1b\[[0-9;]*m/g] *)
Definition reAnsi : re :=
  (Chr 27 +> Chr 91 +> Rep isParam 0 None false +> Chr 109)%re.

Definition stripAnsi (text : jsstring) : jsstring :=
  replaceAll reAnsi (fun _ => []) text.

Definition visualLength (text : jsstring) : nat :=
  length (stripAnsi text).

Inductive Align : Type := left | center | right.

(** [width] is an integer. *)
Definition pad (text : jsstring) (width : Z) (align : Align) : jsstring :=
  let len := visualLength text in
  let padding := Z.max 0 (width - Z.of_nat len) in
  match align with
  | left => text ++ repeat 32 (Z.to_nat padding)
  | right => repeat 32 (Z.to_nat padding) ++ text
  | center =>
      let leftPad := (padding / 2)%Z in
      let rightPad := (padding - leftPad)%Z in
      repeat 32 (Z.to_nat leftPad) ++ text ++ repeat 32 (Z.to_nat rightPad)
  end.

(** [s.slice(0, e)]: a negative [e] counts from the end. *)
Definition sliceTo (s : jsstring) (e : Z) : jsstring :=
  if (e <? 0)%Z
  then firstn (Z.to_nat (Z.max (Z.of_nat (length s) + e) 0)) s
  else firstn (Z.to_nat e) s.

Definition truncate (text : jsstring) (width : Z) (ellipsis : jsstring)
    : jsstring :=
  let len := visualLength text in
  if (Z.of_nat len <=? width)%Z then text
  else
    let stripped := stripAnsi text in
    let truncated := sliceTo stripped (width - Z.of_nat (length ellipsis)) in
    truncated ++ ellipsis.

(** [/\s+/] *)
Definition reSpaces : re := Rep isSpace 1 None false.

(** [s.split(/r/)] for a pattern that does not match the empty string:
    [piece] is the text since the last match, [skip] counts the characters
    of the last match still to pass. *)
Fixpoint splitFrom (r : re) (s piece : jsstring) (skip : nat) {struct s}
    : list jsstring :=
  match s with
  | [] => [piece]
  | c :: t =>
      match skip with
      | S n => splitFrom r t piece n
      | O =>
          match matchAt r s with
          | Some (_, rest) =>
              match (length s - length rest)%nat with
              | O => splitFrom r t (piece ++ [c]) 0
              | S n => piece :: splitFrom r t [] n
              end
          | None => splitFrom r t (piece ++ [c]) 0
          end
      end
  end.

Definition splitRegex (r : re) (s : jsstring) : list jsstring :=
  splitFrom r s [] 0.

(** The loop body of [wordWrap]. *)
Definition wrapStep (width : Z) (st : list jsstring * jsstring)
    (word : jsstring) : list jsstring * jsstring :=
  let '(lines, currentLine) := st in
  let testLine :=
    if nonEmpty currentLine then currentLine ++ [32] ++ word else word in
  let testLength := visualLength testLine in
  if (Z.of_nat testLength <=? width)%Z then (lines, testLine)
  else
    ((if nonEmpty currentLine then lines ++ [currentLine] else lines), word).

Definition wordWrap (text : jsstring) (width : Z) : list jsstring :=
  let words := splitRegex reSpaces text in
  let '(lines, currentLine) := fold_left (wrapStep width) words ([], []) in
  if nonEmpty currentLine then lines ++ [currentLine] else lines.

Definition indent (text : jsstring) (spaces : Z) : outcome jsstring :=
  indentation <- repeatStr [32] spaces ;;
  Ok (join [LF] (map (fun line => indentation ++ line) (split LF text))).

(** [borderColor ? colorize(s, borderColor) : s] *)
Definition paint (borderColor : option Color) (s : jsstring) : jsstring :=
  match borderColor with
  | Some color => colorize s color
  | None => s
  end.

(** A loop that pushes [f x] for every [x], until one throws. *)
Fixpoint forEach {A B : Type} (f : A -> outcome B) (l : list A)
    : outcome (list B) :=
  match l with
  | [] => Ok []
  | x :: r =>
      y <- f x ;;
      ys <- forEach f r ;;
      Ok (y :: ys)
  end.

(** [width] and [padding] are integers.  Without a line [maxLineLength] and
    [boxWidth] are [-Infinity], and ['─'.repeat(boxWidth - 2)] of the
    bottom border is a RangeError. *)
Definition box (text : jsstring) (width padding : Z)
    (title : option jsstring) (borderColor : option Color)
    : outcome jsstring :=
  let lines := wordWrap text (width - padding * 2 - 2) in
  match maxOf (map visualLength lines) with
  | None => Throw
  | Some maxLineLength =>
      let boxWidth :=
        Z.min width (Z.of_nat maxLineLength + padding * 2 + 2) in
      topBorder <-
        (if truthy title then
           let title := jsorD title [] in
           fill <-
             repeatStr [9472]
               (Z.max 0 (boxWidth - Z.of_nat (length title) - 5)) ;;
           Ok ([9484; 9472; 32] ++ title ++ [32] ++ fill ++ [9488])
         else
           fill <- repeatStr [9472] (boxWidth - 2) ;;
           Ok ([9484] ++ fill ++ [9488])) ;;
      bottomFill <- repeatStr [9472] (boxWidth - 2) ;;
      let bottomBorder := [9492] ++ bottomFill ++ [9496] in
      boxLines <-
        forEach
          (fun line =>
             let paddedLine := pad line (boxWidth - padding * 2 - 2) left in
             space <- repeatStr [32] padding ;;
             let boxLine :=
               [9474] ++ space ++ paddedLine ++ space ++ [9474] in
             Ok (paint borderColor boxLine))
          lines ;;
      Ok (join [LF]
            ([paint borderColor topBorder] ++ boxLines
             ++ [paint borderColor bottomBorder]))
  end.

End Formatting.

(** ** Induction on [marked] tokens, through their [tokens] children *)

Section MToken_induction.

Variable P : MToken -> Prop.

Hypothesis step :
  forall ty raw text lang depth ordered toks items header rows,
    match toks with
    | Some children => Forall P children
    | None => True
    end ->
    P (mkMToken ty raw text lang depth ordered toks items header rows).

Fixpoint MToken_children_ind (t : MToken) : P t :=
  match t with
  | mkMToken ty raw text lang depth ordered toks items header rows =>
      step ty raw text lang depth ordered toks items header rows
        (match toks
           return match toks with
                  | Some children => Forall P children
                  | None => True
                  end
         with
         | Some children =>
             (fix all (l : list MToken) : Forall P l :=
                match l with
                | [] => Forall_nil P
                | x :: r => Forall_cons x (MToken_children_ind x) (all r)
                end) children
         | None => I
         end)
  end.

End MToken_induction.

(** ** Predicates of the statements *)

(** What every token of the primary path satisfies before
    [handleIncompleteMarkdown] runs. *)
Definition fresh (q : ParsedToken) : Prop :=
  p_type q <> js "blockquote" /\ p_incomplete q = None.

(** The specification's invariant: a provisional token is the last one. *)
Definition provisionalOnlyLast (toks : list ParsedToken) : Prop :=
  forall i t,
    nth_error toks i = Some t -> provisional t = true ->
    S i = length toks.

(** [j] repetitions are allowed by the upper bound [hi]. *)
Definition within (hi : option nat) (j : nat) : Prop :=
  match hi with
  | Some h => (j <= h)%nat
  | None => True
  end.

(** A cell between its two spaces. *)
Definition pad (c : jsstring) : jsstring := 32 :: c ++ [32].

(** A string between two pipes. *)
Definition wrapped (s : jsstring) : Prop :=
  exists m, s = 124 :: m ++ [124].

(** The [marked] token of a table. *)
Definition tableToken (raw : option jsstring) (header : list Cell)
    (body : list (list Cell)) : MToken :=
  mkMToken (js "table") raw None None None None None None (Some header)
    (Some body).

(** The canonical pipe form: header line, separator line, one line per
    row. *)
Definition canonicalTable (header : list Cell) (body : list (list Cell))
    : jsstring :=
  join [LF]
    (pipeLine (map cellString header)
     :: pipeLine (map (fun _ => js "---") (map cellString header))
     :: map (fun row => pipeLine (map cellString row)) body).

(** The round trip of the specification: the table token becomes one
    [table] token with the canonical content, and that content read back
    has as many headers and as many rows. *)
Definition tableRoundTrip (raw : option jsstring) (header : list Cell)
    (body : list (list Cell)) : Prop :=
  convertToken (tableToken raw header body)
  = Ok [plain "table" (Some (canonicalTable header body)) raw] /\
  exists td,
    parseMarkdownTable (canonicalTable header body) = Some td /\
    length (headers td) = length header /\
    length (rows td) = length body.

(** A cell whose text has no pipe and no newline. *)
Definition plainCell (cell : Cell) : Prop :=
  includes 124 (cellString cell) = false /\
  includes LF (cellString cell) = false.

(** Every match of [r] starts with the character [c]. *)
Definition headed (r : re) (c : N) : Prop :=
  forall s x, matchAt r s = Some x -> exists t, s = c :: t.

(** The literal entities of [preprocessText], in its order. *)
Definition namedEntities : list jsstring :=
  [js "&#39;"; js "&quot;"; js "&amp;"; js "&lt;"; js "&gt;"; js "&nbsp;";
   js "&#x27;"; js "&#x2F;"; js "&#x60;"].

(** A text without [&] and without [{]. *)
Definition clean (s : jsstring) : Prop :=
  includes 38 s = false /\ includes 123 s = false.

(** ** Predicates of the further properties *)

(** [{ ...token, incomplete: undefined }] *)
Definition unflagged (t : ParsedToken) : ParsedToken :=
  mkParsed (p_type t) (p_content t) (p_depth t) (p_ordered t) (p_lang t)
    None (p_raw t).

(** A token without children: [tokens] is undefined or empty. *)
Definition childless (t : MToken) : Prop :=
  m_tokens t = None \/ m_tokens t = Some [].

(** A token that [flattenInlineTokens] keeps as it is. *)
Definition flat (t : MToken) : Prop :=
  isInlineLeaf (m_type t) = true \/ childless t.

(** The tokens whose conversion reads no undefined array: a blockquote has
    [tokens], a list has [items], and so for the children. *)
#[local] Unset Elimination Schemes.
Inductive wellFormed : MToken -> Prop :=
| wellFormed_token :
    forall ty raw text lang depth ordered toks items header rows,
      (ty = js "blockquote" -> toks <> None) ->
      (ty = js "list" -> items <> None) ->
      (forall children, toks = Some children -> Forall wellFormed children) ->
      wellFormed
        (mkMToken ty raw text lang depth ordered toks items header rows).
#[local] Set Elimination Schemes.

(** The types of the tokens of [parseInlineFromText]. *)
Definition inlineType (ty : jsstring) : Prop :=
  In ty (js "text" :: map snd inlinePatterns).

(** A string [trim] leaves as it is. *)
Definition trimmed (s : jsstring) : Prop := trim s = s.

(** What is left of [s] after its longest prefix in the class [f]. *)
Fixpoint dropWhile (f : N -> bool) (s : jsstring) : jsstring :=
  match s with
  | c :: r => if f c then dropWhile f r else s
  | [] => []
  end.

(** A text that cannot go on an escape sequence begun before it: it is
    empty, or its first character is none of [[], [m], a digit and [;]. *)
Definition boundary (s : jsstring) : bool :=
  match s with
  | [] => true
  | c :: _ => negb (Formatting.isParam c || (c =? 109) || (c =? 91))
  end.

(** A line that fits the width. *)
Definition fits (width : Z) (line : jsstring) : Prop :=
  (Z.of_nat (Formatting.visualLength line) <= width)%Z.

(** The words of one line of [wordWrap]: joined by spaces they are not the
    empty line, and they fit the width unless there is one word only. *)
Definition wrappedWords (width : Z) (g : list jsstring) : Prop :=
  join [32] g <> [] /\
  (fits width (join [32] g) \/ exists word, g = [word]).

(** The characters an inline pattern of [parseInlineFromText] starts
    with. *)
Definition inlineMarks : list N := [42; 95; 96; 91; 126].

(** A cell as [parseMarkdownTable] leaves it: trimmed, on one line, without
    a pipe. *)
Definition tidy (s : jsstring) : Prop :=
  trimmed s /\ includes 124 s = false /\ includes LF s = false.

(** The types of the tokens the parser gives. *)
Definition producedTypes : list jsstring :=
  [js "heading"; js "paragraph"; js "strong"; js "em"; js "code";
   js "link"; js "del"; js "text"; js "codeblock"; js "mermaid";
   js "listitem"; js "hr"; js "table"; js "blockquote"].

Definition produced (q : ParsedToken) : Prop := In (p_type q) producedTypes.

(** The square corners of a box. *)
Definition squareCorners : list N := [9484; 9488; 9492; 9496].

(** The round corner for a square one, every other character itself. *)
Definition roundedCorner (c : N) : N :=
  if c =? 9484 then 9581
  else if c =? 9488 then 9582
  else if c =? 9492 then 9584
  else if c =? 9496 then 9583
  else c.

(** ** Concrete lexers, tokens and texts *)

(** What a call returned, for the calls that returned. *)
Definition returned (r : outcome (Parser * list ParsedToken))
    : Parser * list ParsedToken :=
  match r with
  | Ok v => v
  | Throw => (newParser true, [])
  end.

(** A lexer that throws on every buffer. *)
Definition throwingLexer : jsstring -> outcome (list MToken) :=
  fun _ => Throw.

(** A lexer that answers with a fixed token list. *)
Definition constLexer (l : list MToken) : jsstring -> outcome (list MToken) :=
  fun _ => Ok l.

(** Numbers from 2^53 on taken as they are. *)
Definition exactCharcode : N -> N := fun v => v.

(** What [marked.lexer] gives for the thematic break ["* * * "]. *)
Definition hrToken : MToken :=
  mkMToken (js "hr") (Some (js "* * * ")) None None None None None None None
    None.

(** What [marked.lexer] gives for the paragraph ["*a"]. *)
Definition openEmParagraph : MToken :=
  mkMToken (js "paragraph") (Some (js "*a")) (Some (js "*a")) None None None
    (Some [inlineTok (js "text") (js "*a") (js "*a")]) None None None.

(** A fenced code block as [marked.lexer] gives it. *)
Definition fencedBlock (lang : option jsstring) (text : jsstring) : MToken :=
  mkMToken (js "code")
    (Some (js "```" ++ jsorD lang [] ++ [LF] ++ text ++ [LF] ++ js "```"))
    (Some text) lang None None None None None None.

Definition graphTD : jsstring := js "graph TD" ++ [LF] ++ js "A-->B".

Definition twoHeadings : jsstring := js "# a" ++ [LF] ++ js "# b".

Definition sampleTable : jsstring :=
  js "| a | b |" ++ [LF] ++ js "| --- | --- |" ++ [LF] ++ js "| 1 | 2 |"
  ++ [LF] ++ js "| 1 | 2 | 3 |".

Definition cellOf (s : string) : Cell := CellObj (Some (js s)) None.

(** * Properties *)

(** ** Facts about strings *)

Lemma jseqb_eq (a b : jsstring) : jseqb a b = true <-> a = b.
Proof.
  revert b; induction a as [|x a IH]; intros [|y b]; simpl;
    try (split; [discriminate | congruence]); try tauto.
  rewrite andb_true_iff, N.eqb_eq, IH. split.
  - intros [-> ->]; reflexivity.
  - intros E; injection E; auto.
Qed.

Lemma jseqb_refl (a : jsstring) : jseqb a a = true.
Proof. apply jseqb_eq; reflexivity. Qed.

(** No piece of [split] contains the separator. *)
Lemma split_pieces (sep : N) (s : jsstring) :
  Forall (fun piece => includes sep piece = false) (split sep s).
Proof.
  induction s as [|c r IH]; simpl.
  - repeat constructor.
  - destruct (N.eqb_spec c sep) as [->|Hne].
    + constructor; [reflexivity | assumption].
    + destruct (split sep r) as [|h t].
      * repeat constructor. simpl. rewrite orb_false_r.
        apply N.eqb_neq; congruence.
      * inversion IH; subst. constructor; [|assumption].
        simpl. replace (sep =? c) with false
          by (symmetry; apply N.eqb_neq; congruence).
        assumption.
Qed.

(** ** Facts about the conversion of tokens *)

Ltac fresh_one :=
  constructor; [split; [vm_compute; discriminate | reflexivity] | constructor].

Lemma convertToken_fresh (t : MToken) :
  forall l, convertToken t = Ok l -> Forall fresh l.
Proof.
  induction t as [ty raw text lang depth ordered toks items header rows IH]
    using MToken_children_ind.
  intros l. simpl.
  repeat match goal with
  | |- (if ?c then _ else _) = _ -> _ => destruct c
  end;
  try (intros E; injection E as <-; first [fresh_one | constructor]).
  - (* blockquote *)
    destruct toks as [children|]; [|discriminate].
    revert l. induction children as [|x r IHr]; intros l.
    + intros E; injection E as <-; constructor.
    + inversion IH as [|? ? Hx Hr]; subst.
      destruct (convertToken x) as [a|] eqn:Ea; simpl; [|discriminate].
      match goal with
      | |- bind ?e _ = _ -> _ => destruct e as [b|] eqn:Eb
      end; simpl; [|discriminate].
      intros E; injection E as <-.
      apply Forall_app; split; [apply Hx; reflexivity|].
      apply IHr; [assumption | reflexivity].
  - (* list *)
    destruct items as [its|]; [|discriminate].
    intros E; injection E as <-.
    apply Forall_forall. intros q Hq. apply in_map_iff in Hq.
    destruct Hq as [item [<- _]]. split; [vm_compute; discriminate | reflexivity].
Qed.

Lemma convertTokens_fresh lexerless :
  forall l, convertTokens lexerless = Ok l -> Forall fresh l.
Proof.
  induction lexerless as [|t r IH]; simpl; intros l.
  - intros E; injection E as <-; constructor.
  - destruct (convertToken t) as [a|] eqn:Ea; simpl; [|discriminate].
    destruct (convertTokens r) as [b|]; simpl; [|discriminate].
    intros E; injection E as <-.
    apply Forall_app; split; [eapply convertToken_fresh; eassumption|].
    apply IH; reflexivity.
Qed.

(** ** Facts about [handleIncompleteMarkdown] *)

Lemma markLast_spec (buf : jsstring) (t : ParsedToken) :
  markLast buf t =
  if existsb (fun pattern => patternTest pattern buf) incompletePatterns
     && truthy (p_content t)
  then setIncomplete t else t.
Proof.
  destruct t as [ty content depth ordered lang incomplete raw].
  unfold markLast, incompletePatterns, setIncomplete.
  cbn [fold_left existsb].
  repeat match goal with
  | |- context [patternTest ?p buf] => destruct (patternTest p buf)
  end;
  destruct content as [[|c s]|]; reflexivity.
Qed.

Lemma handleIncompleteMarkdown_last (front : list ParsedToken)
    (t : ParsedToken) (buf : jsstring) :
  handleIncompleteMarkdown (front ++ [t]) buf = front ++ [markLast buf t].
Proof.
  unfold handleIncompleteMarkdown. rewrite rev_app_distr. simpl.
  rewrite rev_involutive. reflexivity.
Qed.

Lemma handleIncompleteMarkdown_nil (buf : jsstring) :
  handleIncompleteMarkdown [] buf = [].
Proof. reflexivity. Qed.

Lemma markLast_type (buf : jsstring) (t : ParsedToken) :
  p_type (markLast buf t) = p_type t.
Proof. rewrite markLast_spec. destruct (_ && _); reflexivity. Qed.

Lemma markLast_content (buf : jsstring) (t : ParsedToken) :
  p_content (markLast buf t) = p_content t.
Proof. rewrite markLast_spec. destruct (_ && _); reflexivity. Qed.

(** A token list is empty or has a last element. *)
Lemma list_last_cases {A : Type} (l : list A) :
  l = [] \/ exists front x, l = front ++ [x].
Proof.
  destruct (rev l) as [|x r] eqn:E.
  - left. rewrite <- (rev_involutive l), E. reflexivity.
  - right. exists (rev r), x. rewrite <- (rev_involutive l), E. reflexivity.
Qed.

Lemma fresh_not_provisional (q : ParsedToken) :
  fresh q -> provisional q = false.
Proof. intros [_ H]. unfold provisional. rewrite H. reflexivity. Qed.

Lemma provisionalOnlyLast_fresh (toks : list ParsedToken) :
  Forall fresh toks -> provisionalOnlyLast toks.
Proof.
  intros H i t Hi Hp. apply nth_error_In in Hi.
  rewrite Forall_forall in H. apply H, fresh_not_provisional in Hi. congruence.
Qed.

Lemma provisionalOnlyLast_handle (toks : list ParsedToken) (buf : jsstring) :
  Forall fresh toks ->
  provisionalOnlyLast (handleIncompleteMarkdown toks buf).
Proof.
  intros H. destruct (list_last_cases toks) as [->|[front [x ->]]].
  - intros i t Hi. destruct i; discriminate.
  - rewrite handleIncompleteMarkdown_last. intros i t Hi Hp.
    apply Forall_app in H. destruct H as [Hf _].
    rewrite length_app. simpl.
    destruct (Nat.lt_ge_cases i (length front)) as [Hlt|Hge].
    + rewrite nth_error_app1 in Hi by assumption.
      apply nth_error_In in Hi. rewrite Forall_forall in Hf.
      apply Hf, fresh_not_provisional in Hi. congruence.
    + assert (i < length (front ++ [markLast buf x]))%nat
        by (apply nth_error_Some; congruence).
      rewrite length_app in *. simpl in *. lia.
Qed.

Lemma handle_types (toks : list ParsedToken) (buf : jsstring) :
  map p_type (handleIncompleteMarkdown toks buf) = map p_type toks.
Proof.
  destruct (list_last_cases toks) as [->|[front [x ->]]]; [reflexivity|].
  rewrite handleIncompleteMarkdown_last, !map_app. simpl.
  rewrite markLast_type. reflexivity.
Qed.

(** ** The claims about [addChunk] *)

Section AddChunk.

Variable lexer : jsstring -> outcome (list MToken).
Variable double_charcode : N -> N.

#[local] Abbreviation addChunk' := (addChunk lexer double_charcode).
#[local] Abbreviation parsePrimary' := (parsePrimary lexer).
#[local] Abbreviation withChunk' := (withChunk double_charcode).
#[local] Abbreviation addChunks' := (addChunks lexer double_charcode).

Lemma addChunk_cases (p : Parser) (chunk : jsstring) :
  (exists toks,
     parsePrimary' (withChunk' p chunk) = Ok toks /\
     addChunk' p chunk =
     Ok (mkParser (buffer (withChunk' p chunk)) toks (parseIncomplete p),
         toks)) \/
  (parsePrimary' (withChunk' p chunk) = Throw /\
   addChunk' p chunk =
   Ok (withChunk' p chunk, parsePartial (buffer (withChunk' p chunk)))).
Proof.
  unfold addChunk, parse. fold (withChunk' p chunk).
  destruct (parsePrimary' (withChunk' p chunk)) as [toks|] eqn:E; simpl.
  - left. exists toks. split; reflexivity.
  - right. split; reflexivity.
Qed.

Lemma parsePrimary_fresh (p : Parser) (toks : list ParsedToken) :
  parsePrimary' p = Ok toks ->
  exists toks0,
    Forall fresh toks0 /\
    toks = if parseIncomplete p
           then handleIncompleteMarkdown toks0 (buffer p) else toks0.
Proof.
  unfold parsePrimary.
  destruct (lexer (buffer p)) as [markedTokens|]; simpl; [|discriminate].
  destruct (convertTokens _) as [toks0|] eqn:E; simpl; [|discriminate].
  intros H; injection H as <-. exists toks0. split; [|reflexivity].
  eapply convertTokens_fresh; eassumption.
Qed.

(** C1. Every call to [addChunk], in every session, returns a token array
    and raises nothing; when the [try] block of [parse] throws, what is
    returned is the result of the line-oriented [parsePartial] on the
    buffer. *)
Theorem addChunk_never_throws :
  (forall (p : Parser) (chunks : list jsstring),
     exists p' results,
       addChunks' p chunks = Ok (p', results) /\
       length results = length chunks) /\
  (forall (p : Parser) (chunk : jsstring),
     exists p' toks,
       addChunk' p chunk = Ok (p', toks) /\
       buffer p' = buffer p ++ preprocessText double_charcode chunk /\
       (parsePrimary' (withChunk' p chunk) = Throw ->
        toks = parsePartial (buffer p'))).
Proof.
  assert (one : forall p chunk,
             exists p' toks,
               addChunk' p chunk = Ok (p', toks) /\
               buffer p' = buffer p ++ preprocessText double_charcode chunk /\
               (parsePrimary' (withChunk' p chunk) = Throw ->
                toks = parsePartial (buffer p'))).
  { intros p chunk.
    destruct (addChunk_cases p chunk) as [[toks [E ->]]|[E ->]].
    - eexists _, _. split; [reflexivity|]. split; [reflexivity|].
      rewrite E. discriminate.
    - eexists _, _. split; [reflexivity|]. split; reflexivity. }
  split; [|exact one].
  intros p chunks. revert p.
  induction chunks as [|chunk r IH]; intros p; simpl.
  - exists p, []. split; reflexivity.
  - destruct (one p chunk) as [p1 [toks [-> _]]]. simpl.
    destruct (IH p1) as [p2 [results [-> Hlen]]]. simpl.
    exists p2, (toks :: results). split; [reflexivity|].
    simpl. congruence.
Qed.

(** C9. After a call in which the [try] block succeeds, [getTokens()] is
    the array the call returned; after a call that fell back to
    [parsePartial], [getTokens()] is what it was before the call. *)
Theorem getTokens_after_addChunk (p p' : Parser) (chunk : jsstring)
    (toks : list ParsedToken) :
  addChunk' p chunk = Ok (p', toks) ->
  (parsePrimary' (withChunk' p chunk) <> Throw -> getTokens p' = toks) /\
  (parsePrimary' (withChunk' p chunk) = Throw ->
   getTokens p' = getTokens p /\
   toks = parsePartial (buffer p ++ preprocessText double_charcode chunk)).
Proof.
  intros H.
  destruct (addChunk_cases p chunk) as [[toks0 [E E']]|[E E']];
    rewrite E' in H; injection H as <- <-; split; intros H.
  - reflexivity.
  - congruence.
  - congruence.
  - split; reflexivity.
Qed.

(** No token of type [blockquote] is returned by a call in
    which the [try] block succeeds. *)
Lemma primary_no_blockquote (p p' : Parser) (chunk : jsstring)
    (toks : list ParsedToken) :
  addChunk' p chunk = Ok (p', toks) ->
  parsePrimary' (withChunk' p chunk) <> Throw ->
  Forall (fun t => p_type t <> js "blockquote") toks.
Proof.
  intros H Hok.
  destruct (addChunk_cases p chunk) as [[toks0 [E E']]|[E E']];
    [|congruence].
  rewrite E' in H; injection H as <- <-.
  apply parsePrimary_fresh in E. destruct E as [toks1 [Hfresh ->]].
  assert (Ht : Forall (fun ty => ty <> js "blockquote") (map p_type toks1)).
  { apply (proj2 (Forall_map p_type _ toks1)).
    eapply Forall_impl; [|exact Hfresh].
    intros q [Hq _]; exact Hq. }
  apply (proj1 (Forall_map p_type (fun ty => ty <> js "blockquote") _)).
  destruct (parseIncomplete (withChunk' p chunk)); [|assumption].
  rewrite handle_types. assumption.
Qed.

End AddChunk.

(** ** Facts about the matcher *)

(** A greedy repetition that matches has taken some allowed number of
    characters of the class, and the rest of the pattern matched there. *)
Lemma repGreedy_sound (s : jsstring) :
  forall f lo hi k x,
    repGreedy f lo hi s k = Some x ->
    exists j,
      (lo <= j)%nat /\ within hi j /\ (j <= length s)%nat /\
      forallb f (firstn j s) = true /\ k (skipn j s) = Some x.
Proof.
  induction s as [|c r IH]; intros f lo hi k x; simpl.
  - destruct lo; [|discriminate]. intros H. exists O.
    repeat split; auto. destruct hi; simpl; lia.
  - assert (stop : match lo with O => k (c :: r) | S _ => None end = Some x ->
                   exists j,
                     (lo <= j)%nat /\ within hi j /\ (j <= S (length r))%nat /\
                     forallb f (firstn j (c :: r)) = true /\
                     k (skipn j (c :: r)) = Some x).
    { destruct lo; [|discriminate]. intros H. exists O.
      repeat split; auto; try lia. destruct hi; simpl; lia. }
    destruct (match hi with Some O => false | _ => true end) eqn:Emore;
      [|exact stop].
    destruct (f c) eqn:Efc; simpl; [|exact stop].
    destruct (repGreedy f (pred lo) (option_map pred hi) r k) as [y|] eqn:E;
      [|exact stop].
    intros H; injection H as ->.
    apply IH in E. destruct E as [j [Hlo [Hhi [Hlen [Hall Hk]]]]].
    exists (S j). repeat split.
    + lia.
    + destruct hi as [[|h]|]; simpl in *; try discriminate; try lia; exact I.
    + lia.
    + simpl. rewrite Efc. exact Hall.
    + exact Hk.
Qed.

(** A greedy repetition first tries the longest run. *)
Lemma repGreedy_max (p : jsstring) :
  forall f lo hi t k x,
    forallb f p = true ->
    (lo <= length p)%nat ->
    within hi (length p) ->
    (match t with c :: _ => f c = false | [] => True end
     \/ hi = Some (length p)) ->
    k t = Some x ->
    repGreedy f lo hi (p ++ t) k = Some x.
Proof.
  induction p as [|a p IH]; intros f lo hi t k x Hall Hlo Hhi Hnext Hk.
  - simpl in *. assert (lo = O) by lia; subst lo.
    destruct t as [|c r]; simpl; [exact Hk|].
    destruct Hnext as [Hc| ->]; [|exact Hk].
    rewrite Hc, andb_false_r. exact Hk.
  - simpl in Hall. apply andb_true_iff in Hall. destruct Hall as [Ha Hall].
    simpl. rewrite Ha.
    assert (Emore : match hi with Some O => false | _ => true end = true).
    { destruct hi as [[|h]|]; simpl in *; auto; lia. }
    rewrite Emore. simpl.
    rewrite (IH f (pred lo) (option_map pred hi) t k x); auto.
    + simpl in Hlo. lia.
    + destruct hi as [h|]; simpl in *; [lia | exact I].
    + destruct Hnext as [Hc| ->]; [left; exact Hc | right; reflexivity].
Qed.

(** A greedy repetition fails when the rest of the pattern fails after every
    allowed run. *)
Lemma repGreedy_none (s : jsstring) f lo hi k :
  (forall j,
     (lo <= j)%nat -> within hi j -> (j <= length s)%nat ->
     forallb f (firstn j s) = true -> k (skipn j s) = None) ->
  repGreedy f lo hi s k = None.
Proof.
  intros H. destruct (repGreedy f lo hi s k) as [x|] eqn:E; [|reflexivity].
  apply repGreedy_sound in E. destruct E as [j [H1 [H2 [H3 [H4 H5]]]]].
  rewrite (H j H1 H2 H3 H4) in H5. discriminate.
Qed.

Lemma forallb_only (c : N) (l : jsstring) :
  forallb (only c) l = true -> l = repeat c (length l).
Proof.
  induction l as [|x l IH]; simpl; [reflexivity|].
  intros H. apply andb_true_iff in H. destruct H as [Hx Hl].
  apply N.eqb_eq in Hx. subst x. f_equal. auto.
Qed.

Lemma forallb_only_repeat (c : N) (n : nat) :
  forallb (only c) (repeat c n) = true.
Proof.
  induction n; simpl; [reflexivity|]. unfold only at 1.
  rewrite N.eqb_refl. exact IHn.
Qed.

Lemma isSpace_not_hash (c : N) : isSpace c = true -> only 35 c = false.
Proof.
  unfold only. destruct (N.eqb_spec c 35) as [->|]; [|reflexivity].
  vm_compute. discriminate.
Qed.

(** ** The fallback line parser on a heading line *)

(** A line passes [/^#{1,6}\s/] exactly when it is one to six [#] and then
    a whitespace character. *)
Lemma heading_line_shape (line : jsstring) :
  testStart reHeadingPrefix line = true ->
  exists h c rest,
    line = repeat 35 h ++ c :: rest /\ (1 <= h <= 6)%nat /\
    isSpace c = true.
Proof.
  unfold testStart, matchAt, reHeadingPrefix. cbn [matchK].
  destruct (repGreedy _ _ _ _ _) as [x|] eqn:E; [intros _|discriminate].
  apply repGreedy_sound in E. destruct E as [j [H1 [H2 [H3 [H4 H5]]]]].
  destruct (skipn j line) as [|c rest] eqn:Es; [discriminate|].
  destruct (isSpace c) eqn:Ec; [|discriminate].
  exists j, c, rest. simpl in H2. repeat split; try lia; auto.
  rewrite <- (firstn_skipn j line) at 1. rewrite Es. f_equal.
  apply forallb_only in H4. rewrite H4, length_firstn.
  f_equal. lia.
Qed.

Lemma heading_line_parsed (h : nat) (c : N) (rest : jsstring) :
  (1 <= h <= 6)%nat -> isSpace c = true ->
  parseIncompleteLine (repeat 35 h ++ c :: rest) =
  mkParsed (js "heading") (Some rest) (Some (N.of_nat h)) None None
    (Some (negb (includes LF (repeat 35 h ++ c :: rest)))) None.
Proof.
  intros Hh Hc. unfold parseIncompleteLine.
  assert (E1 : matchAt reHeadingPrefix (repeat 35 h ++ c :: rest)
               = Some ([], rest)).
  { unfold matchAt, reHeadingPrefix. cbn [matchK].
    apply repGreedy_max.
    - apply forallb_only_repeat.
    - rewrite repeat_length. lia.
    - simpl. rewrite repeat_length. lia.
    - left. apply isSpace_not_hash, Hc.
    - rewrite Hc. reflexivity. }
  assert (E2 : matchAt reHashes (repeat 35 h ++ c :: rest)
               = Some ([repeat 35 h], c :: rest)).
  { unfold matchAt, reHashes. cbn [matchK].
    rewrite (repGreedy_max (repeat 35 h) _ _ _ (c :: rest) _
               ([repeat 35 h], c :: rest)); auto.
    - apply forallb_only_repeat.
    - rewrite repeat_length. lia.
    - simpl. rewrite repeat_length. lia.
    - left. apply isSpace_not_hash, Hc.
    - simpl. rewrite length_app, repeat_length. simpl.
      replace (h + S (length rest) - S (length rest))%nat with h by lia.
      rewrite <- (repeat_length 35 h) at 1.
      rewrite firstn_app, firstn_all, Nat.sub_diag. simpl.
      rewrite app_nil_r. reflexivity. }
  unfold testStart, replaceStart. rewrite E1, E2. cbv beta iota.
  unfold cap. cbn [Nat.sub nth app]. rewrite repeat_length.
  destruct h as [|h']; [lia|]. reflexivity.
Qed.

(** ** The fallback line parser, line by line *)

Lemma parsePartial_lines (buf : jsstring) (t : ParsedToken) :
  In t (parsePartial buf) ->
  exists line,
    In line (split LF buf) /\ nonEmpty (trim line) = true /\
    includes LF line = false /\ t = parseIncompleteLine line.
Proof.
  unfold parsePartial. intros H. apply in_map_iff in H.
  destruct H as [line [<- H]]. apply filter_In in H. destruct H as [Hin Hne].
  exists line. repeat split; auto.
  pose proof (split_pieces LF buf) as Hp. rewrite Forall_forall in Hp.
  apply Hp, Hin.
Qed.

(** Every line the fallback parser classifies as something else than plain
    text gives a token flagged incomplete: the test [!line.includes('\n')]
    is true of every piece of [split('\n')]. *)
Lemma parseIncompleteLine_flag (line : jsstring) :
  includes LF line = false ->
  p_type (parseIncompleteLine line) <> js "text" ->
  p_incomplete (parseIncompleteLine line) = Some true.
Proof.
  intros Hnl. unfold parseIncompleteLine.
  destruct (testStart reHeadingPrefix line);
    [intros _; simpl; rewrite Hnl; reflexivity|].
  destruct (startsWith (js "```") line); [intros _; reflexivity|].
  destruct (startsWith (js ">") line);
    [intros _; simpl; rewrite Hnl; reflexivity|].
  destruct (testStart reBullet line || testStart reNumbered line);
    [intros _; simpl; rewrite Hnl; reflexivity|].
  intros H. exfalso. apply H. reflexivity.
Qed.

Lemma parseIncompleteLine_heading (line : jsstring) :
  p_type (parseIncompleteLine line) = js "heading" ->
  testStart reHeadingPrefix line = true.
Proof.
  unfold parseIncompleteLine.
  destruct (testStart reHeadingPrefix line); [reflexivity|].
  destruct (startsWith (js "```") line); [vm_compute; discriminate|].
  destruct (startsWith (js ">") line); [vm_compute; discriminate|].
  destruct (testStart reBullet line || testStart reNumbered line);
    vm_compute; discriminate.
Qed.

Lemma parseIncompleteLine_blockquote (line : jsstring) :
  p_type (parseIncompleteLine line) = js "blockquote" <->
  startsWith (js ">") line = true.
Proof.
  split.
  - unfold parseIncompleteLine.
    destruct (testStart reHeadingPrefix line); [vm_compute; discriminate|].
    destruct (startsWith (js "```") line); [vm_compute; discriminate|].
    destruct (startsWith (js ">") line); [reflexivity|].
    destruct (testStart reBullet line || testStart reNumbered line);
      vm_compute; discriminate.
  - destruct line as [|c rest]; [discriminate|].
    change (startsWith (js ">") (c :: rest)) with ((62 =? c) && true).
    rewrite andb_true_r. intros H. apply N.eqb_eq in H. subst c.
    unfold parseIncompleteLine.
    replace (testStart reHeadingPrefix (62 :: rest)) with false
      by (vm_compute; reflexivity).
    replace (startsWith (js "```") (62 :: rest)) with false
      by (vm_compute; reflexivity).
    reflexivity.
Qed.

Section Provisional.

Variable lexer : jsstring -> outcome (list MToken).
Variable double_charcode : N -> N.

#[local] Abbreviation addChunk' := (addChunk lexer double_charcode).
#[local] Abbreviation parsePrimary' := (parsePrimary lexer).
#[local] Abbreviation withChunk' := (withChunk double_charcode).




End Provisional.


(** ** Concrete sessions *)







(** A call that falls back returns the tokens of the line parser, and
    [getTokens()] still answers with the tokens of before, here none. *)
Lemma getTokens_after_addChunk_witness :
  exists p' toks,
    addChunk throwingLexer exactCharcode (newParser true) (js "# a")
    = Ok (p', toks) /\
    getTokens p' = [] /\ length toks = 1%nat.
Proof.
  eexists _, _. split; [reflexivity|].
  destruct (getTokens_after_addChunk throwingLexer exactCharcode
              (newParser true) _ (js "# a") _ eq_refl) as [_ H].
  destruct (H eq_refl) as [Hget _].
  split; [exact Hget | reflexivity].
Defined.


Lemma addChunk_never_throws_witness :
  exists p' results,
    addChunks throwingLexer exactCharcode (newParser true)
      [js "# a"; js "b"] = Ok (p', results) /\
    length results = 2%nat.
Proof.
  exact (proj1 (addChunk_never_throws throwingLexer exactCharcode)
           (newParser true) [js "# a"; js "b"]).
Defined.

(** ** Diagram detection *)

(** A code token is relabelled [mermaid] exactly when its language is
    [mermaid] or its text looks like a diagram; other tokens are kept. *)
Lemma detectDiagram_spec (t : MToken) :
  m_type (detectDiagram t) = js "mermaid" <->
  m_type t = js "mermaid" \/
  (isType "code" t = true /\
   (langIs "mermaid" t = true \/
    looksLikeMermaidCode (jsor (m_text t) (m_raw t)) = true)).
Proof.
  unfold detectDiagram.
  destruct (isType "code" t) eqn:Ecode; simpl.
  - destruct (langIs "mermaid" t); simpl.
    + split; [intros _; right; auto | reflexivity].
    + destruct (looksLikeMermaidCode _); simpl.
      * split; [intros _; right; auto | reflexivity].
      * split; [intros H; left; exact H|].
        intros [H|[_ [H|H]]]; [exact H | discriminate | discriminate].
  - split; [intros H; left; exact H|].
    intros [H|[H _]]; [exact H | discriminate].
Qed.

(** C3, on the code. The fenced block [graph TD / A-->B] comes out as one
    [mermaid] token when it has no language tag, and also when its language
    tag is [python]: the keyword test of [processTokensWithDiagramDetection]
    does not look at the tag.  A [python] block that starts with no keyword
    stays a code block. *)
Theorem python_block_relabelled :
  convertTokens (processTokensWithDiagramDetection [fencedBlock None graphTD])
  = Ok [plain "mermaid" (Some graphTD) (m_raw (fencedBlock None graphTD))]
  /\
  convertTokens
    (processTokensWithDiagramDetection
       [fencedBlock (Some (js "python")) graphTD])
  = Ok [plain "mermaid" (Some graphTD)
          (m_raw (fencedBlock (Some (js "python")) graphTD))]
  /\
  map p_type
    (snd (returned
            (addChunk
               (constLexer [fencedBlock (Some (js "python")) graphTD])
               exactCharcode (newParser true)
               (js "```python" ++ [LF] ++ graphTD ++ [LF] ++ js "```"))))
  = [js "mermaid"]
  /\
  m_type (detectDiagram (fencedBlock (Some (js "python")) (js "x = 1")))
  = js "code".
Proof.
  repeat split; vm_compute; reflexivity.
Qed.

(** ** The rows of [parseMarkdownTable] *)

(** The loop that pushes the rows whose cell count is the header count. *)
Lemma rows_loop {A B : Type} (g : A -> list B) (n : nat) (ls : list A) :
  forall acc,
    fold_left
      (fun rows line =>
         let cells := g line in
         if (length cells =? n)%nat then rows ++ [cells] else rows)
      ls acc
    = acc ++ filter (fun cells => (length cells =? n)%nat) (map g ls).
Proof.
  induction ls as [|l ls IH]; intros acc; simpl.
  - rewrite app_nil_r. reflexivity.
  - rewrite IH. destruct (length (g l) =? n)%nat; [|reflexivity].
    rewrite <- app_assoc. reflexivity.
Qed.

(** Cleaning the cells does not change their number. *)
Lemma filter_cleaned (n : nat) (ls : list jsstring) :
  filter (fun cells => (length cells =? n)%nat)
    (map (fun line => map cleanCell (splitCells line)) ls)
  = map (map cleanCell)
      (filter (fun cells => (length cells =? n)%nat) (map splitCells ls)).
Proof.
  induction ls as [|l ls IH]; simpl; [reflexivity|].
  rewrite length_map.
  destruct (length (splitCells l) =? n)%nat; simpl; rewrite IH;
    reflexivity.
Qed.

Lemma parseMarkdownTable_result (markdown : jsstring) (td : TableData) :
  parseMarkdownTable markdown = Some td ->
  headers td = map cleanHeader (splitCells (nth 0 (tableLines markdown) []))
  /\
  rows td =
  map (map cleanCell)
    (filter (fun cells => (length cells =? length (headers td))%nat)
       (map splitCells (skipn 2 (tableLines markdown)))).
Proof.
  unfold parseMarkdownTable. fold (tableLines markdown).
  destruct (length (tableLines markdown) <? 3)%nat; [discriminate|].
  set (hs := map cleanHeader (splitCells (nth 0 (tableLines markdown) []))).
  destruct (length hs =? 0)%nat; [discriminate|].
  rewrite (rows_loop (fun line => map cleanCell (splitCells line))).
  rewrite app_nil_l.
  destruct (length _ =? 0)%nat; [discriminate|].
  intros H; injection H as <-. cbn [headers rows]. split; [reflexivity|].
  rewrite filter_cleaned. reflexivity.
Qed.

(** C7. In the result of [parseMarkdownTable] the rows are, in order, the
    data lines whose cell count, after splitting on [|], trimming and
    dropping an empty first and last cell, is the header count; the other
    data lines are left out, and the result is still a table. *)
Theorem row_kept_iff_cell_count_matches (markdown : jsstring)
    (td : TableData) :
  parseMarkdownTable markdown = Some td ->
  length (headers td)
  = length (splitCells (nth 0 (tableLines markdown) [])) /\
  rows td =
  map (map cleanCell)
    (filter (fun cells => (length cells =? length (headers td))%nat)
       (map splitCells (skipn 2 (tableLines markdown)))) /\
  (forall line,
     In line (skipn 2 (tableLines markdown)) ->
     length (splitCells line) = length (headers td) ->
     In (map cleanCell (splitCells line)) (rows td)) /\
  (forall row,
     In row (rows td) ->
     length row = length (headers td) /\
     exists line,
       In line (skipn 2 (tableLines markdown)) /\
       row = map cleanCell (splitCells line) /\
       length (splitCells line) = length (headers td)).
Proof.
  intros H. apply parseMarkdownTable_result in H. destruct H as [Hh Hr].
  split; [rewrite Hh, length_map; reflexivity|].
  split; [exact Hr|]. split.
  - intros line Hin Hlen. rewrite Hr. apply in_map. apply filter_In.
    split; [apply in_map; exact Hin|]. apply Nat.eqb_eq. exact Hlen.
  - intros row Hin. rewrite Hr in Hin. apply in_map_iff in Hin.
    destruct Hin as [cells [<- Hin]]. apply filter_In in Hin.
    destruct Hin as [Hin Hlen]. apply Nat.eqb_eq in Hlen.
    apply in_map_iff in Hin. destruct Hin as [line [<- Hin]].
    split; [rewrite length_map; exact Hlen|].
    exists line. repeat split; auto.
Qed.

Lemma row_kept_iff_cell_count_matches_witness :
  exists td,
    parseMarkdownTable sampleTable = Some td /\
    rows td = [[js "1"; js "2"]].
Proof.
  eexists. split; [reflexivity|].
  destruct (row_kept_iff_cell_count_matches sampleTable _ eq_refl)
    as [_ [Hrows _]].
  rewrite Hrows. reflexivity.
Defined.

(** ** The canonical pipe form, read back *)

Lemma includes_app (c : N) (a b : jsstring) :
  includes c (a ++ b) = includes c a || includes c b.
Proof. apply existsb_app. Qed.

Lemma split_cons_sep (sep : N) (s : jsstring) :
  split sep (sep :: s) = [] :: split sep s.
Proof. simpl. rewrite N.eqb_refl. reflexivity. Qed.

Lemma split_app_sep (sep : N) (a b : jsstring) :
  includes sep a = false ->
  split sep (a ++ sep :: b) = a :: split sep b.
Proof.
  induction a as [|c a IH]; intros H.
  - apply split_cons_sep.
  - simpl in H. apply orb_false_iff in H. destruct H as [Hc Ha].
    simpl. rewrite N.eqb_sym, Hc, (IH Ha). reflexivity.
Qed.

Lemma split_nosep (sep : N) (a : jsstring) :
  includes sep a = false -> split sep a = [a].
Proof.
  induction a as [|c a IH]; intros H; [reflexivity|].
  simpl in H. apply orb_false_iff in H. destruct H as [Hc Ha].
  simpl. rewrite N.eqb_sym, Hc, (IH Ha). reflexivity.
Qed.

(** Lines without a newline, joined by newlines and split again. *)
Lemma split_join (sep : N) (lines : list jsstring) :
  lines <> [] ->
  Forall (fun l => includes sep l = false) lines ->
  split sep (join [sep] lines) = lines.
Proof.
  induction lines as [|x r IH]; intros Hne H; [congruence|].
  inversion H as [|? ? Hx Hr]; subst.
  destruct r as [|y r].
  - simpl. apply split_nosep, Hx.
  - change (join [sep] (x :: y :: r)) with (x ++ sep :: join [sep] (y :: r)).
    rewrite split_app_sep by exact Hx. f_equal.
    apply IH; [discriminate | exact Hr].
Qed.

Lemma pipeLine_unfold (cells : list jsstring) :
  pipeLine cells = 124 :: 32 :: join (js " | ") cells ++ [32; 124].
Proof. reflexivity. Qed.

Lemma split_padded (cells : list jsstring) :
  cells <> [] ->
  Forall (fun c => includes 124 c = false) cells ->
  split 124 (32 :: join (js " | ") cells ++ [32; 124])
  = map pad cells ++ [[]].
Proof.
  induction cells as [|x r IH]; intros Hne H; [congruence|].
  inversion H as [|? ? Hx Hr]; subst.
  assert (Hpad : includes 124 (pad x) = false).
  { unfold pad. change (32 :: x ++ [32]) with ([32] ++ x ++ [32]).
    rewrite !includes_app, Hx. reflexivity. }
  destruct r as [|y r].
  - change (32 :: join (js " | ") [x] ++ [32; 124])
      with (32 :: x ++ [32; 124]).
    replace (32 :: x ++ [32; 124]) with (pad x ++ 124 :: [])
      by (unfold pad; simpl; rewrite <- app_assoc; reflexivity).
    rewrite split_app_sep by exact Hpad. reflexivity.
  - change (join (js " | ") (x :: y :: r))
      with (x ++ [32; 124; 32] ++ join (js " | ") (y :: r)).
    replace (32 :: (x ++ [32; 124; 32] ++ join (js " | ") (y :: r))
                   ++ [32; 124])
      with (pad x ++ 124 :: (32 :: join (js " | ") (y :: r) ++ [32; 124]))
      by (unfold pad; simpl; rewrite <- !app_assoc; reflexivity).
    rewrite split_app_sep by exact Hpad.
    rewrite IH by (discriminate || exact Hr). reflexivity.
Qed.

(** The cells of a pipe line are read back one for one. *)
Lemma splitCells_pipeLine (cells : list jsstring) :
  cells <> [] ->
  Forall (fun c => includes 124 c = false) cells ->
  splitCells (pipeLine cells) = map (fun c => trim (pad c)) cells.
Proof.
  intros Hne H. unfold splitCells.
  rewrite pipeLine_unfold, split_cons_sep, split_padded by assumption.
  rewrite map_cons, map_app, map_map. simpl map at 2.
  change (trim []) with (@nil N).
  cbv beta iota. change (jseqb [] []) with true. cbv beta iota.
  rewrite rev_app_distr. simpl rev at 1. cbn [app].
  change (jseqb [] []) with true. cbv beta iota.
  apply rev_involutive.
Qed.

Lemma pipeLine_wrapped (cells : list jsstring) : wrapped (pipeLine cells).
Proof.
  exists (32 :: join (js " | ") cells ++ [32]).
  rewrite pipeLine_unfold. simpl. rewrite <- app_assoc. reflexivity.
Qed.

Lemma trim_wrapped (s : jsstring) : wrapped s -> trim s = s.
Proof.
  intros [m ->]. unfold trim, trimEnd.
  change (trimStart (124 :: m ++ [124])) with (124 :: m ++ [124]).
  change (124 :: m ++ [124]) with ((124 :: m) ++ [124]) at 1.
  rewrite rev_app_distr.
  change (trimStart (rev [124] ++ rev (124 :: m)))
    with (rev [124] ++ rev (124 :: m)).
  rewrite <- rev_app_distr, rev_involutive. reflexivity.
Qed.

Lemma join_wrapped (lines : list jsstring) :
  lines <> [] -> Forall wrapped lines -> wrapped (join [LF] lines).
Proof.
  induction lines as [|x r IH]; intros Hne H; [congruence|].
  inversion H as [|? ? Hx Hr]; subst.
  destruct r as [|y r]; [exact Hx|].
  destruct Hx as [m ->].
  destruct (IH ltac:(discriminate) Hr) as [m' E].
  change (join [LF] ((124 :: m ++ [124]) :: y :: r))
    with ((124 :: m ++ [124]) ++ LF :: join [LF] (y :: r)).
  rewrite E. exists (m ++ [124] ++ LF :: 124 :: m').
  simpl. rewrite <- !app_assoc. reflexivity.
Qed.

Lemma includes_join (c : N) (sep : jsstring) (cells : list jsstring) :
  includes c sep = false ->
  Forall (fun x => includes c x = false) cells ->
  includes c (join sep cells) = false.
Proof.
  intros Hsep. induction cells as [|x r IH]; intros H; [reflexivity|].
  inversion H as [|? ? Hx Hr]; subst.
  destruct r as [|y r]; [exact Hx|].
  change (join sep (x :: y :: r)) with (x ++ sep ++ join sep (y :: r)).
  rewrite !includes_app, Hx, Hsep, (IH Hr). reflexivity.
Qed.

Lemma pipeLine_one_line (cells : list jsstring) :
  Forall (fun x => includes LF x = false) cells ->
  includes LF (pipeLine cells) = false.
Proof.
  intros H. unfold pipeLine.
  rewrite !includes_app, (includes_join LF (js " | ") cells);
    [reflexivity | reflexivity | exact H].
Qed.

Lemma filter_all {A : Type} (f : A -> bool) (l : list A) :
  Forall (fun x => f x = true) l -> filter f l = l.
Proof.
  induction 1 as [|x l Hx _ IH]; simpl; [reflexivity|].
  rewrite Hx, IH. reflexivity.
Qed.

(** [parseMarkdownTable] on a text whose lines are known. *)
Lemma parseMarkdownTable_lines (markdown h s : jsstring)
    (ds : list jsstring) :
  tableLines markdown = h :: s :: ds ->
  ds <> [] ->
  splitCells h <> [] ->
  Forall (fun l => length (splitCells l) = length (splitCells h)) ds ->
  exists td,
    parseMarkdownTable markdown = Some td /\
    length (headers td) = length (splitCells h) /\
    length (rows td) = length ds.
Proof.
  intros E Hds Hh Hall. unfold parseMarkdownTable.
  fold (tableLines markdown). rewrite E.
  change (nth 0 (h :: s :: ds) []) with h.
  change (skipn 2 (h :: s :: ds)) with ds.
  destruct ds as [|d ds']; [congruence|]. set (ds := d :: ds') in *.
  change (length (h :: s :: d :: ds') <? 3)%nat with false. cbv iota.
  rewrite length_map.
  destruct (splitCells h) as [|c0 cs] eqn:Ecells; [congruence|].
  change (length (c0 :: cs) =? 0)%nat with false. cbv iota.
  rewrite (rows_loop (fun line => map cleanCell (splitCells line))).
  rewrite app_nil_l, filter_cleaned, length_map.
  rewrite filter_all.
  - rewrite length_map. subst ds.
    change (length (d :: ds') =? 0)%nat with false. cbv iota.
    eexists. split; [reflexivity|]. cbn [headers rows].
    rewrite !length_map. split; reflexivity.
  - apply Forall_map. eapply Forall_impl; [|exact Hall].
    intros l Hl. apply Nat.eqb_eq. exact Hl.
Qed.

Lemma plainCells_pipeLine (cells : list Cell) :
  cells <> [] ->
  Forall plainCell cells ->
  wrapped (pipeLine (map cellString cells)) /\
  includes LF (pipeLine (map cellString cells)) = false /\
  length (splitCells (pipeLine (map cellString cells))) = length cells.
Proof.
  intros Hne H. split; [apply pipeLine_wrapped|]. split.
  - apply pipeLine_one_line. apply Forall_map.
    eapply Forall_impl; [|exact H]. intros c [_ Hc]; exact Hc.
  - rewrite splitCells_pipeLine.
    + rewrite !length_map. reflexivity.
    + destruct cells; [congruence | discriminate].
    + apply Forall_map. eapply Forall_impl; [|exact H].
      intros c [Hc _]; exact Hc.
Qed.

Lemma separator_pipeLine (cells : list jsstring) :
  cells <> [] ->
  wrapped (pipeLine (map (fun _ => js "---") cells)) /\
  includes LF (pipeLine (map (fun _ => js "---") cells)) = false.
Proof.
  intros Hne. split; [apply pipeLine_wrapped|].
  apply pipeLine_one_line. apply Forall_map.
  apply Forall_forall. intros; reflexivity.
Qed.

(** C5, amended. A table token with at least one column and at least one
    row, whose rows have as many cells as the header and whose cell texts
    have no pipe and no newline, becomes one [table] token with the
    canonical pipe form as content, and [parseMarkdownTable] reads that
    content back with the same number of headers and of rows. *)
Theorem table_round_trip (raw : option jsstring) (header : list Cell)
    (body : list (list Cell)) :
  header <> [] -> body <> [] ->
  Forall (fun row => length row = length header) body ->
  Forall plainCell header ->
  Forall (Forall plainCell) body ->
  tableRoundTrip raw header body.
Proof.
  intros Hh Hb Hrect Hhead Hbody. split; [reflexivity|].
  destruct (plainCells_pipeLine header Hh Hhead) as [Hw1 [Hl1 Hn1]].
  destruct (separator_pipeLine (map cellString header)) as [Hw2 Hl2].
  { destruct header; [congruence | discriminate]. }
  assert (Hrows : Forall (fun row : list Cell =>
                            wrapped (pipeLine (map cellString row)) /\
                            includes LF (pipeLine (map cellString row))
                            = false /\
                            length (splitCells (pipeLine (map cellString row)))
                            = length header) body).
  { apply Forall_forall. intros row Hin.
    rewrite Forall_forall in Hrect, Hbody.
    assert (Hne : row <> []).
    { intros ->. specialize (Hrect _ Hin). destruct header; [congruence|].
      discriminate. }
    destruct (plainCells_pipeLine row Hne (Hbody _ Hin)) as [A [B C]].
    repeat split; auto. rewrite C. apply Hrect, Hin. }
  set (h := pipeLine (map cellString header)) in *.
  set (s := pipeLine (map (fun _ => js "---") (map cellString header))) in *.
  set (ds := map (fun row => pipeLine (map cellString row)) body).
  assert (Hlines : tableLines (canonicalTable header body) = h :: s :: ds).
  { unfold tableLines, canonicalTable. fold h s ds.
    rewrite trim_wrapped.
    - rewrite split_join.
      + apply filter_all. constructor; [rewrite trim_wrapped by exact Hw1;
          destruct Hw1 as [m ->]; reflexivity|].
        constructor; [rewrite trim_wrapped by exact Hw2;
          destruct Hw2 as [m ->]; reflexivity|].
        subst ds. apply Forall_map. eapply Forall_impl; [|exact Hrows].
        intros row [Hw _]. rewrite trim_wrapped by exact Hw.
        destruct Hw as [m ->]; reflexivity.
      + discriminate.
      + constructor; [exact Hl1|]. constructor; [exact Hl2|].
        subst ds. apply Forall_map. eapply Forall_impl; [|exact Hrows].
        intros row [_ [Hl _]]; exact Hl.
    - apply join_wrapped; [discriminate|].
      constructor; [exact Hw1|]. constructor; [exact Hw2|].
      subst ds. apply Forall_map. eapply Forall_impl; [|exact Hrows].
      intros row [Hw _]; exact Hw. }
  destruct (parseMarkdownTable_lines _ h s ds Hlines) as [td [E [H1 H2]]].
  - subst ds. destruct body; [congruence | discriminate].
  - intros E. rewrite E in Hn1. destruct header; [congruence|discriminate].
  - subst ds. apply Forall_map. eapply Forall_impl; [|exact Hrows].
    intros row [_ [_ Hlen]]. rewrite Hlen, Hn1. reflexivity.
  - exists td. split; [exact E|]. split; [congruence|].
    rewrite H2. subst ds. apply length_map.
Qed.

(** C5 as stated fails on two valid tables: the one with a header and no
    row (read back, its canonical form is no table), and the one with a pipe
    in a header cell, written [a \| b] in Markdown (read back, the header has
    three cells and the only row is left out). *)
Lemma table_round_trip_fails :
  ~ tableRoundTrip None [cellOf "a"; cellOf "b"] [] /\
  ~ tableRoundTrip None [cellOf "a | b"; cellOf "c"]
      [[cellOf "1"; cellOf "2"]].
Proof.
  split; intros [_ [td [H _]]]; vm_compute in H; discriminate.
Qed.

Lemma table_round_trip_witness :
  tableRoundTrip None [cellOf "a"; cellOf "b"] [[cellOf "1"; cellOf "2"]].
Proof.
  apply table_round_trip.
  - discriminate.
  - discriminate.
  - repeat constructor.
  - repeat constructor.
  - repeat constructor.
Defined.

(** ** Global replacement on a text with one candidate position *)

Lemma startsWith_app (p s : jsstring) : startsWith p (p ++ s) = true.
Proof.
  induction p as [|x p IH]; simpl; [reflexivity|].
  rewrite N.eqb_refl. exact IH.
Qed.

Lemma skipn_length_app' (p s : jsstring) : skipn (length p) (p ++ s) = s.
Proof. induction p; simpl; auto. Qed.

Lemma startsWith_short (p s : jsstring) :
  (length s < length p)%nat -> startsWith p s = false.
Proof.
  revert s. induction p as [|x p IH]; intros [|y s]; simpl;
    try lia; try reflexivity.
  intros H. rewrite IH by lia. apply andb_false_r.
Qed.

Lemma startsWith_head (c : N) (p s : jsstring) :
  startsWith (c :: p) s = true -> exists t, s = c :: t.
Proof.
  destruct s as [|y t]; simpl; [discriminate|].
  destruct (N.eqb_spec c y) as [->|]; [eauto | discriminate].
Qed.

Lemma headed_Str (c : N) (p : jsstring) : headed (Str (c :: p)) c.
Proof.
  intros s x. unfold matchAt. cbn [matchK].
  destruct (startsWith (c :: p) s) eqn:E; [|discriminate].
  intros _. eapply startsWith_head, E.
Qed.

Lemma headed_Cat_Str (c : N) (p : jsstring) (r : re) :
  headed (Cat (Str (c :: p)) r) c.
Proof.
  intros s x. unfold matchAt. cbn [matchK].
  destruct (startsWith (c :: p) s) eqn:E; [|discriminate].
  intros _. eapply startsWith_head, E.
Qed.

(** Where [c] does not occur nothing is replaced. *)
Lemma replaceAllFrom_clean (r : re) (f : list jsstring -> jsstring)
    (c : N) :
  headed r c ->
  forall s n, includes c s = false -> replaceAllFrom r f s n = skipn n s.
Proof.
  intros Hr. induction s as [|x s IH]; intros n Hs.
  - destruct n; simpl; [|reflexivity].
    destruct (matchAt r []) as [y|] eqn:E; [|reflexivity].
    apply Hr in E. destruct E as [t E]. discriminate.
  - simpl in Hs. apply orb_false_iff in Hs. destruct Hs as [Hx Hs].
    destruct n; simpl.
    + destruct (matchAt r (x :: s)) as [y|] eqn:E.
      * apply Hr in E. destruct E as [t E]. injection E as -> _.
        rewrite N.eqb_refl in Hx. discriminate.
      * rewrite (IH O Hs). reflexivity.
    + apply IH, Hs.
Qed.

Lemma replaceAll_clean (r : re) (f : list jsstring -> jsstring) (c : N)
    (s : jsstring) :
  headed r c -> includes c s = false -> replaceAll r f s = s.
Proof.
  intros Hr Hs. unfold replaceAll.
  rewrite (replaceAllFrom_clean r f c Hr) by exact Hs. reflexivity.
Qed.

Lemma replaceAllFrom_prefix (r : re) (f : list jsstring -> jsstring)
    (c : N) :
  headed r c ->
  forall pre s,
    includes c pre = false ->
    replaceAllFrom r f (pre ++ s) 0 = pre ++ replaceAllFrom r f s 0.
Proof.
  intros Hr. induction pre as [|x pre IH]; intros s Hp; [reflexivity|].
  simpl in Hp. apply orb_false_iff in Hp. destruct Hp as [Hx Hp].
  cbn [app replaceAllFrom].
  destruct (matchAt r (x :: pre ++ s)) as [y|] eqn:E.
  - apply Hr in E. destruct E as [t E]. injection E as -> _.
    rewrite N.eqb_refl in Hx. discriminate.
  - rewrite (IH s Hp). reflexivity.
Qed.

(** One occurrence of [c], no match there: the text is kept. *)
Lemma replaceAll_one_unmatched (r : re) (f : list jsstring -> jsstring)
    (c : N) (pre body : jsstring) :
  headed r c ->
  includes c pre = false -> includes c body = false ->
  matchAt r (c :: body) = None ->
  replaceAll r f (pre ++ c :: body) = pre ++ c :: body.
Proof.
  intros Hr Hp Hb E. unfold replaceAll.
  rewrite (replaceAllFrom_prefix r f c Hr) by exact Hp.
  cbn [replaceAllFrom]. rewrite E.
  rewrite (replaceAllFrom_clean r f c Hr) by exact Hb. reflexivity.
Qed.

(** One occurrence of [c], a match there: the match is replaced, what is
    before and after is kept. *)
Lemma replaceAll_one_matched (r : re) (f : list jsstring -> jsstring)
    (c : N) (pre body mid rest : jsstring) (caps : list jsstring) :
  headed r c ->
  includes c pre = false -> includes c body = false ->
  body = mid ++ rest ->
  matchAt r (c :: body) = Some (caps, rest) ->
  replaceAll r f (pre ++ c :: body) = pre ++ f caps ++ rest.
Proof.
  intros Hr Hp Hb -> E. unfold replaceAll.
  rewrite (replaceAllFrom_prefix r f c Hr) by exact Hp.
  cbn [replaceAllFrom]. rewrite E.
  rewrite (replaceAllFrom_clean r f c Hr) by exact Hb.
  cbn [length]. rewrite length_app.
  replace (S (length mid + length rest) - length rest - 1)%nat
    with (length mid) by lia.
  rewrite skipn_length_app'. reflexivity.
Qed.

(** A one-character text is too short for a pattern that starts with a
    longer literal. *)
Lemma replaceAll_single (p : jsstring) (r : re)
    (f : list jsstring -> jsstring) (u : N) :
  (2 <= length p)%nat ->
  replaceAll (Str p +> r)%re f [u] = [u].
Proof.
  intros Hp. unfold replaceAll, replaceAllFrom, matchAt. cbn [matchK].
  rewrite !startsWith_short by (simpl; lia). reflexivity.
Qed.

(** The same for a literal pattern [p], whose first character is [c]. *)
Lemma replaceLiteral_unmatched (p : jsstring)
    (f : list jsstring -> jsstring) (c : N) (pre body : jsstring) :
  startsWith [c] p = true ->
  includes c pre = false -> includes c body = false ->
  startsWith p (c :: body) = false ->
  replaceAll (Str p) f (pre ++ c :: body) = pre ++ c :: body.
Proof.
  intros Hp Hpre Hb H. destruct p as [|y p]; [discriminate|].
  simpl in Hp. rewrite andb_true_r in Hp. apply N.eqb_eq in Hp. subst y.
  apply replaceAll_one_unmatched; auto using headed_Str.
  unfold matchAt. cbn [matchK]. rewrite H. reflexivity.
Qed.

Lemma replaceLiteral_matched (p : jsstring)
    (f : list jsstring -> jsstring) (c : N) (pre rest : jsstring) :
  includes c pre = false -> includes c (p ++ rest) = false ->
  replaceAll (Str (c :: p)) f (pre ++ c :: p ++ rest) = pre ++ f [] ++ rest.
Proof.
  intros Hpre Hb.
  apply (replaceAll_one_matched _ _ c pre (p ++ rest) p rest);
    auto using headed_Str.
  unfold matchAt. cbn [matchK].
  change (c :: p ++ rest) with ((c :: p) ++ rest).
  rewrite startsWith_app, skipn_length_app'. reflexivity.
Qed.

(** ** The reference patterns *)

(** A pattern [p ++ e] at the head of [body ++ e :: post], where [e] occurs
    neither in [p] nor in [body]: [body] is [p]. *)
Lemma startsWith_closed (e : N) (p : jsstring) (post : jsstring) :
  includes e p = false ->
  forall body,
    includes e body = false ->
    startsWith (p ++ [e]) (body ++ e :: post) = true -> body = p.
Proof.
  induction p as [|y p IH]; intros Hp body Hb H.
  - destruct body as [|x b]; [reflexivity|].
    simpl in H, Hb. apply orb_false_iff in Hb. destruct Hb as [Hx _].
    apply andb_true_iff in H. destruct H as [H _]. congruence.
  - simpl in Hp. apply orb_false_iff in Hp. destruct Hp as [Hy Hp].
    destruct body as [|x b]; simpl in H.
    + apply andb_true_iff in H. destruct H as [H _].
      rewrite N.eqb_sym in H. congruence.
    + apply andb_true_iff in H. destruct H as [Hxy H].
      apply N.eqb_eq in Hxy. subst x.
      simpl in Hb. apply orb_false_iff in Hb. destruct Hb as [_ Hb].
      f_equal. apply IH; assumption.
Qed.

Lemma not_closed (p body post : jsstring) :
  includes 59 p = false -> includes 59 body = false -> body <> p ->
  startsWith (p ++ [59]) (body ++ 59 :: post) = false.
Proof.
  intros Hp Hb Hne.
  destruct (startsWith (p ++ [59]) (body ++ 59 :: post)) eqn:E;
    [|reflexivity].
  exfalso. apply Hne. eapply startsWith_closed; eassumption.
Qed.

Lemma forallb_excludes (f : N -> bool) (c : N) (s : jsstring) :
  forallb f s = true -> f c = false -> includes c s = false.
Proof.
  intros H Hc. induction s as [|x s IH]; [reflexivity|].
  simpl in *. apply andb_true_iff in H. destruct H as [Hx H].
  rewrite (IH H), orb_false_r.
  destruct (N.eqb_spec c x) as [->|]; [congruence | reflexivity].
Qed.

Lemma firstn_forallb_le (f : N -> bool) (e : N) (j : nat)
    (s post : jsstring) :
  f e = false ->
  forallb f (firstn j (s ++ e :: post)) = true -> (j <= length s)%nat.
Proof.
  intros He. revert j. induction s as [|x s IH]; intros [|j]; simpl;
    try lia.
  - rewrite He. discriminate.
  - intros H. apply andb_true_iff in H. destruct H as [_ H].
    apply IH in H. lia.
Qed.

(** [/PRE(f+);/] on [PRE digits ; post]: the match ends after the [;] and
    the group is the digits. *)
Lemma matchAt_reference (pre : jsstring) (f : N -> bool)
    (d post : jsstring) :
  f 59 = false -> d <> [] -> forallb f d = true ->
  matchAt (Str pre +> Grp (Rep f 1 None false) +> Chr 59)%re
    (pre ++ d ++ 59 :: post)
  = Some ([d], post).
Proof.
  intros Hf Hd Hall. unfold matchAt. cbn [matchK].
  rewrite startsWith_app, skipn_length_app'.
  apply repGreedy_max.
  - exact Hall.
  - destruct d; [congruence | simpl; lia].
  - exact I.
  - left. exact Hf.
  - rewrite N.eqb_refl. rewrite length_app. cbn [length app].
    replace (length d + S (length post) - S (length post))%nat
      with (length d) by lia.
    rewrite firstn_app, firstn_all, Nat.sub_diag. cbn [firstn].
    rewrite app_nil_r. reflexivity.
Qed.

(** [/PRE(f+);/] on [PRE body ; post] when [body] is not a run of the
    class: no match. *)
Lemma matchAt_reference_fails (pre : jsstring) (f : N -> bool)
    (body post : jsstring) :
  f 59 = false -> includes 59 body = false ->
  ~ (body <> [] /\ forallb f body = true) ->
  matchAt (Str pre +> Grp (Rep f 1 None false) +> Chr 59)%re
    (pre ++ body ++ 59 :: post)
  = None.
Proof.
  intros Hf Hb Hnot. unfold matchAt. cbn [matchK].
  rewrite startsWith_app, skipn_length_app'.
  apply repGreedy_none. intros j Hj _ _ Hall.
  pose proof (firstn_forallb_le f 59 j body post Hf Hall) as Hle.
  destruct (Nat.eq_dec j (length body)) as [->|Hne].
  - exfalso. apply Hnot. split.
    + destruct body; [simpl in Hj; lia | discriminate].
    + rewrite firstn_app, firstn_all, Nat.sub_diag in Hall.
      cbn [firstn] in Hall. rewrite app_nil_r in Hall. exact Hall.
  - rewrite skipn_app.
    destruct (skipn j body) as [|x t] eqn:E.
    + apply (f_equal (@length N)) in E. rewrite length_skipn in E.
      simpl in E. lia.
    + assert (Hx : In x body).
      { rewrite <- (firstn_skipn j body), E. apply in_or_app. right.
        left. reflexivity. }
      cbn [app]. destruct (N.eqb_spec x 59) as [->|]; [|reflexivity].
      exfalso. unfold includes in Hb.
      assert (existsb (N.eqb 59) body = true); [|congruence].
      apply existsb_exists. exists 59. split; [exact Hx|].
      apply N.eqb_refl.
Qed.

(** ** Numeric character references in [preprocessText] *)

Section NumericReferences.

Variable double_charcode : N -> N.

#[local] Abbreviation preprocessText' := (preprocessText double_charcode).
#[local] Abbreviation fromCharCode' := (fromCharCode double_charcode).
#[local] Abbreviation decodeDecimal' := (decodeDecimal double_charcode).
#[local] Abbreviation decodeHex' := (decodeHex double_charcode).

Lemma headed_decimal : headed reDecimalRef 38.
Proof. apply (headed_Cat_Str 38 [35]). Qed.

Lemma headed_hex : headed reHexRef 38.
Proof. apply (headed_Cat_Str 38 [35; 120]). Qed.

Lemma headed_italic : headed reItalicTag 123.
Proof. apply (headed_Cat_Str 123 (js "italic}")). Qed.

Lemma headed_literal (lit : jsstring) :
  startsWith [38] lit = true -> headed (Str lit) 38.
Proof.
  destruct lit as [|c p]; [discriminate|]. cbn [startsWith].
  rewrite andb_true_r. intros H. apply N.eqb_eq in H. subst c.
  apply headed_Str.
Qed.

Lemma decodeHex_clean (s : jsstring) :
  includes 38 s = false -> decodeHex' s = s.
Proof. apply replaceAll_clean, headed_hex. Qed.

Lemma italicTags_clean (s : jsstring) :
  includes 123 s = false -> italicTags s = s.
Proof. apply replaceAll_clean, headed_italic. Qed.

(** On a text with one [&] that starts none of the literal entities, only
    the three pattern replacements of [preprocessText] are left. *)
Lemma preprocessText_patterns (pre body : jsstring) :
  includes 38 pre = false -> includes 38 body = false ->
  Forall (fun lit => startsWith lit (38 :: body) = false) namedEntities ->
  preprocessText' (pre ++ 38 :: body) =
  italicTags (decodeHex' (decodeDecimal' (pre ++ 38 :: body))).
Proof.
  intros Hp Hb H. unfold namedEntities in H.
  repeat match goal with
  | H : Forall _ (_ :: _) |- _ => inversion H; clear H; subst
  end.
  unfold preprocessText, replaceLit. cbv zeta.
  repeat (rewrite (replaceLiteral_unmatched _ _ 38 pre body)
            by (reflexivity || assumption)).
  reflexivity.
Qed.

(** Once the text has no [&] left, what remains of [preprocessText] after
    the literal [lit] is the italic replacement. *)
Ltac finish_clean text :=
  cbv beta;
  repeat (rewrite (replaceAll_clean _ _ 38 text)
            by first [ assumption
                     | apply headed_decimal
                     | apply headed_hex
                     | apply headed_literal; reflexivity ]);
  try unfold decodeHex;
  repeat (rewrite (replaceAll_clean _ _ 38 text)
            by first [assumption | apply headed_hex]);
  reflexivity.

Lemma named_miss (X : jsstring) :
  startsWith (js "39;") X = false ->
  startsWith (js "x27;") X = false ->
  startsWith (js "x2F;") X = false ->
  startsWith (js "x60;") X = false ->
  Forall (fun lit => startsWith lit (38 :: 35 :: X) = false) namedEntities.
Proof.
  intros H1 H2 H3 H4. unfold namedEntities.
  repeat constructor; try reflexivity; assumption.
Qed.

Lemma digits_not_x (p d post : jsstring) :
  d <> [] -> forallb isDigit d = true ->
  startsWith (120 :: p) (d ++ 59 :: post) = false.
Proof.
  intros Hd Hall. destruct d as [|x d']; [congruence|].
  simpl in Hall. apply andb_true_iff in Hall. destruct Hall as [Hx _].
  cbn [app startsWith].
  destruct (N.eqb_spec 120 x) as [<-|]; [discriminate | reflexivity].
Qed.

Lemma includes_reference (c : N) (f : N -> bool) (lead d post : jsstring) :
  f c = false -> forallb f d = true ->
  includes c lead = false -> (c =? 59) = false ->
  includes c post = false ->
  includes c (lead ++ d ++ 59 :: post) = false.
Proof.
  intros Hf Hd Hlead Hc Hpost.
  rewrite !includes_app, Hlead, (forallb_excludes f c d Hd Hf).
  simpl. rewrite Hc, Hpost. reflexivity.
Qed.

Lemma includes_char (c u : N) (pre post : jsstring) :
  includes c pre = false -> u <> c -> includes c post = false ->
  includes c (pre ++ u :: post) = false.
Proof.
  intros Hp Hu Hq. rewrite includes_app, Hp. simpl. rewrite Hq.
  replace (c =? u) with false; [reflexivity|].
  symmetry. apply N.eqb_neq. congruence.
Qed.

(** A decimal reference with one [&]-free text before it and one after:
    after the literal entities and the decimal replacement the reference is
    its character. *)
Lemma decimal_core (pre d post : jsstring) :
  includes 38 pre = false -> includes 38 post = false ->
  d <> [] -> forallb isDigit d = true ->
  preprocessText' (pre ++ js "&#" ++ d ++ js ";" ++ post) =
  italicTags (decodeHex' (pre ++ fromCharCode' (parseInt 10 d) ++ post)).
Proof.
  intros Hpre Hpost Hd Hall.
  destruct (list_eq_dec N.eq_dec d (js "39")) as [->|Hne].
  - change (fromCharCode' (parseInt 10 (js "39"))) with (js "'").
    assert (Hclean : includes 38 (pre ++ js "'" ++ post) = false)
      by (apply includes_char; [assumption | discriminate | assumption]).
    unfold preprocessText, replaceLit, italicTags. cbv zeta. f_equal.
    change (pre ++ js "&#" ++ js "39" ++ js ";" ++ post)
      with (pre ++ 38 :: js "#39;" ++ post).
    change (js "&#39;") with (38 :: js "#39;").
    rewrite (replaceLiteral_matched (js "#39;") _ 38 pre post);
      [|exact Hpre|rewrite includes_app, Hpost; reflexivity].
    finish_clean (pre ++ js "'" ++ post).
  - assert (H59 : includes 59 d = false)
      by (apply (forallb_excludes isDigit); [exact Hall | reflexivity]).
    assert (Hbody : includes 38 ([35] ++ d ++ 59 :: post) = false)
      by (apply (includes_reference 38 isDigit); auto).
    change (pre ++ js "&#" ++ d ++ js ";" ++ post)
      with (pre ++ 38 :: [35] ++ d ++ 59 :: post).
    rewrite preprocessText_patterns.
    + unfold decodeDecimal at 1.
      rewrite (replaceAll_one_matched reDecimalRef _ 38 pre _
                 ([35] ++ d ++ [59]) post [d]).
      * reflexivity.
      * exact headed_decimal.
      * exact Hpre.
      * exact Hbody.
      * simpl. rewrite <- app_assoc. reflexivity.
      * apply (matchAt_reference (js "&#") isDigit d post); auto.
    + exact Hpre.
    + exact Hbody.
    + apply (named_miss (d ++ 59 :: post)).
      * apply (not_closed (js "39")); auto.
      * apply digits_not_x; assumption.
      * apply digits_not_x; assumption.
      * apply digits_not_x; assumption.
Qed.

(** The literal entities before a matching one leave the text as it is. *)
Ltac skip_literals pre body :=
  repeat (rewrite (replaceLiteral_unmatched _ _ 38 pre body)
            by (reflexivity || assumption)).

(** The same for a hexadecimal reference; the decimal replacement passes
    over it. *)
Lemma hex_core (pre h post : jsstring) :
  includes 38 pre = false -> includes 38 post = false ->
  h <> [] -> forallb isHexDigit h = true ->
  preprocessText' (pre ++ js "&#x" ++ h ++ js ";" ++ post) =
  italicTags (pre ++ fromCharCode' (parseInt 16 h) ++ post).
Proof.
  intros Hpre Hpost Hh Hall.
  destruct (list_eq_dec N.eq_dec h (js "27")) as [->|Hne1];
    [|destruct (list_eq_dec N.eq_dec h (js "2F")) as [->|Hne2];
      [|destruct (list_eq_dec N.eq_dec h (js "60")) as [->|Hne3]]].
  - change (fromCharCode' (parseInt 16 (js "27"))) with (js "'").
    assert (Hclean : includes 38 (pre ++ js "'" ++ post) = false)
      by (apply includes_char; [assumption | discriminate | assumption]).
    assert (Hbody : includes 38 (js "#x27;" ++ post) = false)
      by (rewrite includes_app, Hpost; reflexivity).
    unfold preprocessText, replaceLit, italicTags. cbv zeta. f_equal.
    change (pre ++ js "&#x" ++ js "27" ++ js ";" ++ post)
      with (pre ++ 38 :: js "#x27;" ++ post).
    skip_literals pre (js "#x27;" ++ post).
    change (js "&#x27;") with (38 :: js "#x27;").
    rewrite (replaceLiteral_matched (js "#x27;") _ 38 pre post)
      by assumption.
    finish_clean (pre ++ js "'" ++ post).
  - change (fromCharCode' (parseInt 16 (js "2F"))) with (js "/").
    assert (Hclean : includes 38 (pre ++ js "/" ++ post) = false)
      by (apply includes_char; [assumption | discriminate | assumption]).
    assert (Hbody : includes 38 (js "#x2F;" ++ post) = false)
      by (rewrite includes_app, Hpost; reflexivity).
    unfold preprocessText, replaceLit, italicTags. cbv zeta. f_equal.
    change (pre ++ js "&#x" ++ js "2F" ++ js ";" ++ post)
      with (pre ++ 38 :: js "#x2F;" ++ post).
    skip_literals pre (js "#x2F;" ++ post).
    change (js "&#x2F;") with (38 :: js "#x2F;").
    rewrite (replaceLiteral_matched (js "#x2F;") _ 38 pre post)
      by assumption.
    finish_clean (pre ++ js "/" ++ post).
  - change (fromCharCode' (parseInt 16 (js "60"))) with (js "`").
    assert (Hclean : includes 38 (pre ++ js "`" ++ post) = false)
      by (apply includes_char; [assumption | discriminate | assumption]).
    assert (Hbody : includes 38 (js "#x60;" ++ post) = false)
      by (rewrite includes_app, Hpost; reflexivity).
    unfold preprocessText, replaceLit, italicTags. cbv zeta. f_equal.
    change (pre ++ js "&#x" ++ js "60" ++ js ";" ++ post)
      with (pre ++ 38 :: js "#x60;" ++ post).
    skip_literals pre (js "#x60;" ++ post).
    change (js "&#x60;") with (38 :: js "#x60;").
    rewrite (replaceLiteral_matched (js "#x60;") _ 38 pre post)
      by assumption.
    finish_clean (pre ++ js "`" ++ post).
  - assert (H59 : includes 59 h = false)
      by (apply (forallb_excludes isHexDigit); [exact Hall | reflexivity]).
    assert (Hbody : includes 38 ([35; 120] ++ h ++ 59 :: post) = false)
      by (apply (includes_reference 38 isHexDigit); auto).
    change (pre ++ js "&#x" ++ h ++ js ";" ++ post)
      with (pre ++ 38 :: [35; 120] ++ h ++ 59 :: post).
    rewrite preprocessText_patterns.
    + unfold decodeDecimal.
      rewrite (replaceAll_one_unmatched reDecimalRef _ 38 pre
                 ([35; 120] ++ h ++ 59 :: post)).
      * unfold decodeHex.
        rewrite (replaceAll_one_matched reHexRef _ 38 pre _
                   ([35; 120] ++ h ++ [59]) post [h]).
        -- reflexivity.
        -- exact headed_hex.
        -- exact Hpre.
        -- exact Hbody.
        -- simpl. rewrite <- app_assoc. reflexivity.
        -- apply (matchAt_reference (js "&#x") isHexDigit h post); auto.
      * exact headed_decimal.
      * exact Hpre.
      * exact Hbody.
      * reflexivity.
    + exact Hpre.
    + exact Hbody.
    + apply (named_miss (120 :: h ++ 59 :: post)).
      * reflexivity.
      * apply (not_closed (js "27")); auto.
      * apply (not_closed (js "2F")); auto.
      * apply (not_closed (js "60")); auto.
Qed.

(** A text [&#...;] whose inside is neither decimal digits nor [x] and
    hexadecimal digits is kept, with what is before and after it. *)
Lemma malformed_reference_kept (pre body post : jsstring) :
  includes 38 pre = false -> includes 123 pre = false ->
  includes 38 post = false -> includes 123 post = false ->
  includes 38 body = false ->
  includes 59 body = false ->
  includes 123 body = false ->
  ~ (body <> [] /\ forallb isDigit body = true) ->
  ~ (exists h, body = 120 :: h /\ h <> [] /\ forallb isHexDigit h = true) ->
  preprocessText' (pre ++ js "&#" ++ body ++ js ";" ++ post)
  = pre ++ js "&#" ++ body ++ js ";" ++ post.
Proof.
  intros Hpre Hpre' Hpost Hpost' Hamp Hsemi Hbrace Hdec Hhex.
  change (pre ++ js "&#" ++ body ++ js ";" ++ post)
    with (pre ++ 38 :: [35] ++ body ++ 59 :: post).
  assert (Hbody : includes 38 ([35] ++ body ++ 59 :: post) = false).
  { rewrite !includes_app, Hamp. simpl. exact Hpost. }
  rewrite preprocessText_patterns.
  - unfold decodeDecimal.
    rewrite (replaceAll_one_unmatched reDecimalRef _ 38 pre
               ([35] ++ body ++ 59 :: post)).
    + unfold decodeHex.
      rewrite (replaceAll_one_unmatched reHexRef _ 38 pre
                 ([35] ++ body ++ 59 :: post)).
      * apply italicTags_clean.
        rewrite includes_app, Hpre'.
        change (38 :: [35] ++ body ++ 59 :: post)
          with ([38; 35] ++ body ++ 59 :: post).
        rewrite !includes_app, Hbrace. simpl. exact Hpost'.
      * exact headed_hex.
      * exact Hpre.
      * exact Hbody.
      * destruct body as [|x b]; [reflexivity|].
        destruct (N.eqb_spec 120 x) as [<-|Hx].
        -- apply (matchAt_reference_fails (js "&#x") isHexDigit b post).
           ++ reflexivity.
           ++ exact Hsemi.
           ++ intros [Hb Hall]. apply Hhex. exists b. auto.
        -- unfold matchAt, reHexRef. cbn [matchK].
           change (startsWith (js "&#x")
                     (38 :: [35] ++ (x :: b) ++ 59 :: post))
             with ((120 =? x) && true).
           apply N.eqb_neq in Hx. rewrite Hx. reflexivity.
    + exact headed_decimal.
    + exact Hpre.
    + exact Hbody.
    + apply (matchAt_reference_fails (js "&#") isDigit body post); auto.
  - exact Hpre.
  - exact Hbody.
  - apply (named_miss (body ++ 59 :: post)).
    + apply (not_closed (js "39")); auto.
      intros ->. apply Hdec. split; [discriminate | reflexivity].
    + apply (not_closed (js "x27")); auto.
      intros ->. apply Hhex. exists (js "27").
      repeat split; [discriminate].
    + apply (not_closed (js "x2F")); auto.
      intros ->. apply Hhex. exists (js "2F").
      repeat split; [discriminate].
    + apply (not_closed (js "x60")); auto.
      intros ->. apply Hhex. exists (js "60").
      repeat split; [discriminate].
Qed.


End NumericReferences.


(** * Examples *)

(** The table of the specification in canonical pipe form. *)
Example canonical_table :
  convertTableTokenToMarkdown
    (tableToken None [cellOf "a"; cellOf "b"] [[cellOf "1"; cellOf "2"]])
  = js "| a | b |" ++ [LF] ++ js "| --- | --- |" ++ [LF] ++ js "| 1 | 2 |".
Proof. reflexivity. Qed.

(** A cell object with an empty text is stringified. *)
Example empty_cell :
  cellString (CellObj (Some []) None) = js "[object Object]".
Proof. reflexivity. Qed.

(** The fallback parser on a line with an open bold run. *)
Example fallback_open_bold :
  map (fun t => (p_type t, provisional t))
    (parsePartial (js "**unterminated bold with [broken link("))
  = [(js "text", true)].
Proof. reflexivity. Qed.

(** The item prefix pattern takes one character of the marker. *)
Example numbered_item :
  p_content (parseIncompleteLine (js "12. x")) = Some (js "2. x").
Proof. reflexivity. Qed.

(** Matches of different patterns may overlap. *)
Example inline_overlap :
  map (fun t => (m_type t, m_text t))
    (parseInlineFromText (js "This is **bold** text."))
  = [ (js "text", Some (js "This is "));
      (js "strong", Some (js "bold"));
      (js "em", Some (js "bold"));
      (js "text", Some (js "* text.")) ].
Proof. reflexivity. Qed.

(** A reference to [&] is decoded twice when a reference follows it, and a
    code beyond 16 bits wraps. *)
Example double_decoding :
  preprocessText exactCharcode (js "&#38;#x41;") = js "A" /\
  preprocessText exactCharcode (js "&#65601;") = js "A".
Proof. split; reflexivity. Qed.

(** Seven [#] do not make a heading line. *)
Example seven_hashes :
  p_type (parseIncompleteLine (js "####### x")) = js "text".
Proof. reflexivity. Qed.

(** * Further properties *)

(** ** The buffer and the stored tokens *)

(** X1. [preprocessText] leaves a text without [&] and without [{] as it
    is; ANSI escape sequences in particular pass through. *)
Theorem preprocessText_clean (double_charcode : N -> N) (s : jsstring) :
  clean s -> preprocessText double_charcode s = s.
Proof.
  intros [Hamp Hbrace]. unfold preprocessText, replaceLit. cbv zeta.
  repeat (rewrite (replaceAll_clean _ _ 38 s)
            by first [ assumption
                     | apply headed_decimal
                     | apply headed_hex
                     | apply headed_literal; reflexivity ]).
  apply (replaceAll_clean _ _ 123); [apply headed_italic | assumption].
Qed.

Lemma preprocessText_clean_witness :
  preprocessText exactCharcode ([27] ++ js "[31mred" ++ [27] ++ js "[0m")
  = [27] ++ js "[31mred" ++ [27] ++ js "[0m".
Proof.
  apply preprocessText_clean. split; reflexivity.
Defined.

(** X2. After a session the buffer is the buffer of before followed by the
    preprocessed chunks in their order, the flag is the one the parser was
    made with, and each call has returned; after [clear] the buffer is the
    preprocessed chunks alone. *)
Theorem buffer_accumulates (lexer : jsstring -> outcome (list MToken))
    (double_charcode : N -> N) (chunks : list jsstring) :
  forall (p p' : Parser) (results : list (list ParsedToken)),
    addChunks lexer double_charcode p chunks = Ok (p', results) ->
    getBuffer p'
    = getBuffer p ++ concat (map (preprocessText double_charcode) chunks) /\
    parseIncomplete p' = parseIncomplete p /\
    length results = length chunks /\
    (forall q q' results',
       addChunks lexer double_charcode (clear q) chunks = Ok (q', results') ->
       getBuffer q' = concat (map (preprocessText double_charcode) chunks)).
Proof.
  assert (main : forall (p p' : Parser) results,
             addChunks lexer double_charcode p chunks = Ok (p', results) ->
             getBuffer p'
             = getBuffer p
               ++ concat (map (preprocessText double_charcode) chunks) /\
             parseIncomplete p' = parseIncomplete p /\
             length results = length chunks).
  { induction chunks as [|chunk r IH]; intros p p' results H.
    - simpl in H. injection H as <- <-. simpl. rewrite app_nil_r. auto.
    - simpl in H.
      destruct (addChunk_cases lexer double_charcode p chunk)
        as [[toks [_ E]]|[_ E]]; rewrite E in H; simpl in H;
        match type of H with
        | context [addChunks _ _ ?q r] =>
            destruct (addChunks lexer double_charcode q r)
              as [[p2 results2]|] eqn:E2; [|discriminate];
            simpl in H; injection H as <- <-;
            destruct (IH _ _ _ E2) as [Hb [Hf Hl]]
        end;
        unfold getBuffer in *; rewrite Hb; simpl;
        rewrite <- app_assoc; repeat split; auto; congruence. }
  intros p p' results H. destruct (main p p' results H) as [H1 [H2 H3]].
  repeat split; auto.
  intros q q' results' Hq. apply main in Hq. tauto.
Qed.

Lemma buffer_accumulates_witness :
  exists p' results,
    addChunks throwingLexer exactCharcode (newParser true)
      [js "a &am"; js "p; b"; js "&lt;"] = Ok (p', results) /\
    getBuffer p' = js "a &amp; b<".
Proof.
  eexists _, _. split; [reflexivity|].
  exact (proj1 (buffer_accumulates throwingLexer exactCharcode
                  [js "a &am"; js "p; b"; js "&lt;"] (newParser true)
                  _ _ eq_refl)).
Defined.

(** [handleIncompleteMarkdown] keeps the list, or flags its last token. *)
Lemma handleIncompleteMarkdown_cases (toks : list ParsedToken)
    (buf : jsstring) :
  handleIncompleteMarkdown toks buf = toks \/
  exists front x,
    toks = front ++ [x] /\
    handleIncompleteMarkdown toks buf = front ++ [setIncomplete x] /\
    truthy (p_content x) = true /\
    existsb (fun pattern => patternTest pattern buf) incompletePatterns
    = true.
Proof.
  destruct (list_last_cases toks) as [->|[front [x ->]]]; [left; reflexivity|].
  rewrite handleIncompleteMarkdown_last, markLast_spec.
  destruct (existsb _ incompletePatterns) eqn:E1; simpl;
    [|left; reflexivity].
  destruct (truthy (p_content x)) eqn:E2; [|left; reflexivity].
  right. exists front, x. auto.
Qed.

(** X3. What [handleIncompleteMarkdown] adds to a successful parse is the
    flag of the last token and nothing else: without the option no returned
    token is flagged, and with it the returned tokens are those of the same
    buffer without the option, the last one flagged at most. *)
Theorem incomplete_option_only_flags_last
    (lexer : jsstring -> outcome (list MToken)) (buf : jsstring)
    (stored stored' : list ParsedToken) (off on : list ParsedToken) :
  parsePrimary lexer (mkParser buf stored false) = Ok off ->
  parsePrimary lexer (mkParser buf stored' true) = Ok on ->
  Forall (fun t => p_incomplete t = None) off /\
  map unflagged on = map unflagged off /\
  (on = off \/
   exists front x,
     off = front ++ [x] /\ on = front ++ [setIncomplete x] /\
     truthy (p_content x) = true).
Proof.
  intros Hoff Hon.
  pose proof (parsePrimary_fresh lexer _ _ Hoff) as [toks0 [Hfresh E0]].
  simpl in E0. subst off.
  unfold parsePrimary in Hoff, Hon. simpl in Hoff, Hon.
  destruct (lexer buf) as [markedTokens|]; simpl in *; [|discriminate].
  destruct (convertTokens _) as [toks|]; simpl in *; [|discriminate].
  injection Hoff as <-. injection Hon as <-.
  split; [eapply Forall_impl; [|exact Hfresh]; intros t [_ H]; exact H|].
  destruct (handleIncompleteMarkdown_cases toks buf)
    as [->|[front [x [-> [-> [Hc _]]]]]].
  - split; [reflexivity | left; reflexivity].
  - split.
    + rewrite !map_app. reflexivity.
    + right. exists front, x. auto.
Qed.

Lemma incomplete_option_only_flags_last_witness :
  exists off on,
    parsePrimary (constLexer [openEmParagraph])
      (mkParser (js "*a") [] false) = Ok off /\
    parsePrimary (constLexer [openEmParagraph])
      (mkParser (js "*a") [] true) = Ok on /\
    map unflagged on = map unflagged off /\ on <> off.
Proof.
  eexists _, _. split; [reflexivity|]. split; [reflexivity|].
  split.
  - exact (proj1 (proj2 (incomplete_option_only_flags_last
                           (constLexer [openEmParagraph]) (js "*a") [] []
                           _ _ eq_refl eq_refl))).
  - discriminate.
Defined.

(** ** The fallback line parser on a growing buffer *)

Lemma split_not_nil (sep : N) (s : jsstring) : split sep s <> [].
Proof.
  destruct s as [|c r]; simpl; [discriminate|].
  destruct (c =? sep); [discriminate|].
  destruct (split sep r); discriminate.
Qed.

(** Splitting distributes over a separator. *)
Lemma split_app (sep : N) (a b : jsstring) :
  split sep (a ++ sep :: b) = split sep a ++ split sep b.
Proof.
  induction a as [|c a IH]; [apply split_cons_sep|].
  cbn [app split]. rewrite IH.
  destruct (c =? sep); [reflexivity|].
  pose proof (split_not_nil sep a).
  destruct (split sep a); [congruence | reflexivity].
Qed.

(** X4. The fallback line parser works line by line: the tokens of a buffer
    that goes on after a newline are the tokens of what came before the
    newline, followed by the tokens of what comes after it. *)
Theorem parsePartial_app (a b : jsstring) :
  parsePartial (a ++ LF :: b) = parsePartial a ++ parsePartial b.
Proof.
  unfold parsePartial. rewrite split_app, filter_app, map_app. reflexivity.
Qed.

(** ** Flattening *)

Lemma leaf_type_cases (ty : jsstring) :
  isInlineLeaf ty = true ->
  ty <> js "paragraph" /\ ty <> js "blockquote" /\ ty <> js "list".
Proof.
  unfold isInlineLeaf. rewrite !orb_true_iff, !jseqb_eq.
  intros H. repeat split; intros ->; vm_compute in H;
    intuition discriminate.
Qed.

Lemma flattenInlineToken_flat (t : MToken) :
  Forall flat (flattenInlineToken t).
Proof.
  induction t as [ty raw text lang depth ordered toks items header rows IH]
    using MToken_children_ind.
  simpl. destruct (isInlineLeaf ty) eqn:Eleaf.
  - constructor; [left; exact Eleaf | constructor].
  - destruct toks as [[|x r]|].
    + constructor; [right; right; reflexivity | constructor].
    + clear Eleaf. induction (x :: r) as [|y l IHl]; [constructor|].
      inversion IH; subst. simpl. apply Forall_app. split; auto.
    + constructor; [right; left; reflexivity | constructor].
Qed.

Lemma flattenInlineTokens_flat (l : list MToken) :
  Forall flat (flattenInlineTokens l).
Proof.
  unfold flattenInlineTokens. induction l as [|t r IH]; [constructor|].
  simpl. apply Forall_app. split; [apply flattenInlineToken_flat | exact IH].
Qed.

Lemma inlineType_leaf (ty : jsstring) :
  inlineType ty -> isInlineLeaf ty = true.
Proof.
  unfold inlineType. simpl.
  intros H. repeat (destruct H as [<-|H]; [reflexivity|]). destruct H.
Qed.

Lemma insertByStart_types (P : imatch -> Prop) (m : imatch)
    (l : list imatch) :
  P m -> Forall P l -> Forall P (insertByStart m l).
Proof.
  intros Hm. induction 1 as [|x l Hx Hl IH]; simpl.
  - repeat constructor; exact Hm.
  - destruct (i_start m <? i_start x)%nat; repeat constructor; auto.
Qed.

Lemma sortByStart_types (P : imatch -> Prop) (l : list imatch) :
  Forall P l -> Forall P (sortByStart l).
Proof.
  unfold sortByStart. intros H.
  assert (G : forall acc, Forall P acc ->
                          Forall P (fold_left
                                      (fun acc m => insertByStart m acc)
                                      l acc)).
  { induction H as [|x l Hx Hl IH]; intros acc Hacc; simpl; [exact Hacc|].
    apply IH, insertByStart_types; assumption. }
  apply G. constructor.
Qed.

Lemma textTok_types (s : jsstring) :
  Forall (fun t => inlineType (m_type t) /\ m_tokens t = None) (textTok s).
Proof.
  unfold textTok. destruct (nonEmpty (trim s)); repeat constructor.
Qed.

(** The tokens of [parseInlineFromText] are inline leaves without
    children. *)
Lemma parseInlineFromText_types (text : jsstring) :
  Forall (fun t => inlineType (m_type t) /\ m_tokens t = None)
    (parseInlineFromText text).
Proof.
  unfold parseInlineFromText.
  set (matches := sortByStart (flat_map (matchesOf text) inlinePatterns)).
  assert (Hm : Forall (fun m => inlineType (i_type m)) matches).
  { apply sortByStart_types. apply Forall_flat_map.
    apply Forall_forall. intros pattern Hin.
    unfold matchesOf. apply Forall_map. apply Forall_forall. intros m _.
    simpl. right. apply in_map. exact Hin. }
  set (P := fun t : MToken => inlineType (m_type t) /\ m_tokens t = None).
  assert (G : forall st,
             Forall P (fst st) ->
             Forall P
               (fst (fold_left
                       (fun (st : list MToken * nat) (m : imatch) =>
                          let '(toks, lastEnd) := st in
                          let before :=
                            if (lastEnd <? i_start m)%nat
                            then textTok (slice lastEnd (i_start m) text)
                            else [] in
                          (toks ++ before
                             ++ [inlineTok (i_type m)
                                   (slice (i_start m) (i_end m) text)
                                   (i_content m)],
                           i_end m))
                       matches st))).
  { induction Hm as [|m l Hmty Hl IH]; intros [toks lastEnd] Hst;
      [exact Hst|].
    cbn [fold_left]. apply IH. cbn [fst].
    apply Forall_app. split; [exact Hst|].
    apply Forall_app. split.
    - destruct (lastEnd <? i_start m)%nat;
        [apply textTok_types | constructor].
    - constructor; [split; [exact Hmty | reflexivity] | constructor]. }
  specialize (G ([], O) (Forall_nil _)).
  destruct (fold_left _ matches ([], O)) as [toks lastEnd].
  cbn [fst] in G.
  destruct (lastEnd <? length text)%nat; [|exact G].
  apply Forall_app. split; [exact G | apply textTok_types].
Qed.

Lemma processInlineToken_shape (t : MToken) :
  Forall
    (fun u =>
       (m_type u = js "paragraph" \/ m_type u = js "blockquote") ->
       childless u)
    (processInlineToken t).
Proof.
  induction t as [ty raw text lang depth ordered toks items header rows IH]
    using MToken_children_ind.
  assert (inline : forall s,
             Forall
               (fun u =>
                  (m_type u = js "paragraph" \/ m_type u = js "blockquote") ->
                  childless u)
               (parseInlineFromText s)).
  { intros s. eapply Forall_impl; [|apply parseInlineFromText_types].
    intros u [_ Hch] _. left. exact Hch. }
  simpl. destruct (jseqb ty (js "paragraph")) eqn:Epar.
  - destruct toks as [[|x r]|].
    + destruct (parseInlineFromText _) as [|u l] eqn:E.
      * constructor; [intros _; right; reflexivity | constructor].
      * rewrite <- E. apply inline.
    + eapply Forall_impl; [|apply flattenInlineTokens_flat].
      intros u [Hleaf|Hch] Hty; [|exact Hch].
      apply leaf_type_cases in Hleaf. destruct Hty; tauto.
    + destruct (parseInlineFromText _) as [|u l] eqn:E.
      * constructor; [intros _; left; reflexivity | constructor].
      * rewrite <- E. apply inline.
  - destruct (jseqb ty (js "blockquote")) eqn:Ebq.
    + destruct toks as [[|x r]|].
      * constructor; [intros _; right; reflexivity | constructor].
      * clear inline. induction (x :: r) as [|y l IHl]; [constructor|].
        inversion IH; subst. simpl. apply Forall_app. split; auto.
      * constructor; [intros _; left; reflexivity | constructor].
    + constructor; [|constructor]. simpl. intros [H|H]; subst ty.
      * rewrite jseqb_refl in Epar. discriminate.
      * rewrite jseqb_refl in Ebq. discriminate.
Qed.

(** X5. Flattening goes all the way down: every token that
    [flattenInlineTokens] returns is an inline leaf ([em], [strong],
    [codespan], [link], [del], [text]) or has no children, and no paragraph
    or blockquote that [processInlineTokens] returns has children. *)
Theorem flattening_is_complete (l : list MToken) :
  Forall flat (flattenInlineTokens l) /\
  Forall
    (fun u =>
       (m_type u = js "paragraph" \/ m_type u = js "blockquote") ->
       childless u)
    (processInlineTokens l).
Proof.
  split; [apply flattenInlineTokens_flat|].
  unfold processInlineTokens. induction l as [|t r IH]; [constructor|].
  simpl. apply Forall_app. split; [apply processInlineToken_shape | exact IH].
Qed.

(** ** When the [try] block throws *)

Lemma wellFormed_children ty raw text lang depth ordered children items
    header rows :
  wellFormed
    (mkMToken ty raw text lang depth ordered (Some children) items header
       rows) ->
  Forall wellFormed children.
Proof. intros H. inversion H; subst. auto. Qed.

Lemma convertToken_ok (t : MToken) :
  wellFormed t -> exists l, convertToken t = Ok l.
Proof.
  induction t as [ty raw text lang depth ordered toks items header rows IH]
    using MToken_children_ind.
  intros Hwf. inversion Hwf as [? ? ? ? ? ? ? ? ? ? Hbq Hlist Hch]; subst.
  simpl.
  repeat match goal with
  | |- exists l, (if ?c then _ else _) = Ok l => destruct c eqn:?
  end; try (eexists; reflexivity).
  - (* blockquote *)
    destruct toks as [children|].
    + specialize (Hch children eq_refl). clear Hbq Hlist Hwf.
      induction children as [|x r IHr]; [eexists; reflexivity|].
      inversion IH; subst. inversion Hch; subst.
      destruct (H1 H3) as [a ->]. simpl.
      destruct (IHr H2 H4) as [b ->]. simpl. eexists; reflexivity.
    + exfalso. apply Hbq; [|reflexivity]. apply jseqb_eq. assumption.
  - (* list *)
    destruct items as [its|]; [eexists; reflexivity|].
    exfalso. apply Hlist; [|reflexivity]. apply jseqb_eq. assumption.
Qed.

Lemma convertTokens_ok (l : list MToken) :
  Forall wellFormed l -> exists toks, convertTokens l = Ok toks.
Proof.
  induction 1 as [|t r Ht Hr IH]; [eexists; reflexivity|].
  simpl. destruct (convertToken_ok t Ht) as [a ->].
  destruct IH as [b ->]. eexists; reflexivity.
Qed.

Lemma wellFormed_detectDiagram (t : MToken) :
  wellFormed t -> wellFormed (detectDiagram t).
Proof.
  intros H. unfold detectDiagram.
  assert (G : wellFormed
                (withTypeText t (js "mermaid")
                   (jsor (m_text t) (m_raw t)))).
  { inversion H; subst. unfold withTypeText. simpl.
    constructor; [discriminate | discriminate | assumption]. }
  destruct (_ && _); [exact G|]. destruct (_ && _); [exact G | exact H].
Qed.

Lemma wellFormed_flatten (t : MToken) :
  wellFormed t -> Forall wellFormed (flattenInlineToken t).
Proof.
  induction t as [ty raw text lang depth ordered toks items header rows IH]
    using MToken_children_ind.
  intros Hwf. simpl. destruct (isInlineLeaf ty); [constructor; [assumption | constructor]|].
  destruct toks as [[|x r]|]; try (constructor; [assumption | constructor]).
  apply wellFormed_children in Hwf.
  induction (x :: r) as [|y l IHl]; [constructor|].
  inversion IH; subst. inversion Hwf; subst.
  simpl. apply Forall_app. split; auto.
Qed.

Lemma wellFormed_inline (s : jsstring) :
  Forall wellFormed (parseInlineFromText s).
Proof.
  eapply Forall_impl; [|apply parseInlineFromText_types].
  intros [ty raw text lang depth ordered toks items header rows].
  simpl. intros [Hty ->]. apply inlineType_leaf, leaf_type_cases in Hty.
  constructor; [tauto | tauto | discriminate].
Qed.

Lemma wellFormed_processInline (t : MToken) :
  wellFormed t -> Forall wellFormed (processInlineToken t).
Proof.
  induction t as [ty raw text lang depth ordered toks items header rows IH]
    using MToken_children_ind.
  intros Hwf. simpl. destruct (jseqb ty (js "paragraph")).
  - destruct toks as [[|x r]|].
    + destruct (parseInlineFromText _) eqn:E;
        [constructor; [assumption | constructor]|].
      rewrite <- E. apply wellFormed_inline.
    + apply wellFormed_children in Hwf. unfold flattenInlineTokens.
      clear IH. induction Hwf as [|y l Hy Hl IHl]; [constructor|].
      simpl. apply Forall_app. split; [apply wellFormed_flatten, Hy | exact IHl].
    + destruct (parseInlineFromText _) eqn:E;
        [constructor; [assumption | constructor]|].
      rewrite <- E. apply wellFormed_inline.
  - destruct (jseqb ty (js "blockquote"));
      [|constructor; [assumption | constructor]].
    destruct toks as [[|x r]|]; try (constructor; [assumption | constructor]).
    apply wellFormed_children in Hwf.
    induction (x :: r) as [|y l IHl]; [constructor|].
    inversion IH; subst. inversion Hwf; subst.
    simpl. apply Forall_app. split; auto.
Qed.

(** X6. When the lexer answers with well-formed tokens (every blockquote
    with its [tokens], every list with its [items]), nothing in the [try]
    block of [parse] throws: [addChunk] returns the tokens of the primary
    path and stores them, and the line parser is not called. *)
Theorem primary_path_on_well_formed_tokens
    (lexer : jsstring -> outcome (list MToken)) (double_charcode : N -> N)
    (p : Parser) (chunk : jsstring) (markedTokens : list MToken) :
  lexer (buffer (withChunk double_charcode p chunk)) = Ok markedTokens ->
  Forall wellFormed markedTokens ->
  exists toks,
    parsePrimary lexer (withChunk double_charcode p chunk) = Ok toks /\
    addChunk lexer double_charcode p chunk
    = Ok (mkParser (buffer (withChunk double_charcode p chunk)) toks
            (parseIncomplete p), toks).
Proof.
  intros Hlex Hwf.
  assert (H : exists toks,
             parsePrimary lexer (withChunk double_charcode p chunk)
             = Ok toks).
  { unfold parsePrimary. rewrite Hlex. simpl.
    destruct (convertTokens_ok
                (processTokensWithDiagramDetection markedTokens))
      as [toks0 ->].
    - unfold processTokensWithDiagramDetection, processInlineTokens.
      clear Hlex. induction Hwf as [|t r Ht Hr IH]; [constructor|].
      simpl. apply Forall_app. split; [|exact IH].
      apply wellFormed_processInline, wellFormed_detectDiagram, Ht.
    - simpl. eexists; reflexivity. }
  destruct H as [toks H]. exists toks. split; [exact H|].
  destruct (addChunk_cases lexer double_charcode p chunk)
    as [[toks' [E ->]]|[E _]]; congruence.
Qed.

Lemma primary_path_on_well_formed_tokens_witness :
  exists toks,
    addChunk (constLexer [openEmParagraph; hrToken]) exactCharcode
      (newParser true) (js "*a")
    = Ok (mkParser (js "*a") toks true, toks).
Proof.
  destruct (primary_path_on_well_formed_tokens
              (constLexer [openEmParagraph; hrToken]) exactCharcode
              (newParser true) (js "*a") [openEmParagraph; hrToken]
              eq_refl) as [toks [_ H]].
  - repeat constructor; try discriminate.
    intros children E. injection E as <-.
    repeat constructor; discriminate.
  - exists toks. exact H.
Defined.

Lemma convertTokens_throws (a b : list MToken) (t : MToken) :
  convertToken t = Throw -> convertTokens (a ++ t :: b) = Throw.
Proof.
  intros H. induction a as [|x a IH]; simpl.
  - rewrite H. reflexivity.
  - destruct (convertToken x); simpl; [|reflexivity].
    rewrite IH. reflexivity.
Qed.

Lemma list_token_kept (t : MToken) :
  m_type t = js "list" ->
  detectDiagram t = t /\ processInlineToken t = [t].
Proof.
  destruct t as [ty raw text lang depth ordered toks items header rows].
  simpl. intros ->. split; reflexivity.
Qed.

(** X7. A [list] token without [items] at the top level of the lexer's
    answer makes the [try] block of [parse] throw, whatever the other
    tokens are: [addChunk] then returns the tokens of the line parser for
    the whole buffer, and the stored tokens stay those of the call
    before. *)
Theorem list_without_items_falls_back
    (lexer : jsstring -> outcome (list MToken)) (double_charcode : N -> N)
    (p : Parser) (chunk : jsstring) (markedTokens : list MToken)
    (t : MToken) :
  lexer (buffer (withChunk double_charcode p chunk)) = Ok markedTokens ->
  In t markedTokens ->
  m_type t = js "list" ->
  m_items t = None ->
  addChunk lexer double_charcode p chunk
  = Ok (withChunk double_charcode p chunk,
        parsePartial (buffer (withChunk double_charcode p chunk))) /\
  getTokens (withChunk double_charcode p chunk) = getTokens p.
Proof.
  intros Hlex Hin Hty Hitems. split; [|reflexivity].
  destruct (addChunk_cases lexer double_charcode p chunk)
    as [[toks [E _]]|[_ E]]; [exfalso|exact E].
  unfold parsePrimary in E. rewrite Hlex in E. simpl in E.
  apply in_split in Hin. destruct Hin as [a [b ->]].
  unfold processTokensWithDiagramDetection, processInlineTokens in E.
  rewrite map_app, flat_map_app in E. simpl in E.
  destruct (list_token_kept t Hty) as [Ed Ep]. rewrite Ed, Ep in E.
  change ([t] ++ ?l) with (t :: l) in E.
  rewrite convertTokens_throws in E; [discriminate|].
  destruct t as [ty raw text lang depth ordered children items header rows].
  simpl in Hty, Hitems. subst. reflexivity.
Qed.

Lemma list_without_items_falls_back_witness :
  addChunk
    (constLexer
       [hrToken;
        mkMToken (js "list") None None None None None None None None None])
    exactCharcode (newParser true) (js "- a")
  = Ok (mkParser (js "- a") [] true, parsePartial (js "- a")).
Proof.
  exact (proj1
           (list_without_items_falls_back
              (constLexer
                 [hrToken;
                  mkMToken (js "list") None None None None None None None
                    None None])
              exactCharcode (newParser true) (js "- a") _
              (mkMToken (js "list") None None None None None None None
                 None None)
              eq_refl (or_intror (or_introl eq_refl)) eq_refl eq_refl)).
Defined.

(** ** The fallback table *)

Lemma mapiFrom_length {A B : Type} (f : nat -> A -> B) (l : list A) :
  forall i, length (mapiFrom f i l) = length l.
Proof.
  induction l as [|x r IH]; intros i; simpl; [reflexivity|].
  rewrite IH. reflexivity.
Qed.

Lemma mapiFrom_nth_error {A B : Type} (f : nat -> A -> B) (l : list A) :
  forall i k,
    nth_error (mapiFrom f i l) k
    = option_map (f (i + k)%nat) (nth_error l k).
Proof.
  induction l as [|x r IH]; intros i [|k]; simpl; try reflexivity.
  - rewrite Nat.add_0_r. reflexivity.
  - rewrite IH, Nat.add_succ_r. reflexivity.
Qed.

Lemma fold_max_ge (r : list nat) :
  forall x,
    (x <= fold_left Nat.max r x)%nat /\
    Forall (fun y => (y <= fold_left Nat.max r x)%nat) r.
Proof.
  induction r as [|y r IH]; intros x; simpl.
  - split; [lia | constructor].
  - destruct (IH (Nat.max x y)) as [H1 H2].
    split; [lia|]. constructor; [lia | exact H2].
Qed.

Lemma maxOf_ge (y : nat) (l : list nat) :
  In y l -> exists m, maxOf l = Some m /\ (y <= m)%nat.
Proof.
  destruct l as [|x r]; [intros []|]. intros [<-|Hin]; simpl.
  - eexists. split; [reflexivity|]. apply fold_max_ge.
  - eexists. split; [reflexivity|].
    destruct (fold_max_ge r x) as [_ H].
    rewrite Forall_forall in H. apply H, Hin.
Qed.

(** Every width is at least five, the length of its header and the length
    of every cell of its column. *)
Lemma fallbackWidths_nth (data : TableData) (k w : nat) :
  nth_error (fallbackWidths data) k = Some w ->
  exists h,
    nth_error (headers data) k = Some h /\
    (length h <= w)%nat /\ (5 <= w)%nat /\
    forall row, In row (rows data) -> (length (cellAt row k) <= w)%nat.
Proof.
  unfold fallbackWidths, mapi. rewrite mapiFrom_nth_error. simpl.
  unfold jsstring in *.
  destruct (@nth_error (list N) (headers data) k) as [h|]; simpl; intros H;
    [|discriminate H].
  injection H as <-. exists h. split; [reflexivity|].
  unfold max3.
  destruct (maxOf _) as [m|] eqn:E.
  - split; [lia|]. split; [lia|]. intros row Hin.
    apply (in_map (fun row => length (cellAt row k))) in Hin.
    apply maxOf_ge in Hin. destruct Hin as [m' [E' Hle]].
    unfold jsstring in *. rewrite E in E'. injection E' as <-. lia.
  - split; [lia|]. split; [lia|]. intros row Hin.
    destruct (rows data); [contradiction | discriminate E].
Qed.

Lemma fallbackWidths_length (data : TableData) :
  length (fallbackWidths data) = length (headers data).
Proof. apply mapiFrom_length. Qed.

Lemma padded_lengths (ws : list nat) (cells : list jsstring) :
  length cells = length ws ->
  (forall k c w,
     nth_error cells k = Some c -> nth_error ws k = Some w ->
     (length c <= w)%nat) ->
  map (@length N)
    (mapi (fun index cell => padEnd cell (nth_error ws index)) cells)
  = ws.
Proof.
  intros Hlen H. apply nth_error_ext. intros k.
  rewrite nth_error_map. unfold mapi. rewrite mapiFrom_nth_error. simpl.
  destruct (nth_error cells k) as [c|] eqn:Ec; simpl.
  - destruct (nth_error ws k) as [w|] eqn:Ew.
    + simpl. rewrite length_app, repeat_length.
      specialize (H k c w Ec Ew). f_equal. lia.
    + exfalso. apply nth_error_None in Ew.
      assert (k < length cells)%nat by (apply nth_error_Some; congruence).
      lia.
  - symmetry. apply nth_error_None. apply nth_error_None in Ec. lia.
Qed.

Lemma length_join (sep : jsstring) (l : list jsstring) :
  length (join sep l)
  = (list_sum (map (@length N) l) + length sep * (length l - 1))%nat.
Proof.
  induction l as [|x [|y r] IH].
  - simpl. lia.
  - simpl. lia.
  - change (join sep (x :: y :: r)) with (x ++ sep ++ join sep (y :: r)).
    rewrite !length_app, IH. cbn [map list_sum length].
    replace (S (S (length r)) - 1)%nat with (S (length r)) by lia.
    replace (S (length r) - 1)%nat with (length r) by lia.
    rewrite Nat.mul_succ_r. unfold list_sum. cbn [fold_right]. lia.
Qed.

Lemma fold_add_sum (l : list nat) :
  forall a, fold_left Nat.add l a = (a + list_sum l)%nat.
Proof.
  induction l as [|x r IH]; intros a; simpl; [lia|]. rewrite IH. lia.
Qed.

Lemma repeatStr_char (c : N) (n : Z) :
  (0 <= n)%Z -> repeatStr [c] n = Ok (repeat c (Z.to_nat n)).
Proof.
  intros H. unfold repeatStr.
  destruct (n <? 0)%Z eqn:E; [apply Z.ltb_lt in E; lia|].
  f_equal. induction (Z.to_nat n) as [|k IH]; simpl; [reflexivity|].
  rewrite IH. reflexivity.
Qed.

Lemma boxLine_length (ws : list nat) (cells : list jsstring) :
  ws <> [] ->
  map (@length N) cells = ws ->
  length (boxLine cells) = (list_sum ws + 3 * length ws + 1)%nat.
Proof.
  intros Hne <-. unfold boxLine.
  rewrite !length_app, length_join, length_map. simpl length.
  destruct cells as [|c r]; [contradiction|]. simpl length.
  unfold jsstring in *. lia.
Qed.

(** A table with a header and as many cells in every row: the lines of the
    fallback rendering all have the same length. *)
Lemma renderFallbackTable_lines (data : TableData) :
  headers data <> [] ->
  Forall (fun row => length row = length (headers data)) (rows data) ->
  exists lines,
    renderFallbackTable data = Ok (join [LF] lines) /\
    length lines = (length (rows data) + 4)%nat /\
    Forall
      (fun line =>
         length line
         = (list_sum (fallbackWidths data) + 3 * length (headers data)
            + 1)%nat)
      lines.
Proof.
  intros Hne Hrect. unfold renderFallbackTable.
  pose proof (fallbackWidths_length data) as Hlen.
  set (ws := fallbackWidths data) in *.
  assert (Hws : ws <> []).
  { intros E. rewrite E in Hlen. destruct (headers data);
      [contradiction | discriminate]. }
  assert (Hpos : (1 <= length ws)%nat).
  { destruct ws; [contradiction | simpl; lia]. }
  rewrite fold_add_sum. simpl (0 + _)%nat.
  set (total := (Z.of_nat (list_sum ws) + (Z.of_nat (length ws) - 1) * 3
                 + 4)%Z).
  assert (Htotal : Z.to_nat (total - 2)
                   = (list_sum ws + 3 * length ws - 1)%nat)
    by (unfold total; lia).
  rewrite repeatStr_char by (unfold total; lia). cbn [bind].
  eexists. split; [reflexivity|]. split.
  - rewrite !length_app, length_map. simpl. lia.
  - rewrite <- Hlen.
    change [[9581] ++ repeat 9472 (Z.to_nat (total - 2)) ++ [9582];
            boxLine
              (mapi (fun index header => padEnd header (nth_error ws index))
                 (headers data));
            [9500; 9472]
            ++ join [9472; 9532; 9472]
                 (map (fun width => repeat 9472 width) ws)
            ++ [9472; 9508]]
      with ([[9581] ++ repeat 9472 (Z.to_nat (total - 2)) ++ [9582]]
            ++ [boxLine
                  (mapi
                     (fun index header => padEnd header (nth_error ws index))
                     (headers data))]
            ++ [[9500; 9472]
                ++ join [9472; 9532; 9472]
                     (map (fun width => repeat 9472 width) ws)
                ++ [9472; 9508]]).
    repeat (apply Forall_app; split).
    + constructor; [|constructor].
      rewrite !length_app, repeat_length, Htotal. simpl. lia.
    + constructor; [|constructor].
      apply boxLine_length; [exact Hws|]. apply padded_lengths; [lia|].
      intros k c w Ec Ew. unfold ws in Ew.
      apply fallbackWidths_nth in Ew. destruct Ew as [h [Eh [Hle _]]].
      congruence.
    + constructor; [|constructor].
      rewrite !length_app, length_join, !length_map, map_map.
      replace (map (fun x => length (repeat 9472 x)) ws) with ws.
      * simpl length. lia.
      * rewrite <- (map_id ws) at 1. apply map_ext.
        intros a. rewrite repeat_length. reflexivity.
    + apply Forall_map. rewrite Forall_forall in Hrect |- *.
      intros row Hin. apply boxLine_length; [exact Hws|].
      apply padded_lengths; [rewrite Hrect by exact Hin; lia|].
      intros k c w Ec Ew. unfold ws in Ew.
      apply fallbackWidths_nth in Ew. destruct Ew as [_ [_ [_ [_ Hcell]]]].
      specialize (Hcell row Hin). unfold cellAt in Hcell.
      rewrite (nth_error_nth _ _ _ Ec) in Hcell. exact Hcell.
    + constructor; [|constructor].
      rewrite !length_app, repeat_length, Htotal. simpl. lia.
Qed.

Lemma parseMarkdownTable_headed (markdown : jsstring) (td : TableData) :
  parseMarkdownTable markdown = Some td ->
  headers td <> [] /\
  Forall (fun row => length row = length (headers td)) (rows td).
Proof.
  intros H. split.
  - revert H. unfold parseMarkdownTable.
    destruct (length (tableLines markdown) <? 3)%nat; [discriminate|].
    set (hs := map cleanHeader (splitCells (nth 0 (tableLines markdown) []))).
    destruct (length hs =? 0)%nat eqn:E; [discriminate|].
    destruct (length (fold_left _ _ _) =? 0)%nat; [discriminate|].
    intros H; injection H as <-. cbn [headers].
    intros E'. rewrite E' in E. discriminate.
  - apply parseMarkdownTable_result in H. destruct H as [_ ->].
    apply Forall_map. apply Forall_forall. intros cells Hin.
    apply filter_In in Hin. destruct Hin as [_ Hlen].
    apply Nat.eqb_eq in Hlen. rewrite length_map. exact Hlen.
Qed.

(** X8. [renderFallbackTable] throws (the RangeError of
    ['─'.repeat(-1)]) exactly on a table without headers; on every other
    table, whatever its rows, it returns a string. *)
Theorem fallback_table_throws_iff_no_headers (data : TableData) :
  (renderFallbackTable data = Throw <-> headers data = []) /\
  ((exists s, renderFallbackTable data = Ok s) <-> headers data <> []).
Proof.
  assert (Hok : headers data <> [] ->
                exists s, renderFallbackTable data = Ok s).
  { intros Hne. unfold renderFallbackTable.
    pose proof (fallbackWidths_length data) as Hlen.
    set (ws := fallbackWidths data) in *.
    assert (Hpos : (1 <= length ws)%nat).
    { rewrite Hlen. destruct (headers data); [contradiction | simpl; lia]. }
    rewrite repeatStr_char by lia. cbn [bind]. eexists. reflexivity. }
  assert (Hthrow : headers data = [] -> renderFallbackTable data = Throw).
  { intros E. unfold renderFallbackTable, fallbackWidths. rewrite E.
    reflexivity. }
  split; split.
  - intros H. destruct (headers data) as [|h r] eqn:E; [reflexivity|].
    destruct Hok as [s Hs]; [discriminate | congruence].
  - exact Hthrow.
  - intros [s Hs] E. rewrite (Hthrow E) in Hs. discriminate.
  - exact Hok.
Qed.

(** X9. Every table that [parseMarkdownTable] returns is rendered by
    [renderFallbackTable] without an exception, as the join of one line per
    row and four more (top border, header, separator, bottom border), and
    all these lines have the same length: the sum of the column widths,
    three per column and one. *)
Theorem parsed_table_renders_aligned (markdown : jsstring)
    (data : TableData) :
  parseMarkdownTable markdown = Some data ->
  exists lines,
    renderFallbackTable data = Ok (join [LF] lines) /\
    length lines = (length (rows data) + 4)%nat /\
    Forall
      (fun line =>
         length line
         = (list_sum (fallbackWidths data) + 3 * length (headers data)
            + 1)%nat)
      lines.
Proof.
  intros H. apply parseMarkdownTable_headed in H. destruct H as [Hne Hrect].
  apply renderFallbackTable_lines; assumption.
Qed.

Lemma parsed_table_renders_aligned_witness :
  exists lines,
    renderFallbackTable (mkTableData [js "a"; js "b"] [[js "1"; js "2"]])
    = Ok (join [LF] lines) /\
    length lines = 5%nat /\
    Forall (fun line => length line = 17%nat) lines.
Proof.
  exact (parsed_table_renders_aligned sampleTable
           (mkTableData [js "a"; js "b"] [[js "1"; js "2"]]) eq_refl).
Defined.

(** ** Rounded corners *)

Lemma replaceChar_map (c d : N) (s : jsstring) :
  replaceChar c d s = map (fun x => if x =? c then d else x) s.
Proof.
  unfold replaceChar, replaceAll.
  induction s as [|x t IH]; [reflexivity|].
  cbn [replaceAllFrom map]. unfold matchAt. cbn [matchK startsWith].
  rewrite andb_true_r, (N.eqb_sym c x).
  destruct (x =? c).
  - cbn [length skipn app].
    replace (S (length t) - length t - 1)%nat with O by lia.
    rewrite IH. reflexivity.
  - rewrite IH. reflexivity.
Qed.

Ltac corner_cases x :=
  repeat match goal with
  | |- context [N.eqb x ?k] =>
      destruct (N.eqb_spec x k) as [->|?];
        [first [reflexivity | congruence]|cbv beta iota]
  end.

Lemma convertToRoundedCorners_map (table : jsstring) :
  convertToRoundedCorners table = map roundedCorner table.
Proof.
  unfold convertToRoundedCorners. rewrite !replaceChar_map, !map_map.
  apply map_ext. intros x. unfold roundedCorner. corner_cases x.
  reflexivity.
Qed.

(** X10. [convertToRoundedCorners] works character by character: the
    length is kept, a concatenation is converted part by part, no square
    corner is left, a second pass changes nothing, and a text without
    square corners comes back as it is. *)
Theorem rounded_corners (a b : jsstring) :
  length (convertToRoundedCorners a) = length a /\
  convertToRoundedCorners (a ++ b)
  = convertToRoundedCorners a ++ convertToRoundedCorners b /\
  forallb (noneOf squareCorners) (convertToRoundedCorners a) = true /\
  convertToRoundedCorners (convertToRoundedCorners a)
  = convertToRoundedCorners a /\
  (convertToRoundedCorners a = a
   <-> forallb (noneOf squareCorners) a = true).
Proof.
  rewrite !convertToRoundedCorners_map.
  split; [apply length_map|]. split; [apply map_app|].
  assert (Hnone : forall l,
             forallb (noneOf squareCorners) (map roundedCorner l) = true).
  { intros l. apply forallb_forall. intros y Hin.
    apply in_map_iff in Hin. destruct Hin as [x [<- _]].
    unfold roundedCorner. corner_cases x.
    unfold noneOf, squareCorners. cbn [existsb].
    repeat match goal with
    | H : x <> ?k |- context [N.eqb x ?k] =>
        rewrite (proj2 (N.eqb_neq x k) H)
    end.
    reflexivity. }
  split; [apply Hnone|]. split.
  - rewrite map_map. apply map_ext. intros x.
    unfold roundedCorner. corner_cases x. reflexivity.
  - split.
    + intros E. rewrite <- E. apply Hnone.
    + intros H. rewrite <- (map_id a) at 2. apply map_ext_in.
      intros x Hin. rewrite forallb_forall in H. specialize (H x Hin).
      unfold noneOf, squareCorners in H. cbn [existsb] in H.
      unfold roundedCorner.
      repeat match goal with
      | |- context [N.eqb x ?k] =>
          destruct (N.eqb_spec x k) as [E|?];
            [try rewrite E in H; vm_compute in H; discriminate H
            |cbv beta iota]
      end.
      reflexivity.
Qed.

(** ** Table detection *)

Lemma existsb_includes_split (c sep : N) (s : jsstring) :
  c <> sep ->
  existsb (fun line => includes c line) (split sep s) = includes c s.
Proof.
  intros Hne. induction s as [|x r IH]; [reflexivity|].
  cbn [split]. destruct (N.eqb_spec x sep) as [->|Hx].
  - cbn [existsb]. rewrite IH. unfold includes. cbn [existsb].
    rewrite (proj2 (N.eqb_neq c sep) Hne). reflexivity.
  - destruct (split sep r) as [|h t] eqn:E;
      [exfalso; exact (split_not_nil sep r E)|].
    unfold includes in *. cbn [existsb] in *. rewrite <- IH.
    rewrite orb_assoc. reflexivity.
Qed.

Lemma length_split (sep : N) (s : jsstring) :
  length (split sep s) = S (count_occ N.eq_dec s sep).
Proof.
  induction s as [|x r IH]; [reflexivity|].
  cbn [split count_occ]. destruct (N.eqb_spec x sep) as [->|Hx].
  - destruct (N.eq_dec sep sep) as [_|F]; [|contradiction].
    cbn [length]. rewrite IH. reflexivity.
  - destruct (N.eq_dec x sep) as [F|_]; [contradiction|].
    destruct (split sep r) as [|h t] eqn:E;
      [exfalso; exact (split_not_nil sep r E)|].
    exact IH.
Qed.

(** X11. [isTableData] answers [true] exactly when the trimmed content
    holds a [|], or has two lines or more of which the first two hold the
    same number, at least one, of commas, of tabs or of semicolons; the
    lines after the second are not looked at. *)
Theorem isTableData_spec (content : jsstring) :
  isTableData content = true <->
  includes 124 (trim content) = true \/
  exists first second others sep,
    split LF (trim content) = first :: second :: others /\
    In sep [44; 9; 59] /\
    (1 <= count_occ N.eq_dec first sep)%nat /\
    count_occ N.eq_dec first sep = count_occ N.eq_dec second sep.
Proof.
  unfold isTableData.
  rewrite (existsb_includes_split 124 LF) by discriminate.
  destruct (includes 124 (trim content)); [tauto|].
  destruct (split LF (trim content)) as [|first [|second others]] eqn:E.
  - exfalso. exact (split_not_nil _ _ E).
  - change (1 <? length [first])%nat with false. cbv iota.
    split; [discriminate|].
    intros [F|[f [s [o [sep [F _]]]]]]; discriminate F.
  - change (1 <? length (first :: second :: others))%nat with true.
    cbv iota. rewrite existsb_exists.
    unfold columnsOf. cbn [nth_error]. split.
    + intros [sep [Hin H]]. right. exists first, second, others, sep.
      split; [reflexivity|]. split; [exact Hin|].
      apply andb_true_iff in H. destruct H as [H1 H2].
      apply Nat.ltb_lt in H1. apply Nat.eqb_eq in H2.
      rewrite !length_split in *. lia.
    + intros [F|[f [s [o [sep [F [Hin [H1 H2]]]]]]]]; [discriminate F|].
      injection F as <- <- <-. exists sep. split; [exact Hin|].
      apply andb_true_iff. rewrite Nat.ltb_lt, Nat.eqb_eq.
      rewrite !length_split. lia.
Qed.

(** ** Escape sequences *)

Lemma repGreedy_star (f : N -> bool) (k : jsstring -> option mstate) :
  (forall c r, f c = true -> k (c :: r) = None) ->
  forall s, repGreedy f 0 None s k = k (dropWhile f s).
Proof.
  intros Hk. induction s as [|c r IH]; [reflexivity|].
  cbn [repGreedy dropWhile pred option_map andb].
  destruct (f c) eqn:E; [|reflexivity].
  rewrite IH, (Hk c r E). destruct (k (dropWhile f r)); reflexivity.
Qed.

(** The escape sequence at the head of a text. *)
Lemma matchAt_reAnsi (s : jsstring) :
  matchAt Formatting.reAnsi s
  = match s with
    | x :: y :: t =>
        if (x =? 27) && (y =? 91) then
          match dropWhile Formatting.isParam t with
          | z :: u => if z =? 109 then Some ([], u) else None
          | [] => None
          end
        else None
    | _ => None
    end.
Proof.
  unfold matchAt, Formatting.reAnsi. cbn [matchK].
  destruct s as [|x [|y t]]; [reflexivity| |].
  - destruct (x =? 27); reflexivity.
  - destruct (x =? 27); [|reflexivity]. destruct (y =? 91); [|reflexivity].
    cbn [andb]. rewrite repGreedy_star; [reflexivity|].
    intros c r Hc. destruct (N.eqb_spec c 109) as [->|]; [|reflexivity].
    discriminate Hc.
Qed.

Lemma headed_reAnsi : headed Formatting.reAnsi 27.
Proof.
  intros s x. rewrite matchAt_reAnsi. destruct s as [|a [|b t]];
    try discriminate.
  destruct (N.eqb_spec a 27) as [->|]; [|discriminate].
  intros _. eexists. reflexivity.
Qed.

Lemma dropWhile_app (f : N -> bool) (a b : jsstring) :
  dropWhile f (a ++ b)
  = match dropWhile f a with
    | [] => dropWhile f b
    | c :: r => c :: r ++ b
    end.
Proof.
  induction a as [|x a IH]; cbn [app dropWhile]; [destruct b; reflexivity|].
  destruct (f x); [exact IH | reflexivity].
Qed.

Lemma dropWhile_boundary (b : jsstring) :
  boundary b = true ->
  match dropWhile Formatting.isParam b with
  | z :: u => if z =? 109 then Some (@nil jsstring, u) else None
  | [] => None
  end = None.
Proof.
  destruct b as [|c r]; [reflexivity|]. unfold boundary. intros H.
  apply negb_true_iff in H. apply orb_false_iff in H. destruct H as [H H91].
  apply orb_false_iff in H. destruct H as [Hp Hm].
  cbn [dropWhile]. rewrite Hp, Hm. reflexivity.
Qed.

(** Before a boundary the escape sequence at the head of a non-empty text is
    the same. *)
Lemma matchAt_reAnsi_app (x : N) (a b : jsstring) :
  boundary b = true ->
  matchAt Formatting.reAnsi ((x :: a) ++ b)
  = match matchAt Formatting.reAnsi (x :: a) with
    | Some (caps, rest) => Some (caps, rest ++ b)
    | None => None
    end.
Proof.
  intros Hb. rewrite !matchAt_reAnsi. destruct a as [|y t].
  - cbn [app]. destruct b as [|c r]; [reflexivity|].
    destruct (x =? 27); [|reflexivity]. cbn [andb].
    unfold boundary in Hb. apply negb_true_iff in Hb.
    apply orb_false_iff in Hb. destruct Hb as [_ ->]. reflexivity.
  - cbn [app]. destruct ((x =? 27) && (y =? 91)); [|reflexivity].
    rewrite dropWhile_app.
    destruct (dropWhile Formatting.isParam t) as [|z u].
    + apply dropWhile_boundary, Hb.
    + destruct (z =? 109); reflexivity.
Qed.

Lemma replaceAllFrom_skip (r : re) (f : list jsstring -> jsstring)
    (m rest : jsstring) :
  replaceAllFrom r f (m ++ rest) (length m) = replaceAllFrom r f rest 0.
Proof.
  induction m as [|x m IH]; [reflexivity|]. exact IH.
Qed.

Lemma matchAt_length (s rest : jsstring) (caps : list jsstring) :
  matchAt Formatting.reAnsi s = Some (caps, rest) ->
  (length rest < length s)%nat.
Proof.
  rewrite matchAt_reAnsi. destruct s as [|x [|y t]]; try discriminate.
  destruct (_ && _); [|discriminate].
  assert (H : forall l, (length (dropWhile Formatting.isParam l)
                         <= length l)%nat).
  { induction l as [|c l IH]; cbn [dropWhile]; [lia|].
    destruct (Formatting.isParam c); simpl; lia. }
  specialize (H t). destruct (dropWhile Formatting.isParam t) as [|z u];
    [discriminate|].
  destruct (z =? 109); [|discriminate].
  intros E; injection E as _ <-. simpl in *. lia.
Qed.

(** Replacing the escape sequences of a text and of a boundary after it. *)
Lemma replaceAllFrom_app (f : list jsstring -> jsstring) (b : jsstring) :
  boundary b = true ->
  forall a n,
    replaceAllFrom Formatting.reAnsi f (a ++ b) n
    = replaceAllFrom Formatting.reAnsi f a n
      ++ replaceAllFrom Formatting.reAnsi f b (n - length a).
Proof.
  intros Hb. induction a as [|x a IH]; intros n.
  - cbn [app length]. rewrite Nat.sub_0_r.
    destruct n; cbn [replaceAllFrom]; [|reflexivity].
    rewrite (matchAt_reAnsi []). reflexivity.
  - destruct n as [|n].
    + change (replaceAllFrom Formatting.reAnsi f ((x :: a) ++ b) 0)
        with (match matchAt Formatting.reAnsi ((x :: a) ++ b) with
              | Some (caps, rest) =>
                  f caps ++
                  replaceAllFrom Formatting.reAnsi f (a ++ b)
                    (length ((x :: a) ++ b) - length rest - 1)
              | None => x :: replaceAllFrom Formatting.reAnsi f (a ++ b) 0
              end).
      rewrite matchAt_reAnsi_app by exact Hb. cbn [replaceAllFrom].
      destruct (matchAt Formatting.reAnsi (x :: a)) as [[caps rest]|] eqn:E.
      * apply matchAt_length in E. rewrite IH, !length_app.
        cbn [length] in *.
        replace (S (length a) + length b - (length rest + length b) - 1)%nat
          with (S (length a) - length rest - 1)%nat by lia.
        replace (S (length a) - length rest - 1 - length a)%nat with O
          by lia.
        rewrite <- app_assoc. reflexivity.
      * rewrite IH. reflexivity.
    + cbn [app replaceAllFrom length Nat.sub]. apply IH.
Qed.

Lemma stripAnsi_app (a b : jsstring) :
  boundary b = true ->
  Formatting.stripAnsi (a ++ b)
  = Formatting.stripAnsi a ++ Formatting.stripAnsi b.
Proof.
  intros Hb. unfold Formatting.stripAnsi, replaceAll.
  rewrite replaceAllFrom_app by exact Hb. reflexivity.
Qed.

(** A text without the escape character has no escape sequence. *)
Lemma stripAnsi_clean (s : jsstring) :
  includes 27 s = false -> Formatting.stripAnsi s = s.
Proof. apply replaceAll_clean, headed_reAnsi. Qed.

Lemma stripAnsi_prefix (pre s : jsstring) :
  includes 27 pre = false ->
  Formatting.stripAnsi (pre ++ s) = pre ++ Formatting.stripAnsi s.
Proof.
  intros H. unfold Formatting.stripAnsi, replaceAll.
  apply (replaceAllFrom_prefix _ _ 27 headed_reAnsi). exact H.
Qed.

(** A colour code at the head of a text is removed as a whole. *)
Lemma stripAnsi_color (c : Formatting.Color) (s : jsstring) :
  Formatting.stripAnsi (Formatting.colors c ++ s) = Formatting.stripAnsi s.
Proof.
  unfold Formatting.stripAnsi, replaceAll.
  assert (E : exists x m,
             Formatting.colors c = x :: m /\
             matchAt Formatting.reAnsi (x :: m ++ s) = Some ([], s)).
  { destruct c; eexists; eexists; (split; [reflexivity|]);
      rewrite matchAt_reAnsi; reflexivity. }
  destruct E as [x [m [-> E]]]. cbn [app replaceAllFrom]. rewrite E.
  cbn [length app]. rewrite length_app.
  replace (S (length m + length s) - length s - 1)%nat with (length m)
    by lia.
  apply replaceAllFrom_skip.
Qed.

Lemma stripAnsi_reset :
  Formatting.stripAnsi (Formatting.colors Formatting.reset) = [].
Proof. reflexivity. Qed.

Lemma stripAnsi_shorter (s : jsstring) :
  (length (Formatting.stripAnsi s) <= length s)%nat.
Proof.
  unfold Formatting.stripAnsi, replaceAll.
  assert (H : forall n,
             (length (replaceAllFrom Formatting.reAnsi (fun _ => []) s n)
              <= length s)%nat).
  { induction s as [|x s IH]; intros n.
    - destruct n; cbn [replaceAllFrom]; [|simpl; lia].
      rewrite (matchAt_reAnsi []). simpl. lia.
    - destruct n; cbn [replaceAllFrom].
      + destruct (matchAt Formatting.reAnsi (x :: s)) as [[caps rest]|].
        * cbn [app length]. specialize (IH (S (length s) - length rest - 1)%nat).
          lia.
        * cbn [length]. specialize (IH O). lia.
      + cbn [length]. specialize (IH n). lia. }
  apply H.
Qed.

Lemma stripAnsi_styles (styles : list Formatting.Color) (s : jsstring) :
  Formatting.stripAnsi (join [] (map Formatting.colors styles) ++ s)
  = Formatting.stripAnsi s.
Proof.
  induction styles as [|x [|y r] IH].
  - reflexivity.
  - cbn [map join]. apply stripAnsi_color.
  - change (join [] (map Formatting.colors (x :: y :: r)))
      with (Formatting.colors x
            ++ [] ++ join [] (map Formatting.colors (y :: r))).
    cbn [app]. rewrite <- app_assoc, stripAnsi_color. exact IH.
Qed.

Lemma stripAnsi_colorize (text : jsstring) (color : Formatting.Color) :
  Formatting.stripAnsi (Formatting.colorize text color)
  = Formatting.stripAnsi text.
Proof.
  unfold Formatting.colorize.
  rewrite stripAnsi_color, stripAnsi_app by reflexivity.
  rewrite stripAnsi_reset. apply app_nil_r.
Qed.

(** X12. Colours do not show: without its escape sequences a text that
    [colorize] or [style] has wrapped is the text without its own escape
    sequences, so its visual length is that of the text, whatever the text
    and the colours are. *)
Theorem colours_do_not_show (text : jsstring) (color : Formatting.Color)
    (styles : list Formatting.Color) :
  Formatting.stripAnsi (Formatting.colorize text color)
  = Formatting.stripAnsi text /\
  Formatting.stripAnsi (Formatting.style text styles)
  = Formatting.stripAnsi text /\
  Formatting.visualLength (Formatting.colorize text color)
  = Formatting.visualLength text /\
  Formatting.visualLength (Formatting.style text styles)
  = Formatting.visualLength text.
Proof.
  pose proof (stripAnsi_colorize text color) as H1.
  assert (H2 : Formatting.stripAnsi (Formatting.style text styles)
               = Formatting.stripAnsi text).
  { unfold Formatting.style.
    rewrite stripAnsi_styles, stripAnsi_app by reflexivity.
    rewrite stripAnsi_reset. apply app_nil_r. }
  unfold Formatting.visualLength. rewrite H1, H2. repeat split.
Qed.

Lemma includes_spaces (n : nat) : includes 27 (repeat 32 n) = false.
Proof. induction n; [reflexivity | exact IHn]. Qed.

Lemma boundary_spaces (n : nat) : boundary (repeat 32 n) = true.
Proof. destruct n; reflexivity. Qed.

Lemma pad_visual (text : jsstring) (width : Z) (align : Formatting.Align) :
  Z.of_nat (Formatting.visualLength (Formatting.pad text width align))
  = Z.max width (Z.of_nat (Formatting.visualLength text)).
Proof.
  unfold Formatting.pad.
  set (len := Formatting.visualLength text).
  set (padding := Z.max 0 (width - Z.of_nat len)).
  assert (Hp : (0 <= padding)%Z) by (unfold padding; lia).
  assert (Hd : (0 <= padding / 2 <= padding)%Z).
  { split; [apply Z.div_pos; lia|].
    apply Z.div_le_upper_bound; lia. }
  destruct align; unfold Formatting.visualLength.
  - rewrite stripAnsi_app by apply boundary_spaces.
    rewrite (stripAnsi_clean (repeat 32 _)) by apply includes_spaces.
    rewrite length_app, repeat_length.
    fold (Formatting.visualLength text). fold len. lia.
  - rewrite stripAnsi_prefix by apply includes_spaces.
    rewrite stripAnsi_app by apply boundary_spaces.
    rewrite (stripAnsi_clean (repeat 32 _)) by apply includes_spaces.
    rewrite !length_app, !repeat_length.
    fold (Formatting.visualLength text). fold len. lia.
  - rewrite stripAnsi_prefix by apply includes_spaces.
    rewrite length_app, repeat_length.
    fold (Formatting.visualLength text). fold len. lia.
Qed.

(** X13. [pad] brings the visual length of a text to the width when it is
    shorter and keeps it otherwise, for the three alignments and whatever
    escape sequences the text holds; a text that is wide enough is
    returned as it is. *)
Theorem pad_visual_length (text : jsstring) (width : Z)
    (align : Formatting.Align) :
  Z.of_nat (Formatting.visualLength (Formatting.pad text width align))
  = Z.max width (Z.of_nat (Formatting.visualLength text)) /\
  ((width <= Z.of_nat (Formatting.visualLength text))%Z ->
   Formatting.pad text width align = text).
Proof.
  split; [apply pad_visual|].
  - intros H. unfold Formatting.pad.
    replace (Z.max 0 (width - Z.of_nat (Formatting.visualLength text)))
      with 0%Z by lia.
    destruct align; cbn; rewrite ?app_nil_r; reflexivity.
Qed.

(** X14. With an ellipsis that is not longer than the width, the visual
    length of what [truncate] returns is at most the width. *)
Theorem truncate_fits (text : jsstring) (width : Z) (ellipsis : jsstring) :
  (Z.of_nat (length ellipsis) <= width)%Z ->
  (Z.of_nat
     (Formatting.visualLength (Formatting.truncate text width ellipsis))
   <= width)%Z.
Proof.
  intros H. unfold Formatting.truncate.
  destruct (Z.of_nat (Formatting.visualLength text) <=? width)%Z eqn:E;
    [apply Z.leb_le, E|].
  unfold Formatting.visualLength at 1.
  pose proof (stripAnsi_shorter
                (Formatting.sliceTo (Formatting.stripAnsi text)
                   (width - Z.of_nat (length ellipsis)) ++ ellipsis)) as Hs.
  rewrite length_app in Hs. unfold Formatting.sliceTo in *.
  destruct (width - Z.of_nat (length ellipsis) <? 0)%Z eqn:En;
    [apply Z.ltb_lt in En; lia|].
  pose proof (firstn_le_length
                (Z.to_nat (width - Z.of_nat (length ellipsis)))
                (Formatting.stripAnsi text)) as Hf.
  unfold jsstring in *. lia.
Qed.

Lemma truncate_fits_witness :
  Formatting.truncate (js "hello world") 8 (js "...") = js "hello..." /\
  (Z.of_nat
     (Formatting.visualLength
        (Formatting.truncate (js "hello world") 8 (js "...")))
   <= 8)%Z.
Proof.
  split; [reflexivity|].
  apply (truncate_fits (js "hello world") 8 (js "...")). simpl. lia.
Defined.

(** ** Word wrapping *)

Lemma repGreedy_total (f : N -> bool) (k : jsstring -> option mstate) :
  (forall s, k s <> None) ->
  forall s, repGreedy f 0 None s k <> None.
Proof.
  intros Hk. induction s as [|c r IH]; cbn [repGreedy]; [apply Hk|].
  cbn [andb pred option_map]. destruct (f c); [|apply Hk].
  destruct (repGreedy f 0 None r k); [discriminate | apply Hk].
Qed.

(** [/\s+/] at the head of a text: a match, of one character at least, when
    the text starts with white space, and no match otherwise. *)
Lemma matchAt_reSpaces (c : N) (t : jsstring) :
  if isSpace c
  then exists caps rest,
         matchAt Formatting.reSpaces (c :: t) = Some (caps, rest) /\
         (length rest <= length t)%nat
  else matchAt Formatting.reSpaces (c :: t) = None.
Proof.
  unfold matchAt, Formatting.reSpaces. cbn [matchK repGreedy].
  cbn [andb pred option_map]. destruct (isSpace c); [|reflexivity].
  destruct (repGreedy isSpace 0 None t (fun s' => Some ([], s')))
    as [[caps rest]|] eqn:E.
  - exists caps, rest. split; [reflexivity|].
    apply repGreedy_sound in E. destruct E as [j [_ [_ [Hj [_ E]]]]].
    injection E as _ <-. rewrite length_skipn. lia.
  - exfalso. revert E. apply repGreedy_total. discriminate.
Qed.

Lemma splitFrom_words (s : jsstring) :
  forall piece skip,
    existsb isSpace piece = false ->
    Forall (fun word => existsb isSpace word = false)
      (Formatting.splitFrom Formatting.reSpaces s piece skip).
Proof.
  induction s as [|c t IH]; intros piece skip Hp.
  - constructor; [exact Hp | constructor].
  - cbn [Formatting.splitFrom]. destruct skip as [|n]; [|apply IH, Hp].
    pose proof (matchAt_reSpaces c t) as H.
    destruct (isSpace c) eqn:Ec.
    + destruct H as [caps [rest [-> Hlen]]]. cbn [length].
      destruct (S (length t) - length rest)%nat as [|n] eqn:En; [lia|].
      constructor; [exact Hp|]. apply IH. reflexivity.
    + rewrite H. apply IH. rewrite existsb_app, Hp. simpl.
      rewrite Ec. reflexivity.
Qed.

Lemma join_nil (sep : jsstring) (g : list jsstring) :
  sep <> [] -> join sep g = [] -> g = [] \/ g = [[]].
Proof.
  intros Hsep. destruct g as [|x [|y r]]; cbn [join].
  - left. reflexivity.
  - intros ->. right. reflexivity.
  - intros H. apply app_eq_nil in H. destruct H as [_ H].
    apply app_eq_nil in H. destruct H as [H _]. contradiction.
Qed.

Lemma join_snoc (sep : jsstring) (g : list jsstring) (w : jsstring) :
  g <> [] -> join sep (g ++ [w]) = join sep g ++ sep ++ w.
Proof.
  induction g as [|x [|y r] IH]; intros Hne; [contradiction| |].
  - reflexivity.
  - change (join sep ((x :: y :: r) ++ [w]))
      with (x ++ sep ++ join sep ((y :: r) ++ [w])).
    rewrite IH by discriminate.
    change (join sep (x :: y :: r)) with (x ++ sep ++ join sep (y :: r)).
    rewrite <- !app_assoc. reflexivity.
Qed.

Section WordWrap.

Variable width : Z.

#[local] Abbreviation line_ok := (wrappedWords width).

Lemma wrapStep_groups (gs : list (list jsstring)) (g : list jsstring)
    (word : jsstring) :
  Forall line_ok gs ->
  join [32] g = [] \/ line_ok g ->
  exists gs' g',
    Formatting.wrapStep width (map (join [32]) gs, join [32] g) word
    = (map (join [32]) gs', join [32] g') /\
    Forall line_ok gs' /\
    (join [32] g' = [] \/ line_ok g') /\
    filter nonEmpty (concat gs' ++ g')
    = filter nonEmpty (concat gs ++ g) ++ filter nonEmpty [word].
Proof.
  intros Hgs Hg. unfold Formatting.wrapStep.
  assert (Hword : join [32] [word] = [] \/ line_ok [word]).
  { destruct word as [|c w]; [left; reflexivity|]. right.
    split; [discriminate|]. right. eexists. reflexivity. }
  destruct (join [32] g) as [|c cur] eqn:Ecur.
  - cbn [nonEmpty].
    assert (Eg : filter nonEmpty g = []).
    { destruct (join_nil [32] g) as [-> | ->];
        [discriminate | exact Ecur | reflexivity | reflexivity]. }
    exists gs, [word]. split.
    + destruct (_ <=? _)%Z; reflexivity.
    + split; [exact Hgs|]. split; [exact Hword|].
      rewrite !filter_app, Eg, app_nil_r. reflexivity.
  - cbn [nonEmpty].
    assert (Hne : g <> []) by (intros ->; discriminate Ecur).
    destruct (_ <=? _)%Z eqn:Efit.
    + exists gs, (g ++ [word]).
      rewrite join_snoc, Ecur by exact Hne.
      split; [reflexivity|]. split; [exact Hgs|]. split.
      * right. unfold wrappedWords, fits.
        rewrite join_snoc, Ecur by exact Hne.
        split; [discriminate|]. left. apply Z.leb_le, Efit.
      * rewrite !filter_app. rewrite app_assoc. reflexivity.
    + exists (gs ++ [g]), [word]. rewrite map_app. cbn [map].
      rewrite Ecur. split; [reflexivity|]. split.
      * apply Forall_app. split; [exact Hgs|].
        constructor; [|constructor].
        destruct Hg as [Hg|Hg]; [discriminate Hg | exact Hg].
      * split; [exact Hword|].
        rewrite concat_app. cbn [concat]. rewrite app_nil_r.
        rewrite !filter_app. reflexivity.
Qed.

Lemma wrap_groups (words : list jsstring) :
  forall gs g,
    Forall line_ok gs ->
    join [32] g = [] \/ line_ok g ->
    exists gs' g',
      fold_left (Formatting.wrapStep width) words
        (map (join [32]) gs, join [32] g)
      = (map (join [32]) gs', join [32] g') /\
      Forall line_ok gs' /\
      (join [32] g' = [] \/ line_ok g') /\
      filter nonEmpty (concat gs' ++ g')
      = filter nonEmpty (concat gs ++ g) ++ filter nonEmpty words.
Proof.
  induction words as [|word words IH]; intros gs g Hgs Hg.
  - exists gs, g. cbn [fold_left filter]. rewrite app_nil_r. auto.
  - destruct (wrapStep_groups gs g word Hgs Hg)
      as [gs1 [g1 [E1 [Hgs1 [Hg1 F1]]]]].
    destruct (IH gs1 g1 Hgs1 Hg1) as [gs2 [g2 [E2 [Hgs2 [Hg2 F2]]]]].
    exists gs2, g2. cbn [fold_left]. rewrite E1, E2.
    split; [reflexivity|]. split; [exact Hgs2|]. split; [exact Hg2|].
    rewrite F2, F1, <- app_assoc. f_equal.
    change (word :: words) with ([word] ++ words).
    rewrite filter_app. reflexivity.
Qed.

(** X15. The lines of [wordWrap] are runs of the words of the text, joined
    by one space: no line is empty, a line is longer than the width only
    when it is one word, the words that are not empty come back in their
    order with none lost or repeated, and no word holds white space. *)
Theorem wordWrap_keeps_the_words (text : jsstring) :
  (exists groups,
     Formatting.wordWrap text width = map (join [32]) groups /\
     Forall (wrappedWords width) groups /\
     filter nonEmpty (concat groups)
     = filter nonEmpty (Formatting.splitRegex Formatting.reSpaces text)) /\
  Forall (fun word => existsb isSpace word = false)
    (Formatting.splitRegex Formatting.reSpaces text).
Proof.
  split; [|apply splitFrom_words; reflexivity].
  unfold Formatting.wordWrap.
  destruct (wrap_groups (Formatting.splitRegex Formatting.reSpaces text) [] [])
    as [gs [g [E [Hgs [Hg F]]]]]; [constructor | left; reflexivity|].
  change (@nil jsstring, @nil N)
    with (map (join [32]) [], join [32] []).
  rewrite E. cbn [concat app filter] in F.
  destruct (join [32] g) as [|c cur] eqn:Ecur; cbn [nonEmpty].
  - exists gs. split; [reflexivity|]. split; [exact Hgs|].
    rewrite <- F, filter_app.
    destruct (join_nil [32] g) as [-> | ->];
      [discriminate | exact Ecur | |]; cbn [filter nonEmpty];
      rewrite app_nil_r; reflexivity.
  - exists (gs ++ [g]). rewrite map_app. cbn [map]. rewrite Ecur.
    split; [reflexivity|]. split.
    + apply Forall_app. split; [exact Hgs|]. constructor; [|constructor].
      destruct Hg as [Hg|Hg]; [discriminate Hg | exact Hg].
    + rewrite concat_app. cbn [concat]. rewrite app_nil_r. exact F.
Qed.

End WordWrap.

(** ** Indentation *)

Lemma join_split (sep : N) (s : jsstring) : join [sep] (split sep s) = s.
Proof.
  induction s as [|c r IH]; [reflexivity|].
  cbn [split]. destruct (N.eqb_spec c sep) as [->|Hne].
  - destruct (split sep r) as [|h t] eqn:E;
      [exfalso; exact (split_not_nil sep r E)|].
    change (join [sep] ([] :: h :: t)) with (sep :: join [sep] (h :: t)).
    rewrite IH. reflexivity.
  - destruct (split sep r) as [|h [|h' t]] eqn:E;
      [exfalso; exact (split_not_nil sep r E)| |].
    + cbn [join] in *. rewrite IH. reflexivity.
    + change (join [sep] ((c :: h) :: h' :: t))
        with (c :: join [sep] (h :: h' :: t)).
      rewrite IH. reflexivity.
Qed.

Lemma includes_repeat (c d : N) (n : nat) :
  c <> d -> includes c (repeat d n) = false.
Proof.
  intros Hne. induction n as [|n IH]; [reflexivity|].
  cbn [repeat]. unfold includes in *. cbn [existsb].
  rewrite IH, (proj2 (N.eqb_neq c d) Hne). reflexivity.
Qed.

(** X16. With a number of spaces that is not negative [indent] returns a
    text with the lines of the text, each after that many spaces, and no
    line more; indenting by [a] and then by [b] is indenting by [a + b], and
    indenting by nothing gives the text back. *)
Theorem indent_lines (text : jsstring) (a b : Z) :
  (0 <= a)%Z ->
  (0 <= b)%Z ->
  exists indented,
    Formatting.indent text a = Ok indented /\
    split LF indented
    = map (fun line => repeat 32 (Z.to_nat a) ++ line) (split LF text) /\
    Formatting.indent indented b = Formatting.indent text (a + b) /\
    Formatting.indent text 0 = Ok text.
Proof.
  intros Ha Hb. unfold Formatting.indent.
  rewrite !repeatStr_char by lia. cbn [bind].
  eexists. split; [reflexivity|].
  assert (Hsplit :
            split LF
              (join [LF]
                 (map (fun line => repeat 32 (Z.to_nat a) ++ line)
                    (split LF text)))
            = map (fun line => repeat 32 (Z.to_nat a) ++ line)
                (split LF text)).
  { apply split_join.
    - pose proof (split_not_nil LF text) as H.
      destruct (split LF text); [contradiction | discriminate].
    - apply Forall_map. eapply Forall_impl; [|apply split_pieces].
      intros line H. cbv beta. rewrite includes_app, H.
      rewrite includes_repeat by discriminate. reflexivity. }
  split; [exact Hsplit|]. split.
  - rewrite Hsplit, map_map. do 2 f_equal. apply map_ext. intros line.
    rewrite Z2Nat.inj_add by lia. rewrite Nat.add_comm, repeat_app.
    rewrite <- app_assoc. reflexivity.
  - f_equal. cbn [Z.to_nat repeat app]. rewrite map_id. apply join_split.
Qed.

Lemma indent_lines_witness :
  exists indented,
    Formatting.indent (js "a" ++ [LF] ++ js "b") 2 = Ok indented /\
    split LF indented = [js "  a"; js "  b"] /\
    Formatting.indent indented 1
    = Formatting.indent (js "a" ++ [LF] ++ js "b") 3.
Proof.
  destruct (indent_lines (js "a" ++ [LF] ++ js "b") 2 1)
    as [r [E [Hs [Hc _]]]]; [lia | lia |].
  exists r. split; [exact E|]. split; [exact Hs | exact Hc].
Defined.

(** [indent] throws, the RangeError of [' '.repeat], exactly when the
    number of spaces is negative. *)
Lemma indent_throws_iff_negative (text : jsstring) (spaces : Z) :
  Formatting.indent text spaces = Throw <-> (spaces < 0)%Z.
Proof.
  unfold Formatting.indent, repeatStr.
  destruct (spaces <? 0)%Z eqn:E; cbn [bind].
  - apply Z.ltb_lt in E. tauto.
  - apply Z.ltb_ge in E. split; [discriminate | lia].
Qed.

(** ** Inline formatting of a plain text *)

Lemma execAllFrom_clean (r : re) (c : N) :
  headed r c ->
  forall s pos skip, includes c s = false -> execAllFrom r s pos skip = [].
Proof.
  intros Hr. induction s as [|x s IH]; intros pos skip Hs.
  - destruct skip; cbn [execAllFrom]; [|reflexivity].
    destruct (matchAt r []) as [[caps rest]|] eqn:E; [|reflexivity].
    apply Hr in E. destruct E as [t E]. discriminate.
  - cbn [includes existsb] in Hs. unfold includes in *. cbn [existsb] in Hs.
    apply orb_false_iff in Hs. destruct Hs as [Hx Hs].
    destruct skip; cbn [execAllFrom]; [|apply IH, Hs].
    destruct (matchAt r (x :: s)) as [[caps rest]|] eqn:E.
    + apply Hr in E. destruct E as [t E]. injection E as -> _.
      rewrite N.eqb_refl in Hx. discriminate.
    + apply IH, Hs.
Qed.

Lemma headed_Cat_Chr (c : N) (r : re) : headed (Cat (Chr c) r) c.
Proof.
  intros s x. unfold matchAt. cbn [matchK]. destruct s as [|y t];
    [discriminate|].
  destruct (N.eqb_spec y c) as [->|]; [|discriminate].
  intros _. eexists. reflexivity.
Qed.

(** Every inline pattern starts with one of the marks. *)
Lemma inlinePatterns_headed :
  Forall (fun pattern => exists c, In c inlineMarks /\ headed (fst pattern) c)
    inlinePatterns.
Proof.
  unfold inlinePatterns, inlineMarks.
  repeat (constructor;
          [first
             [ exists 42; split; [simpl; tauto|];
               first [apply (headed_Cat_Str 42 [42]) | apply
                        (headed_Cat_Str 42 [])]
             | exists 95; split; [simpl; tauto|];
               first [apply (headed_Cat_Str 95 [95]) | apply
                        (headed_Cat_Str 95 [])]
             | exists 96; split; [simpl; tauto|];
               apply (headed_Cat_Str 96 [])
             | exists 91; split; [simpl; tauto|]; apply headed_Cat_Chr
             | exists 126; split; [simpl; tauto|];
               apply (headed_Cat_Str 126 [126]) ]|]).
  constructor.
Qed.

(** X17. A text without [*], [_], a backquote, [[] and [~] has no inline
    formatting: [parseInlineFromText] returns it as one [text] token, and
    returns no token at all when the text is white space only. *)
Theorem plain_text_is_one_token (text : jsstring) :
  forallb (noneOf inlineMarks) text = true ->
  parseInlineFromText text
  = if nonEmpty (trim text)
    then [inlineTok (js "text") text text]
    else [].
Proof.
  intros H. unfold parseInlineFromText.
  assert (E : flat_map (matchesOf text) inlinePatterns = []).
  { pose proof inlinePatterns_headed as Hp.
    induction Hp as [|pattern l [c [Hc Hr]] _ IH]; [reflexivity|].
    cbn [flat_map]. rewrite IH, app_nil_r. unfold matchesOf, execAll.
    rewrite (execAllFrom_clean _ c Hr); [reflexivity|].
    apply (forallb_excludes _ _ _ H). unfold noneOf.
    apply negb_false_iff. apply existsb_exists. exists c.
    split; [exact Hc | apply N.eqb_refl]. }
  rewrite E. cbn [sortByStart fold_left].
  destruct text as [|c t]; [reflexivity|].
  change (0 <? length (c :: t))%nat with true. cbv iota.
  cbn [skipn app]. reflexivity.
Qed.

Lemma plain_text_is_one_token_witness :
  parseInlineFromText (js "to do") = [inlineTok (js "text") (js "to do")
                                        (js "to do")] /\
  parseInlineFromText (js "  ") = [].
Proof.
  split.
  - exact (plain_text_is_one_token (js "to do") eq_refl).
  - exact (plain_text_is_one_token (js "  ") eq_refl).
Defined.

(** ** The cells of a parsed table *)

Lemma includes_In (c : N) (s : jsstring) : includes c s = true <-> In c s.
Proof.
  unfold includes. rewrite existsb_exists. split.
  - intros [x [Hin E]]. apply N.eqb_eq in E. subst x. exact Hin.
  - intros Hin. exists c. split; [exact Hin | apply N.eqb_refl].
Qed.

Lemma excludes_sub (c : N) (s t : jsstring) :
  (In c t -> In c s) -> includes c s = false -> includes c t = false.
Proof.
  intros Hsub Hs. destruct (includes c t) eqn:E; [|reflexivity].
  apply includes_In, Hsub, includes_In in E. congruence.
Qed.

Lemma excludes_firstn (c : N) (n : nat) (s : jsstring) :
  includes c s = false -> includes c (firstn n s) = false.
Proof.
  apply excludes_sub. intros H. rewrite <- (firstn_skipn n s).
  apply in_or_app. left. exact H.
Qed.

Lemma excludes_skipn (c : N) (n : nat) (s : jsstring) :
  includes c s = false -> includes c (skipn n s) = false.
Proof.
  apply excludes_sub. intros H. rewrite <- (firstn_skipn n s).
  apply in_or_app. right. exact H.
Qed.

Lemma trimStart_sub (c : N) (s : jsstring) :
  In c (trimStart s) -> In c s.
Proof.
  induction s as [|x s IH]; cbn [trimStart]; [tauto|].
  destruct (isSpace x); [right; auto | tauto].
Qed.

Lemma trim_sub (c : N) (s : jsstring) : In c (trim s) -> In c s.
Proof.
  unfold trim, trimEnd. intros H. apply trimStart_sub.
  apply in_rev in H. apply trimStart_sub in H. apply in_rev. exact H.
Qed.

Lemma excludes_trim (c : N) (s : jsstring) :
  includes c s = false -> includes c (trim s) = false.
Proof. apply excludes_sub, trim_sub. Qed.

Lemma trimStart_idem (s : jsstring) : trimStart (trimStart s) = trimStart s.
Proof.
  induction s as [|x s IH]; [reflexivity|]. cbn [trimStart].
  destruct (isSpace x) eqn:E; [exact IH|]. cbn [trimStart]. rewrite E.
  reflexivity.
Qed.

(** After a character that is no white space [trimStart] stops. *)
Lemma trimStart_last (c : N) (l : jsstring) :
  isSpace c = false -> exists l', trimStart (l ++ [c]) = l' ++ [c].
Proof.
  intros Hc. induction l as [|x l IH]; cbn [app trimStart].
  - rewrite Hc. exists []. reflexivity.
  - destruct (isSpace x); [exact IH|]. exists (x :: l). reflexivity.
Qed.

Lemma trim_idem (s : jsstring) : trim (trim s) = trim s.
Proof.
  unfold trim.
  assert (Hend : forall x, trimEnd (trimEnd x) = trimEnd x).
  { intros x. unfold trimEnd. rewrite rev_involutive, trimStart_idem.
    reflexivity. }
  destruct (trimStart s) as [|c r] eqn:E; [reflexivity|].
  assert (Hc : isSpace c = false).
  { clear Hend. revert E. induction s as [|x s IH]; cbn [trimStart];
      [discriminate|].
    destruct (isSpace x) eqn:Ex; [exact IH|].
    intros H; injection H as <- _. exact Ex. }
  assert (Hhead : exists r', trimEnd (c :: r) = c :: r').
  { unfold trimEnd. cbn [rev].
    destruct (trimStart_last c (rev r) Hc) as [l' ->].
    rewrite rev_app_distr. eexists. reflexivity. }
  destruct Hhead as [r' Er]. rewrite Er. cbn [trimStart]. rewrite Hc.
  rewrite <- Er. apply Hend.
Qed.

(** A lazy repetition that matches has handed some rest of the text to the
    rest of the pattern. *)
Lemma repLazy_sound (s : jsstring) :
  forall f lo hi k x,
    repLazy f lo hi s k = Some x -> exists j, k (skipn j s) = Some x.
Proof.
  induction s as [|c r IH]; intros f lo hi k x; cbn [repLazy].
  - destruct lo; [|discriminate].
    destruct (k []) eqn:E; [|discriminate].
    intros H; injection H as <-. exists O. exact E.
  - destruct (match lo with O => k (c :: r) | S _ => None end) as [y|] eqn:E.
    + intros H; injection H as <-. destruct lo; [|discriminate].
      exists O. exact E.
    + destruct (_ && _); [|discriminate]. intros H. apply IH in H.
      destruct H as [j H]. exists (S j). exact H.
Qed.

(** What [unwrap] puts for a match is a piece of the text. *)
Lemma reLazyDelimited_capture (d : string) (s rest : jsstring)
    (caps : list jsstring) :
  matchAt (reLazyDelimited d) s = Some (caps, rest) ->
  exists i j, cap 1 caps = firstn j (skipn i s).
Proof.
  unfold matchAt, reLazyDelimited. cbn [matchK].
  destruct (startsWith (js d) s); [|discriminate].
  intros H. apply repLazy_sound in H. destruct H as [j H].
  destruct (startsWith (js d) _); [|discriminate].
  injection H as <- _. eexists. eexists. reflexivity.
Qed.

Lemma replaceAllFrom_excludes (r : re) (f : list jsstring -> jsstring)
    (c : N) :
  (forall s caps rest,
     matchAt r s = Some (caps, rest) ->
     includes c s = false -> includes c (f caps) = false) ->
  forall s n,
    includes c s = false -> includes c (replaceAllFrom r f s n) = false.
Proof.
  intros Hf. induction s as [|x s IH]; intros n Hs.
  - destruct n; cbn [replaceAllFrom]; [|reflexivity].
    destruct (matchAt r []) as [[caps rest]|] eqn:E; [|reflexivity].
    rewrite app_nil_r. eapply Hf; eassumption.
  - assert (Hs' : includes c s = false).
    { unfold includes in *. cbn [existsb] in Hs.
      apply orb_false_iff in Hs. tauto. }
    destruct n; cbn [replaceAllFrom]; [|apply IH, Hs'].
    destruct (matchAt r (x :: s)) as [[caps rest]|] eqn:E.
    + rewrite includes_app, (Hf _ _ _ E Hs), (IH _ Hs'). reflexivity.
    + unfold includes in *. cbn [existsb] in *.
      apply orb_false_iff in Hs. destruct Hs as [-> _]. apply IH, Hs'.
Qed.

Lemma excludes_unwrap (d : string) (c : N) (s : jsstring) :
  includes c s = false -> includes c (unwrap d s) = false.
Proof.
  apply replaceAllFrom_excludes. intros t caps rest E Ht.
  apply reLazyDelimited_capture in E. destruct E as [i [j ->]].
  apply excludes_firstn, excludes_skipn, Ht.
Qed.

Lemma splitCells_sub (line cell : jsstring) :
  In cell (splitCells line) -> In cell (map trim (split 124 line)).
Proof.
  unfold splitCells.
  set (cells := map trim (split 124 line)).
  set (cells' := match cells with
                 | c :: r => if jseqb c [] then r else cells
                 | [] => cells
                 end).
  assert (H1 : In cell cells' -> In cell cells).
  { unfold cells'. destruct cells as [|c r]; [tauto|].
    destruct (jseqb c []); [right; assumption | tauto]. }
  destruct (rev cells') as [|c r] eqn:E; [exact H1|].
  destruct (jseqb c []); [|exact H1].
  intros H. apply H1. apply in_rev. rewrite E. right.
  apply in_rev in H. exact H.
Qed.

Lemma tidy_cell (line : jsstring) (g : jsstring -> jsstring) :
  includes LF line = false ->
  (forall c s, includes c s = false -> includes c (g s) = false) ->
  Forall tidy (map (fun cell => trim (g cell)) (splitCells line)).
Proof.
  intros Hline Hg. apply Forall_map. apply Forall_forall. intros cell Hin.
  apply splitCells_sub in Hin. apply in_map_iff in Hin.
  destruct Hin as [piece [<- Hin]].
  assert (H124 : includes 124 piece = false).
  { pose proof (split_pieces 124 line) as H. rewrite Forall_forall in H.
    apply H, Hin. }
  assert (HLF : includes LF piece = false).
  { destruct (includes LF piece) eqn:E; [|reflexivity].
    rewrite <- (existsb_includes_split LF 124 line) in Hline
      by discriminate.
    assert (existsb (fun l => includes LF l) (split 124 line) = true).
    { apply existsb_exists. exists piece. split; assumption. }
    congruence. }
  split; [apply trim_idem|].
  split; apply excludes_trim, Hg, excludes_trim; assumption.
Qed.

Lemma tableLines_one_line (markdown line : jsstring) :
  In line (tableLines markdown) -> includes LF line = false.
Proof.
  unfold tableLines. intros H. apply filter_In in H. destruct H as [H _].
  pose proof (split_pieces LF (trim markdown)) as Hp.
  rewrite Forall_forall in Hp. apply Hp, H.
Qed.

(** X18. In a table that [parseMarkdownTable] returns every header and
    every cell is trimmed, holds no [|] and holds no line break. *)
Theorem parsed_cells_are_tidy (markdown : jsstring) (td : TableData) :
  parseMarkdownTable markdown = Some td ->
  Forall tidy (headers td) /\ Forall (Forall tidy) (rows td).
Proof.
  intros H.
  assert (Hlines : (3 <= length (tableLines markdown))%nat).
  { revert H. unfold parseMarkdownTable.
    destruct (length (tableLines markdown) <? 3)%nat eqn:E;
      [discriminate|].
    intros _. apply Nat.ltb_ge in E. exact E. }
  apply parseMarkdownTable_result in H. destruct H as [Hh Hr]. split.
  - rewrite Hh.
    apply (tidy_cell _
             (fun x => unwrap "`" (unwrap "*" (unwrap "**" x)))).
    + apply (tableLines_one_line markdown). apply nth_In. lia.
    + intros c s Hs. repeat apply excludes_unwrap. exact Hs.
  - rewrite Hr. apply Forall_map. apply Forall_forall.
    intros cells Hin. apply filter_In in Hin. destruct Hin as [Hin _].
    apply in_map_iff in Hin. destruct Hin as [line [<- Hin]].
    apply (tidy_cell _
             (fun x =>
                unwrap "~~" (unwrap "`" (unwrap "*" (unwrap "**" x))))).
    + apply (tableLines_one_line markdown).
      rewrite <- (firstn_skipn 2 (tableLines markdown)).
      apply in_or_app. right. exact Hin.
    + intros c s Hs. repeat apply excludes_unwrap. exact Hs.
Qed.

Lemma parsed_cells_are_tidy_witness :
  Forall tidy [js "a"; js "b"] /\ Forall (Forall tidy) [[js "1"; js "2"]].
Proof.
  exact (parsed_cells_are_tidy sampleTable
           (mkTableData [js "a"; js "b"] [[js "1"; js "2"]]) eq_refl).
Defined.

(** ** What the diagram test reads *)

Lemma lowerChar_space (c : N) : isSpace c = true -> lowerChar c = c.
Proof.
  unfold lowerChar. destruct ((65 <=? c) && (c <=? 90)) eqn:E;
    [|reflexivity].
  apply andb_true_iff in E. destruct E as [E1 E2].
  apply N.leb_le in E1. apply N.leb_le in E2.
  unfold isSpace.
  repeat match goal with
  | |- context [c =? ?k] =>
      rewrite (proj2 (N.eqb_neq c k)) by lia
  end.
  replace (8192 <=? c) with false by (symmetry; apply N.leb_gt; lia).
  discriminate.
Qed.

Lemma trimStart_spec (s : jsstring) :
  exists ws, s = ws ++ trimStart s /\ forallb isSpace ws = true.
Proof.
  induction s as [|x s [ws [E H]]]; [exists []; split; reflexivity|].
  cbn [trimStart]. destruct (isSpace x) eqn:Ex.
  - exists (x :: ws). cbn [app forallb]. rewrite Ex, H, <- E.
    split; reflexivity.
  - exists []. split; reflexivity.
Qed.

Lemma trimEnd_spec (s : jsstring) :
  exists ws, s = trimEnd s ++ ws /\ forallb isSpace ws = true.
Proof.
  destruct (trimStart_spec (rev s)) as [ws [E H]].
  exists (rev ws). split.
  - unfold trimEnd. rewrite <- rev_app_distr, <- E, rev_involutive.
    reflexivity.
  - apply forallb_forall. intros x Hin. apply in_rev in Hin.
    rewrite forallb_forall in H. apply H, Hin.
Qed.

Lemma trimStart_spaces (ws s : jsstring) :
  forallb isSpace ws = true -> trimStart (ws ++ s) = trimStart s.
Proof.
  induction ws as [|x ws IH]; [reflexivity|]. cbn [forallb app trimStart].
  intros H. apply andb_true_iff in H. destruct H as [-> H]. apply IH, H.
Qed.

(** White space after a text does not change whether it starts with a
    word. *)
Lemma startsWith_spaces (p : jsstring) :
  forallb (fun c => negb (isSpace c)) p = true ->
  forall a ws,
    forallb isSpace ws = true ->
    startsWith p (a ++ ws) = startsWith p a.
Proof.
  induction p as [|c p IH]; intros Hp a ws Hws; [reflexivity|].
  cbn [forallb] in Hp. apply andb_true_iff in Hp. destruct Hp as [Hc Hp].
  destruct a as [|y a]; cbn [app startsWith].
  - destruct ws as [|w ws]; [reflexivity|]. cbn [startsWith].
    cbn [forallb] in Hws. apply andb_true_iff in Hws.
    destruct Hws as [Hw _].
    destruct (N.eqb_spec c w) as [->|]; [|reflexivity].
    rewrite Hw in Hc. discriminate.
  - rewrite (IH Hp a ws Hws). reflexivity.
Qed.

Lemma startsWith_trimEnd (p x : jsstring) :
  forallb (fun c => negb (isSpace c)) p = true ->
  startsWith p (toLowerCase (trimEnd x)) = startsWith p (toLowerCase x).
Proof.
  intros Hp. destruct (trimEnd_spec x) as [ws [E Hws]].
  rewrite E at 2. unfold toLowerCase. rewrite map_app.
  symmetry. apply startsWith_spaces; [exact Hp|].
  apply forallb_forall. intros c Hin. apply in_map_iff in Hin.
  destruct Hin as [w [<- Hin]]. rewrite forallb_forall in Hws.
  rewrite (lowerChar_space w) by (apply Hws, Hin). apply Hws, Hin.
Qed.

(** X19. [looksLikeMermaidCode] reads the start of the code only: it
    answers whether the code, after its leading white space and without
    regard to case, starts with one of the nine keywords.  So a code that
    starts with a keyword is taken for a diagram whatever follows the
    keyword. *)
Theorem diagram_test_reads_the_start (code : jsstring) :
  looksLikeMermaidCode (Some code)
  = existsb
      (fun keyword =>
         startsWith (toLowerCase keyword) (toLowerCase (trimStart code)))
      mermaidKeywords /\
  forall keyword ws rest,
    In keyword mermaidKeywords ->
    forallb isSpace ws = true ->
    looksLikeMermaidCode (Some (ws ++ keyword ++ rest)) = true.
Proof.
  assert (H : forall s,
             looksLikeMermaidCode (Some s)
             = existsb
                 (fun keyword =>
                    startsWith (toLowerCase keyword)
                      (toLowerCase (trimStart s)))
                 mermaidKeywords).
  { intros s. unfold looksLikeMermaidCode. destruct s as [|c r];
      [reflexivity|].
    cbn [truthy nonEmpty negb jsorD]. cbv iota. unfold trim.
    unfold mermaidKeywords. cbn [existsb].
    rewrite !startsWith_trimEnd by reflexivity. reflexivity. }
  split; [apply H|].
  intros keyword ws rest Hin Hws. rewrite H, trimStart_spaces by exact Hws.
  apply existsb_exists. exists keyword. split; [exact Hin|].
  assert (E : trimStart (keyword ++ rest) = keyword ++ rest).
  { unfold mermaidKeywords in Hin. cbn [In] in Hin.
    repeat (destruct Hin as [<-|Hin]; [reflexivity|]). contradiction. }
  rewrite E. unfold toLowerCase. rewrite map_app. apply startsWith_app.
Qed.

(** ** The types of the tokens *)

Lemma produced_test (q : ParsedToken) :
  existsb (jseqb (p_type q)) producedTypes = true -> produced q.
Proof.
  intros H. apply existsb_exists in H. destruct H as [ty [Hin E]].
  apply jseqb_eq in E. unfold produced. rewrite E. exact Hin.
Qed.

Ltac produced_one :=
  constructor; [apply produced_test; reflexivity | constructor].

Lemma convertToken_produced (t : MToken) :
  forall l, convertToken t = Ok l -> Forall produced l.
Proof.
  induction t as [ty raw text lang depth ordered toks items header rows IH]
    using MToken_children_ind.
  intros l. simpl.
  repeat match goal with
  | |- (if ?c then _ else _) = _ -> _ => destruct c
  end;
  try (intros E; injection E as <-; first [produced_one | constructor]).
  - (* blockquote *)
    destruct toks as [children|]; [|discriminate].
    revert l. induction children as [|x r IHr]; intros l.
    + intros E; injection E as <-; constructor.
    + inversion IH as [|? ? Hx Hr]; subst.
      destruct (convertToken x) as [a|] eqn:Ea; simpl; [|discriminate].
      match goal with
      | |- bind ?e _ = _ -> _ => destruct e as [b|] eqn:Eb
      end; simpl; [|discriminate].
      intros E; injection E as <-.
      apply Forall_app; split; [apply Hx; reflexivity|].
      apply IHr; [assumption | reflexivity].
  - (* list *)
    destruct items as [its|]; [|discriminate].
    intros E; injection E as <-.
    apply Forall_forall. intros q Hq. apply in_map_iff in Hq.
    destruct Hq as [item [<- _]]. apply produced_test. reflexivity.
Qed.

Lemma convertTokens_produced (l : list MToken) :
  forall toks, convertTokens l = Ok toks -> Forall produced toks.
Proof.
  induction l as [|t r IH]; simpl; intros toks.
  - intros E; injection E as <-; constructor.
  - destruct (convertToken t) as [a|] eqn:Ea; simpl; [|discriminate].
    destruct (convertTokens r) as [b|]; simpl; [|discriminate].
    intros E; injection E as <-.
    apply Forall_app; split; [eapply convertToken_produced; eassumption|].
    apply IH; reflexivity.
Qed.

Lemma parseIncompleteLine_produced (line : jsstring) :
  produced (parseIncompleteLine line).
Proof.
  unfold parseIncompleteLine, parseInlineFormatting.
  repeat match goal with
  | |- produced (if ?c then _ else _) => destruct c
  end; apply produced_test; reflexivity.
Qed.

(** X20. Whatever the lexer answers, every token that [addChunk] returns
    has one of fourteen types: heading, paragraph, strong, em, code, link,
    del, text, codeblock, mermaid, listitem, hr, table or blockquote.  The
    parser gives no token of another type of [TokenType] (list, image, br,
    task, incomplete, math-inline, math-block, diagram). *)
Theorem addChunk_token_types
    (lexer : jsstring -> outcome (list MToken)) (double_charcode : N -> N)
    (p p' : Parser) (chunk : jsstring) (toks : list ParsedToken) :
  addChunk lexer double_charcode p chunk = Ok (p', toks) ->
  Forall produced toks.
Proof.
  intros H.
  destruct (addChunk_cases lexer double_charcode p chunk)
    as [[toks' [E E']]|[_ E']]; rewrite E' in H; injection H as _ <-.
  - unfold parsePrimary in E.
    destruct (lexer _) as [markedTokens|]; simpl in E; [|discriminate].
    destruct (convertTokens _) as [toks0|] eqn:Ec; simpl in E;
      [|discriminate].
    injection E as <-. apply convertTokens_produced in Ec.
    destruct (parseIncomplete _); [|exact Ec].
    apply (proj1 (Forall_map p_type (fun ty => In ty producedTypes) _)).
    rewrite handle_types.
    apply (proj2 (Forall_map p_type (fun ty => In ty producedTypes) _)).
    exact Ec.
  - unfold parsePartial. apply Forall_map. apply Forall_forall.
    intros line _. apply parseIncompleteLine_produced.
Qed.

Lemma addChunk_token_types_witness :
  Forall produced
    (snd (returned
            (addChunk (constLexer [openEmParagraph; hrToken]) exactCharcode
               (newParser true) (js "*a")))).
Proof.
  exact (addChunk_token_types (constLexer [openEmParagraph; hrToken])
           exactCharcode (newParser true) _ (js "*a") _ eq_refl).
Defined.

(** ** Numbered items of the line parser *)

Lemma isDigit_range (d : N) : isDigit d = true -> 48 <= d <= 57.
Proof.
  unfold isDigit. intros H. apply andb_true_iff in H. destruct H as [H1 H2].
  apply N.leb_le in H1. apply N.leb_le in H2. lia.
Qed.

Lemma isDigit_not_space (d : N) : isDigit d = true -> isSpace d = false.
Proof.
  intros H. apply isDigit_range in H. unfold isSpace.
  repeat match goal with
  | |- context [d =? ?k] => rewrite (proj2 (N.eqb_neq d k)) by lia
  end.
  replace (8192 <=? d) with false by (symmetry; apply N.leb_gt; lia).
  reflexivity.
Qed.

(** The digits, the dot and the white space of a numbered item. *)
Lemma numbered_prefix (digits : jsstring) (sp : N) (rest : jsstring) :
  forallb isDigit digits = true ->
  digits <> [] ->
  isSpace sp = true ->
  testStart reNumbered (digits ++ 46 :: sp :: rest) = true /\
  testStart reNumber (digits ++ 46 :: sp :: rest) = true.
Proof.
  intros Hd Hne Hsp.
  assert (Hlen : (1 <= length digits)%nat).
  { destruct digits; [contradiction | simpl; lia]. }
  unfold testStart, matchAt, reNumbered, reNumber. cbn [matchK].
  split.
  - rewrite (repGreedy_max digits isDigit 1 None (46 :: sp :: rest) _
               ([], rest)); auto.
    + exact I.
    + cbn [matchK]. rewrite Hsp. reflexivity.
  - rewrite (repGreedy_max digits isDigit 1 None (46 :: sp :: rest) _
               ([], sp :: rest)); auto.
    exact I.
Qed.

(** X21. The line parser takes one character only off a numbered item:
    for a line of digits, a dot, a white space and a text, the [listitem]
    token is ordered and its content is the line without its first digit,
    so it still starts with the rest of the number and the dot. *)
Theorem numbered_item_content (d : N) (digits : jsstring) (sp : N)
    (rest : jsstring) :
  forallb isDigit (d :: digits) = true ->
  isSpace sp = true ->
  parseIncompleteLine (d :: digits ++ 46 :: sp :: rest)
  = mkParsed (js "listitem") (Some (digits ++ 46 :: sp :: rest)) None
      (Some true) None
      (Some (negb (includes LF (d :: digits ++ 46 :: sp :: rest)))) None.
Proof.
  intros Hd Hsp.
  destruct (numbered_prefix (d :: digits) sp rest Hd) as [H1 H2];
    [discriminate | exact Hsp|].
  cbn [forallb] in Hd. apply andb_true_iff in Hd. destruct Hd as [Hd Hds].
  pose proof (isDigit_range d Hd) as Hr.
  unfold parseIncompleteLine.
  change ((d :: digits) ++ 46 :: sp :: rest)
    with (d :: digits ++ 46 :: sp :: rest) in *.
  assert (E1 : testStart reHeadingPrefix (d :: digits ++ 46 :: sp :: rest)
               = false).
  { unfold testStart, matchAt, reHeadingPrefix. cbn [matchK repGreedy].
    unfold only at 1. rewrite (proj2 (N.eqb_neq d 35)) by lia.
    reflexivity. }
  assert (E2 : startsWith (js "```") (d :: digits ++ 46 :: sp :: rest)
               = false).
  { change (js "```") with [96; 96; 96]. cbn [startsWith].
    rewrite (proj2 (N.eqb_neq 96 d)) by lia. reflexivity. }
  assert (E3 : startsWith (js ">") (d :: digits ++ 46 :: sp :: rest)
               = false).
  { change (js ">") with [62]. cbn [startsWith].
    rewrite (proj2 (N.eqb_neq 62 d)) by lia. reflexivity. }
  rewrite E1, E2, E3, H1, H2, orb_true_r.
  assert (E4 : replaceStart reItemPrefix (fun _ => [])
                 (d :: digits ++ 46 :: sp :: rest)
               = digits ++ 46 :: sp :: rest).
  { unfold replaceStart, matchAt, reItemPrefix. cbn [matchK].
    rewrite Hd, orb_true_r.
    rewrite (repGreedy_max [] isSpace 0 None
               (digits ++ 46 :: sp :: rest) _
               ([], digits ++ 46 :: sp :: rest)); auto.
    - exact I.
    - left. destruct digits as [|c r]; [reflexivity|].
      cbn [forallb] in Hds. apply andb_true_iff in Hds.
      apply isDigit_not_space. tauto. }
  rewrite E4. reflexivity.
Qed.

Lemma numbered_item_content_witness :
  p_content (parseIncompleteLine (js "12. x")) = Some (js "2. x") /\
  p_content (parseIncompleteLine (js "1. x")) = Some (js ". x").
Proof.
  split.
  - exact (f_equal p_content
             (numbered_item_content 49 [50] 32 (js "x") eq_refl eq_refl)).
  - exact (f_equal p_content
             (numbered_item_content 49 [] 32 (js "x") eq_refl eq_refl)).
Defined.

(** ** Boxes *)

Lemma splitFrom_skip_all (r : re) (s piece : jsstring) :
  Formatting.splitFrom r s piece (length s) = [piece].
Proof. induction s as [|c s IH]; [reflexivity | exact IH]. Qed.

(** A text of white space only has no word but the empty one. *)
Lemma splitRegex_blank (text : jsstring) :
  forallb isSpace text = true ->
  Forall (fun word => word = []) (Formatting.splitRegex Formatting.reSpaces text).
Proof.
  intros H. unfold Formatting.splitRegex. destruct text as [|c t].
  - repeat constructor.
  - cbn [Formatting.splitFrom].
    assert (E : matchAt Formatting.reSpaces (c :: t) = Some ([], [])).
    { unfold matchAt, Formatting.reSpaces. cbn [matchK].
      rewrite <- (app_nil_r (c :: t)).
      apply repGreedy_max; auto; [simpl; lia | exact I].  }
    rewrite E. cbn [length Nat.sub]. rewrite splitFrom_skip_all.
    repeat constructor.
Qed.

Lemma wrap_empty_words (width : Z) (words : list jsstring) :
  Forall (fun word => word = []) words ->
  fold_left (Formatting.wrapStep width) words ([], []) = ([], []).
Proof.
  induction 1 as [|word words -> _ IH]; [reflexivity|].
  cbn [fold_left]. unfold Formatting.wrapStep at 2. cbn [nonEmpty].
  destruct (_ <=? _)%Z; exact IH.
Qed.

Lemma wordWrap_blank (text : jsstring) (width : Z) :
  forallb isSpace text = true -> Formatting.wordWrap text width = [].
Proof.
  intros H. unfold Formatting.wordWrap.
  rewrite wrap_empty_words by (apply splitRegex_blank, H). reflexivity.
Qed.

Lemma repeatStr_negative (s : jsstring) (n : Z) :
  (n < 0)%Z -> repeatStr s n = Throw.
Proof.
  intros H. unfold repeatStr.
  destruct (n <? 0)%Z eqn:E; [reflexivity|]. apply Z.ltb_ge in E. lia.
Qed.

Lemma forEach_ok {A B : Type} (g : A -> B) (f : A -> outcome B)
    (l : list A) :
  (forall x, f x = Ok (g x)) -> Formatting.forEach f l = Ok (map g l).
Proof.
  intros H. induction l as [|x r IH]; [reflexivity|].
  cbn [Formatting.forEach map]. rewrite H, IH. reflexivity.
Qed.

(** X22. [box] throws, the RangeError of [repeat], exactly when the text
    wraps to no line, the padding is negative or the width is less than
    two; a text of white space only, or the empty text, wraps to no line,
    so [box] throws on it whatever the options are. *)
Theorem box_throws_iff (text : jsstring) (width padding : Z)
    (title : option jsstring) (borderColor : option Formatting.Color) :
  (Formatting.box text width padding title borderColor = Throw <->
   Formatting.wordWrap text (width - padding * 2 - 2) = [] \/
   (padding < 0)%Z \/ (width < 2)%Z) /\
  (forallb isSpace text = true ->
   Formatting.box text width padding title borderColor = Throw).
Proof.
  assert (Hnone : Formatting.wordWrap text (width - padding * 2 - 2) = [] ->
                  Formatting.box text width padding title borderColor
                  = Throw).
  { intros E. unfold Formatting.box. rewrite E. reflexivity. }
  split; [|intros H; apply Hnone, wordWrap_blank, H].
  split.
  - intros H.
    destruct (Formatting.wordWrap text (width - padding * 2 - 2))
      as [|line lines] eqn:E; [left; reflexivity|].
    right. destruct (Z_lt_ge_dec padding 0) as [Hp|Hp]; [left; exact Hp|].
    right. destruct (Z_lt_ge_dec width 2) as [Hw|Hw]; [exact Hw|].
    exfalso. revert H. unfold Formatting.box. rewrite E.
    cbn [map maxOf].
    set (m := fold_left Nat.max (map Formatting.visualLength lines)
                (Formatting.visualLength line)).
    rewrite (repeatStr_char 9472 (Z.min width _ - 2)) by lia.
    rewrite (repeatStr_char 9472 (Z.max 0 _)) by lia.
    rewrite (repeatStr_char 32 padding) by lia.
    destruct (truthy title); cbn [bind];
      erewrite forEach_ok by (intros x; reflexivity); discriminate.
  - intros [E|H]; [apply Hnone, E|].
    unfold Formatting.box.
    destruct (Formatting.wordWrap text (width - padding * 2 - 2))
      as [|line lines]; [reflexivity|].
    cbn [map maxOf].
    set (m := fold_left Nat.max (map Formatting.visualLength lines)
                (Formatting.visualLength line)).
    destruct (Z_lt_ge_dec (Z.min width (Z.of_nat m + padding * 2 + 2)) 2)
      as [Hb|Hb].
    + rewrite (repeatStr_negative [9472] (Z.min width _ - 2)) by lia.
      destruct (truthy title); cbn [bind]; [|reflexivity].
      destruct (repeatStr _ _); reflexivity.
    + assert (Hp : (padding < 0)%Z) by lia.
      cbn [Formatting.forEach].
      rewrite (repeatStr_negative [32] padding) by exact Hp.
      cbn [bind].
      destruct (if truthy title then _ else _); cbn [bind]; [|reflexivity].
      destruct (repeatStr _ _); reflexivity.
Qed.

Lemma fold_max_le (bound : nat) (r : list nat) :
  forall x,
    (x <= bound)%nat -> Forall (fun y => (y <= bound)%nat) r ->
    (fold_left Nat.max r x <= bound)%nat.
Proof.
  induction r as [|y r IH]; intros x Hx Hr; [exact Hx|].
  inversion Hr; subst. cbn [fold_left]. apply IH; [lia | assumption].
Qed.

Lemma visualLength_paint (borderColor : option Formatting.Color)
    (s : jsstring) :
  Formatting.visualLength (Formatting.paint borderColor s)
  = Formatting.visualLength s.
Proof.
  destruct borderColor as [color|]; [|reflexivity].
  unfold Formatting.visualLength. cbn [Formatting.paint].
  rewrite stripAnsi_colorize. reflexivity.
Qed.

Lemma visualLength_border (a b : N) (n : nat) :
  a <> 27 -> b <> 27 ->
  Formatting.visualLength ([a] ++ repeat 9472 n ++ [b]) = (n + 2)%nat.
Proof.
  intros Ha Hb. unfold Formatting.visualLength.
  rewrite stripAnsi_clean.
  - rewrite !length_app, repeat_length. simpl. lia.
  - rewrite !includes_app, includes_repeat by discriminate.
    unfold includes. cbn [existsb].
    rewrite (proj2 (N.eqb_neq 27 a)), (proj2 (N.eqb_neq 27 b)) by congruence.
    reflexivity.
Qed.

Lemma visualLength_boxLine (p : nat) (s : jsstring) :
  Formatting.visualLength ([9474] ++ repeat 32 p ++ s ++ repeat 32 p ++ [9474])
  = (Formatting.visualLength s + 2 * p + 2)%nat.
Proof.
  unfold Formatting.visualLength.
  change ([9474] ++ repeat 32 p ++ s ++ repeat 32 p ++ [9474])
    with ((9474 :: repeat 32 p) ++ s ++ repeat 32 p ++ [9474]).
  assert (E1 : includes 27 (9474 :: repeat 32 p) = false).
  { apply (includes_repeat 27 32 p). discriminate. }
  assert (E2 : includes 27 (repeat 32 p ++ [9474]) = false).
  { rewrite includes_app, includes_repeat by discriminate. reflexivity. }
  rewrite stripAnsi_prefix by exact E1.
  rewrite stripAnsi_app by (destruct p; reflexivity).
  rewrite (stripAnsi_clean (repeat 32 p ++ [9474])) by exact E2.
  rewrite !length_app. cbn [length]. rewrite !repeat_length. lia.
Qed.

(** X23. When no line of the wrapped text is longer than the wrapping
    width, [box] without a title returns the lines between a top and a
    bottom border, and all of them, the borders too, have the same visual
    length, which is at most the width; a border colour does not change
    it. *)
Theorem box_is_aligned (text : jsstring) (width padding : Z)
    (borderColor : option Formatting.Color) :
  (0 <= padding)%Z ->
  Formatting.wordWrap text (width - padding * 2 - 2) <> [] ->
  Forall (fits (width - padding * 2 - 2))
    (Formatting.wordWrap text (width - padding * 2 - 2)) ->
  exists boxLines w,
    Formatting.box text width padding None borderColor
    = Ok (join [LF] boxLines) /\
    length boxLines
    = (length (Formatting.wordWrap text (width - padding * 2 - 2)) + 2)%nat
    /\
    (Z.of_nat w <= width)%Z /\
    Forall (fun line => Formatting.visualLength line = w) boxLines.
Proof.
  intros Hp Hne Hfit. unfold Formatting.box.
  destruct (Formatting.wordWrap text (width - padding * 2 - 2))
    as [|line lines]; [contradiction|].
  cbn [map maxOf truthy].
  set (m := fold_left Nat.max (map Formatting.visualLength lines)
              (Formatting.visualLength line)).
  assert (Hm : (Z.of_nat m <= width - padding * 2 - 2)%Z).
  { assert (H : (m <= Z.to_nat (width - padding * 2 - 2))%nat).
    { inversion Hfit as [|? ? Hx Hr]; subst. unfold fits in *.
      apply fold_max_le; [lia|]. apply Forall_map.
      eapply Forall_impl; [|exact Hr]. cbv beta. intros a Ha. lia. }
    inversion Hfit as [|? ? Hx Hr]; subst. unfold fits in Hx. lia. }
  assert (Hall : Forall (fun l => (Formatting.visualLength l <= m)%nat)
                   (line :: lines)).
  { destruct (fold_max_ge (map Formatting.visualLength lines)
                (Formatting.visualLength line)) as [H1 H2].
    constructor; [exact H1|]. apply Forall_map in H2. exact H2. }
  replace (Z.min width (Z.of_nat m + padding * 2 + 2))
    with (Z.of_nat m + padding * 2 + 2)%Z by lia.
  rewrite (repeatStr_char 9472) by lia.
  rewrite (repeatStr_char 32 padding) by lia.
  cbn [bind]. erewrite forEach_ok by (intros x; reflexivity).
  cbn [bind]. eexists. exists (m + 2 * Z.to_nat padding + 2)%nat.
  split; [reflexivity|]. split; [|split].
  - rewrite !length_app, length_map. simpl. lia.
  - lia.
  - apply Forall_app. split; [|apply Forall_app; split].
    + constructor; [|constructor]. rewrite visualLength_paint.
      rewrite visualLength_border by discriminate. lia.
    + apply Forall_map. eapply Forall_impl; [|exact Hall]. cbv beta.
      intros l Hl. rewrite visualLength_paint, visualLength_boxLine.
      pose proof (pad_visual l (Z.of_nat m + padding * 2 + 2 - padding * 2
                                - 2) Formatting.left) as H.
      lia.
    + constructor; [|constructor]. rewrite visualLength_paint.
      rewrite visualLength_border by discriminate. lia.
Qed.

Lemma box_is_aligned_witness :
  exists boxLines w,
    Formatting.box (js "hello world foo") 10 1 None (Some Formatting.cyan)
    = Ok (join [LF] boxLines) /\
    length boxLines = 5%nat /\
    (Z.of_nat w <= 10)%Z /\
    Forall (fun line => Formatting.visualLength line = w) boxLines.
Proof.
  apply (box_is_aligned (js "hello world foo") 10 1
           (Some Formatting.cyan)).
  - lia.
  - discriminate.
  - repeat constructor; unfold fits; simpl; lia.
Defined.
